(** * PULP-DSP kernels: strided matrix add / sub / copy, transposed matrix
      multiplication and the Newton-Raphson square root.

    The C kernels are embedded as Rocq functions over an explicit memory.
    Every buffer lives in a block; a pointer is a block and an element offset.
    Pointer bumps ([p++], [p += k]) become offset arithmetic, [unsigned int]
    arithmetic is written with its wrap-around modulo [2^32], and stores keep
    only the low [w] bits of the stored value (two's complement). *)

From Stdlib Require Import ZArith List Lia Bool.
From Stdlib Require Import Floats.SpecFloat.
Import ListNotations.
Open Scope Z_scope.

(** ** Machine integers *)

(** [unsigned int] / [uint32_t] arithmetic wraps modulo [2^32]. *)
Definition wrap32 (x : Z) : Z := x mod 2 ^ 32.

(** The value of the low [w] bits of [x] read as a signed [w]-bit integer. *)
Definition sext (w x : Z) : Z := (x + 2 ^ (w - 1)) mod 2 ^ w - 2 ^ (w - 1).

(** A C condition [if (x)] on an unsigned value. *)
Definition nonzero (x : Z) : bool := negb (x =? 0).

(** ** Memory, pointers and the trace of effects *)

Definition block := positive.

Record ptr := mkptr { pblk : block; pofs : Z }.

(** [p + k] on an element pointer. *)
Definition padd (p : ptr) (k : Z) : ptr := mkptr (pblk p) (pofs p + k).

(** What a kernel does to the outside world: element stores and barrier
    rendezvous. The most recent event is at the head of the trace. *)
Inductive event :=
| EvStore (b : block) (i : Z)
| EvBarrier.

Record mem := mkmem { cells : block -> Z -> Z; trace : list event }.

(** [*p] read at element width [w]. *)
Definition load (w : Z) (m : mem) (p : ptr) : Z :=
  sext w (cells m (pblk p) (pofs p)).

(** [*p = v] at element width [w]. *)
Definition store (w : Z) (m : mem) (p : ptr) (v : Z) : mem :=
  mkmem (fun b i => if Pos.eqb b (pblk p) && Z.eqb i (pofs p)
                    then sext w v else cells m b i)
        (EvStore (pblk p) (pofs p) :: trace m).

(** Modelled from the spec: [rt_team_barrier()] belongs to the runtime and is
    not among the sources; a call of it is one barrier rendezvous, recorded
    as an event of the trace. *)
Definition rt_team_barrier (m : mem) : mem :=
  mkmem (cells m) (EvBarrier :: trace m).

(** ** Packed lane vectors *)

(** Modelled from the spec: the vector types [v2s] and [v4s] of plp_math.h
    are not among the sources; a packed lane vector is 2 packed 16-bit lanes
    or 4 packed 8-bit lanes within one 32-bit machine word. Lane 0 is the
    element at the lower address. *)
Definition lane (w k v : Z) : Z := (v / 2 ^ (w * k)) mod 2 ^ w.

Definition pack2 (e0 e1 : Z) : Z := e0 mod 2 ^ 16 + 2 ^ 16 * (e1 mod 2 ^ 16).

Definition pack4 (e0 e1 e2 e3 : Z) : Z :=
  e0 mod 2 ^ 8 + 2 ^ 8 * (e1 mod 2 ^ 8) + 2 ^ 16 * (e2 mod 2 ^ 8)
  + 2 ^ 24 * (e3 mod 2 ^ 8).

(** [*((v2s * )p)] and [*((v2s * )p) = v] on an [int16_t] buffer. *)
Definition load_v2s (m : mem) (p : ptr) : Z :=
  pack2 (load 16 m p) (load 16 m (padd p 1)).

Definition store_v2s (m : mem) (p : ptr) (v : Z) : mem :=
  store 16 (store 16 m p (lane 16 0 v)) (padd p 1) (lane 16 1 v).

(** [*((v4s * )p)] and [*((v4s * )p) = v] on an [int8_t] buffer. *)
Definition load_v4s (m : mem) (p : ptr) : Z :=
  pack4 (load 8 m p) (load 8 m (padd p 1)) (load 8 m (padd p 2))
        (load 8 m (padd p 3)).

Definition store_v4s (m : mem) (p : ptr) (v : Z) : mem :=
  store 8 (store 8 (store 8 (store 8 m p (lane 8 0 v))
                             (padd p 1) (lane 8 1 v))
                   (padd p 2) (lane 8 2 v))
          (padd p 3) (lane 8 3 v).

(** [*((int32_t * )p)] on an [int16_t] or [int8_t] buffer: the same word,
    read as a signed 32-bit integer. *)
Definition load_i32_of16 (m : mem) (p : ptr) : Z := sext 32 (load_v2s m p).
Definition store_i32_of16 (m : mem) (p : ptr) (v : Z) : mem := store_v2s m p v.
Definition load_i32_of8 (m : mem) (p : ptr) : Z := sext 32 (load_v4s m p).
Definition store_i32_of8 (m : mem) (p : ptr) (v : Z) : mem := store_v4s m p v.

(** Modelled from the spec: the macros [__ADD2], [__SUB2] and [__ADD4] of
    plp_math.h are not among the sources; the packed add/subtract primitive
    applies the operator independently to each lane and wraps on overflow
    per lane (no saturation, no promotion). *)
Definition ADD2 (x y : Z) : Z :=
  pack2 (lane 16 0 x + lane 16 0 y) (lane 16 1 x + lane 16 1 y).

Definition SUB2 (x y : Z) : Z :=
  pack2 (lane 16 0 x - lane 16 0 y) (lane 16 1 x - lane 16 1 y).

Definition ADD4 (x y : Z) : Z :=
  pack4 (lane 8 0 x + lane 8 0 y) (lane 8 1 x + lane 8 1 y)
        (lane 8 2 x + lane 8 2 y) (lane 8 3 x + lane 8 3 y).

(** ** Loops *)

(** [for (n = 0; n < count; n++) body], for a body that does not read [n]. *)
Definition for_n {St : Type} (count : Z) (body : St -> St) (s : St) : St :=
  Nat.iter (Z.to_nat count) body s.

(** [for (m = m0; m < M; m += nPE) body] on a [uint32_t] counter. The counter
    wraps, so the loop need not terminate: [fuel] bounds the number of
    iterations and [None] means that it was not enough. *)
Fixpoint for_pe {St : Type} (fuel : nat) (m M nPE : Z)
  (body : Z -> St -> St) (s : St) : option St :=
  if m <? M then
    match fuel with
    | O => None
    | S f => for_pe f (wrap32 (m + nPE)) M nPE body (body m s)
    end
  else Some s.

(** [for (i = 0; i < count; i++) body i], for a body that reads [i]. *)
Definition for_idx {St : Type} (count : Z) (body : Z -> St -> St) (s : St)
  : St :=
  fold_left (fun acc i => body (Z.of_nat i) acc) (seq 0 (Z.to_nat count)) s.

(** ** Kernels with two sources: add and subtract *)

(** The local variables of an add/sub kernel that change while it runs. *)
Record st3 := mkst3 { pSrcA : ptr; pSrcB : ptr; pDst : ptr; mem3 : mem }.

Section BinaryBodies.

(** Element width and the C operator on the promoted operands. *)
Variable w : Z.
Variable op : Z -> Z -> Z.

(** [int a = *pSrcA++; int b = *pSrcB++; *pDst++ = a op b;] *)
Definition scalar3 (s : st3) : st3 :=
  let a := load w (mem3 s) (pSrcA s) in
  let b := load w (mem3 s) (pSrcB s) in
  mkst3 (padd (pSrcA s) 1) (padd (pSrcB s) 1) (padd (pDst s) 1)
        (store w (mem3 s) (pDst s) (op a b)).

(** [a1 = *pSrcA++; a2 = *pSrcA++; b1 = *pSrcB++; b2 = *pSrcB++;
     *pDst++ = a1 op b1; *pDst++ = a2 op b2;] *)
Definition pair3 (s : st3) : st3 :=
  let a1 := load w (mem3 s) (pSrcA s) in
  let a2 := load w (mem3 s) (padd (pSrcA s) 1) in
  let b1 := load w (mem3 s) (pSrcB s) in
  let b2 := load w (mem3 s) (padd (pSrcB s) 1) in
  let m1 := store w (mem3 s) (pDst s) (op a1 b1) in
  let m2 := store w m1 (padd (pDst s) 1) (op a2 b2) in
  mkst3 (padd (pSrcA s) 2) (padd (pSrcB s) 2) (padd (pDst s) 2) m2.

End BinaryBodies.

Section PackedBodies.

(** The packed primitive: [__ADD2], [__SUB2] or [__ADD4]. *)
Variable OPV : Z -> Z -> Z.

(** [v2s a = *((v2s * )pSrcA); v2s b = *((v2s * )pSrcB);
     *((v2s * )pDst) = OPV(a, b); pSrcA += 2; pSrcB += 2; pDst += 2;] *)
Definition v2s_one (s : st3) : st3 :=
  let a := load_v2s (mem3 s) (pSrcA s) in
  let b := load_v2s (mem3 s) (pSrcB s) in
  mkst3 (padd (pSrcA s) 2) (padd (pSrcB s) 2) (padd (pDst s) 2)
        (store_v2s (mem3 s) (pDst s) (OPV a b)).

(** The unrolled step on four 16-bit elements: both vectors of each source
    are read before the two vector stores. *)
Definition v2s_two (s : st3) : st3 :=
  let a1 := load_v2s (mem3 s) (pSrcA s) in
  let b1 := load_v2s (mem3 s) (pSrcB s) in
  let a2 := load_v2s (mem3 s) (padd (pSrcA s) 2) in
  let b2 := load_v2s (mem3 s) (padd (pSrcB s) 2) in
  let m1 := store_v2s (mem3 s) (pDst s) (OPV a1 b1) in
  let m2 := store_v2s m1 (padd (pDst s) 2) (OPV a2 b2) in
  mkst3 (padd (pSrcA s) 4) (padd (pSrcB s) 4) (padd (pDst s) 4) m2.

(** [v4s a = *((v4s * )pSrcA); v4s b = *((v4s * )pSrcB); pSrcA += 4;
     pSrcB += 4; *((v4s * )pDst) = OPV(a, b); pDst += 4;] *)
Definition v4s_one (s : st3) : st3 :=
  let a := load_v4s (mem3 s) (pSrcA s) in
  let b := load_v4s (mem3 s) (pSrcB s) in
  mkst3 (padd (pSrcA s) 4) (padd (pSrcB s) 4) (padd (pDst s) 4)
        (store_v4s (mem3 s) (pDst s) (OPV a b)).

(** The unrolled step on eight 8-bit elements. *)
Definition v4s_two (s : st3) : st3 :=
  let a1 := load_v4s (mem3 s) (pSrcA s) in
  let b1 := load_v4s (mem3 s) (pSrcB s) in
  let a2 := load_v4s (mem3 s) (padd (pSrcA s) 4) in
  let b2 := load_v4s (mem3 s) (padd (pSrcB s) 4) in
  let m1 := store_v4s (mem3 s) (pDst s) (OPV a1 b1) in
  let m2 := store_v4s m1 (padd (pDst s) 4) (OPV a2 b2) in
  mkst3 (padd (pSrcA s) 8) (padd (pSrcB s) 8) (padd (pDst s) 8) m2.

End PackedBodies.

(** [pSrcA += step_a; pSrcB += step_b; pDst += step_y;] *)
Definition next_line3 (step_a step_b step_y : Z) (s : st3) : st3 :=
  mkst3 (padd (pSrcA s) step_a) (padd (pSrcB s) step_b)
        (padd (pDst s) step_y) (mem3 s).

(** Statements in sequence. *)
Definition then_ {St : Type} (f g : St -> St) (s : St) : St := g (f s).
Infix ">>" := then_ (at level 61, left associativity).

Definition skip {St : Type} (s : St) : St := s.

(** *** plp_mat_add_stride_i32s_xpulpv2.c *)

Definition plp_mat_add_stride_i32s_xpulpv2 (LOOPUNROLL : bool)
  (pSrcA pSrcB : ptr) (M N strideA strideB strideY : Z) (pDst : ptr)
  (m : mem) : mem :=
  if LOOPUNROLL then
    let n_iter := Z.shiftr N 1 in
    let n_rem := Z.land N 1 in
    let step_a := wrap32 (strideA - N) in
    let step_b := wrap32 (strideB - N) in
    let step_y := wrap32 (strideY - N) in
    let s0 := mkst3 pSrcA pSrcB pDst m in
    mem3
      (if nonzero n_rem then
         for_n M (for_n n_iter (pair3 32 Z.add) >> scalar3 32 Z.add
                  >> next_line3 step_a step_b step_y) s0
       else
         for_n M (for_n n_iter (pair3 32 Z.add)
                  >> next_line3 step_a step_b step_y) s0)
  else
    let step_a := wrap32 (strideA - N) in
    let step_b := wrap32 (strideB - N) in
    let step_y := wrap32 (strideY - N) in
    mem3 (for_n M (for_n N (scalar3 32 Z.add)
                   >> next_line3 step_a step_b step_y)
                (mkst3 pSrcA pSrcB pDst m)).

(** *** plp_mat_sub_stride_i16s_rv32im.c *)

Definition plp_mat_sub_stride_i16s_rv32im (LOOPUNROLL : bool)
  (pSrcA pSrcB : ptr) (M N strideA strideB strideY : Z) (pDst : ptr)
  (m : mem) : mem :=
  if LOOPUNROLL then
    let n_iter := Z.shiftr N 1 in
    let n_rem := Z.land N 1 in
    let step_a := wrap32 (strideA - N) in
    let step_b := wrap32 (strideB - N) in
    let step_y := wrap32 (strideY - N) in
    let s0 := mkst3 pSrcA pSrcB pDst m in
    mem3
      (if nonzero n_rem then
         for_n M (for_n n_iter (pair3 16 Z.sub) >> scalar3 16 Z.sub
                  >> next_line3 step_a step_b step_y) s0
       else
         for_n M (for_n n_iter (pair3 16 Z.sub)
                  >> next_line3 step_a step_b step_y) s0)
  else
    let step_a := wrap32 (strideA - N) in
    let step_b := wrap32 (strideB - N) in
    let step_y := wrap32 (strideY - N) in
    mem3 (for_n M (for_n N (scalar3 16 Z.sub)
                   >> next_line3 step_a step_b step_y)
                (mkst3 pSrcA pSrcB pDst m)).

(** *** plp_mat_sub_stride_i16s_xpulpv2.c *)

Definition plp_mat_sub_stride_i16s_xpulpv2 (LOOPUNROLL : bool)
  (pSrcA pSrcB : ptr) (M N strideA strideB strideY : Z) (pDst : ptr)
  (m : mem) : mem :=
  if LOOPUNROLL then
    let n_iter := Z.shiftr N 2 in
    let n_rem := Z.land N 1 in
    let n_blk := Z.land N 2 in
    let step_a := wrap32 (strideA - N) in
    let step_b := wrap32 (strideB - N) in
    let step_y := wrap32 (strideY - N) in
    let s0 := mkst3 pSrcA pSrcB pDst m in
    mem3
      (if nonzero n_rem then
         if nonzero n_blk then
           for_n M (for_n n_iter (v2s_two SUB2) >> v2s_one SUB2
                    >> scalar3 16 Z.sub
                    >> next_line3 step_a step_b step_y) s0
         else
           for_n M (for_n n_iter (v2s_two SUB2) >> scalar3 16 Z.sub
                    >> next_line3 step_a step_b step_y) s0
       else
         if nonzero n_blk then
           for_n M (for_n n_iter (v2s_two SUB2) >> v2s_one SUB2
                    >> next_line3 step_a step_b step_y) s0
         else
           for_n M (for_n n_iter (v2s_two SUB2)
                    >> next_line3 step_a step_b step_y) s0)
  else
    let n_iter := Z.shiftr N 1 in
    let n_rem := Z.land N 1 in
    let step_a := wrap32 (strideA - N) in
    let step_b := wrap32 (strideB - N) in
    let step_y := wrap32 (strideY - N) in
    let s0 := mkst3 pSrcA pSrcB pDst m in
    mem3
      (if nonzero n_rem then
         for_n M (for_n n_iter (v2s_one SUB2) >> scalar3 16 Z.sub
                  >> next_line3 step_a step_b step_y) s0
       else
         for_n M (for_n n_iter (v2s_one SUB2)
                  >> next_line3 step_a step_b step_y) s0).

(** *** Parallel kernels: the instance structures *)

(** Modelled from the spec: the structures [plp_mat_add_stride_instance_i16]
    and [plp_mat_add_stride_instance_i8] of plp_math.h are not among the
    sources; the bundle holds pointers to all operand buffers, M, N, all
    strides, an output pointer and [nPE]. The fields are those the kernels
    read. *)
Record plp_mat_add_stride_instance := mk_add_instance {
  a_pSrcA : ptr; a_pSrcB : ptr; a_M : Z; a_N : Z;
  a_strideA : Z; a_strideB : Z; a_strideY : Z; a_nPE : Z; a_pDst : ptr }.

(** Modelled from the spec: the structures
    [plp_mat_copy_stride_instance_i16] and [plp_mat_copy_stride_instance_i8]
    of plp_math.h are not among the sources; same bundle with one source. *)
Record plp_mat_copy_stride_instance := mk_copy_instance {
  c_pSrc : ptr; c_M : Z; c_N : Z;
  c_strideSrc : Z; c_strideDst : Z; c_nPE : Z; c_pDst : ptr }.

(** Modelled from the spec: the structure [plp_mat_mult_instance_i16] of
    plp_math.h is not among the sources; the fields are those the kernel
    reads. *)
Record plp_mat_mult_instance_i16 := mk_mult_instance {
  x_pSrcA : ptr; x_pSrcB : ptr; x_M : Z; x_N : Z; x_O : Z; x_nPE : Z;
  x_pDstC : ptr }.

(** *** plp_mat_add_stride_i16p_xpulpv2.c

    [core_id] is what [rt_core_id()] returns for the calling core. *)

Definition plp_mat_add_stride_i16p_xpulpv2 (fuel : nat) (core_id : Z)
  (a : plp_mat_add_stride_instance) (m : mem) : option mem :=
  let M := a_M a in
  let N := a_N a in
  let strideA := a_strideA a in
  let strideB := a_strideB a in
  let strideY := a_strideY a in
  let nPE := a_nPE a in
  let n_iter := Z.shiftr N 2 in
  let n_blk := Z.land N 2 in
  let n_rem := Z.land N 1 in
  let s0 := mkst3 (padd (a_pSrcA a) (wrap32 (strideA * core_id)))
                  (padd (a_pSrcB a) (wrap32 (strideB * core_id)))
                  (padd (a_pDst a) (wrap32 (strideY * core_id))) m in
  let step_a := wrap32 (strideA * nPE - N) in
  let step_b := wrap32 (strideB * nPE - N) in
  let step_y := wrap32 (strideY * nPE - N) in
  option_map mem3
    (if nonzero n_rem then
       if nonzero n_blk then
         for_pe fuel (wrap32 core_id) M nPE
           (fun _ => for_n n_iter (v2s_two ADD2) >> v2s_one ADD2
                     >> scalar3 16 Z.add
                     >> next_line3 step_a step_b step_y) s0
       else
         for_pe fuel (wrap32 core_id) M nPE
           (fun _ => for_n n_iter (v2s_two ADD2) >> scalar3 16 Z.add
                     >> next_line3 step_a step_b step_y) s0
     else
       if nonzero n_blk then
         for_pe fuel (wrap32 core_id) M nPE
           (fun _ => for_n n_iter (v2s_two ADD2) >> v2s_one ADD2
                     >> next_line3 step_a step_b step_y) s0
       else
         for_pe fuel (wrap32 core_id) M nPE
           (fun _ => for_n n_iter (v2s_two ADD2)
                     >> next_line3 step_a step_b step_y) s0).

(** *** plp_mat_add_stride_i8p_xpulpv2.c *)

Definition plp_mat_add_stride_i8p_xpulpv2 (fuel : nat) (core_id : Z)
  (a : plp_mat_add_stride_instance) (m : mem) : option mem :=
  let M := a_M a in
  let N := a_N a in
  let strideA := a_strideA a in
  let strideB := a_strideB a in
  let strideY := a_strideY a in
  let nPE := a_nPE a in
  let n_iter := Z.shiftr N 3 in
  let n_rem := Z.land N 3 in
  let n_blk := Z.land N 4 in
  let s0 := mkst3 (padd (a_pSrcA a) (wrap32 (strideA * core_id)))
                  (padd (a_pSrcB a) (wrap32 (strideB * core_id)))
                  (padd (a_pDst a) (wrap32 (strideY * core_id))) m in
  let step_a := wrap32 (strideA * nPE - N) in
  let step_b := wrap32 (strideB * nPE - N) in
  let step_y := wrap32 (strideY * nPE - N) in
  option_map mem3
    (if nonzero n_rem then
       if nonzero n_blk then
         for_pe fuel (wrap32 core_id) M nPE
           (fun _ => for_n n_iter (v4s_two ADD4) >> v4s_one ADD4
                     >> for_n n_rem (scalar3 8 Z.add)
                     >> next_line3 step_a step_b step_y) s0
       else
         for_pe fuel (wrap32 core_id) M nPE
           (fun _ => for_n n_iter (v4s_two ADD4)
                     >> for_n n_rem (scalar3 8 Z.add)
                     >> next_line3 step_a step_b step_y) s0
     else
       if nonzero n_blk then
         for_pe fuel (wrap32 core_id) M nPE
           (fun _ => for_n n_iter (v4s_two ADD4) >> v4s_one ADD4
                     >> next_line3 step_a step_b step_y) s0
       else
         for_pe fuel (wrap32 core_id) M nPE
           (fun _ => for_n n_iter (v4s_two ADD4)
                     >> next_line3 step_a step_b step_y) s0).

(** ** Kernels with one source: copy *)

(** The local variables of a copy kernel. Its [pDst] is called [pDst_c]
    here, since record projections share one name space. *)
Record st2 := mkst2 { pSrc : ptr; pDst_c : ptr; mem2 : mem }.

(** [*pDst++ = *pSrc++;] at element width [w]. *)
Definition copy_inc (w : Z) (s : st2) : st2 :=
  mkst2 (padd (pSrc s) 1) (padd (pDst_c s) 1)
        (store w (mem2 s) (pDst_c s) (load w (mem2 s) (pSrc s))).

(** [*pDst = *pSrc;], the pointers stay. *)
Definition copy_here (w : Z) (s : st2) : st2 :=
  mkst2 (pSrc s) (pDst_c s)
        (store w (mem2 s) (pDst_c s) (load w (mem2 s) (pSrc s))).

(** [*((int32_t * )pDst) = *((int32_t * )pSrc); pDst += 2; pSrc += 2;]
    on [int16_t] buffers. *)
Definition copy_w16 (s : st2) : st2 :=
  mkst2 (padd (pSrc s) 2) (padd (pDst_c s) 2)
        (store_i32_of16 (mem2 s) (pDst_c s) (load_i32_of16 (mem2 s) (pSrc s))).

(** [*((int32_t * )pDst) = *((int32_t * )pSrc); pDst += 4; pSrc += 4;]
    on [int8_t] buffers. *)
Definition copy_w8 (s : st2) : st2 :=
  mkst2 (padd (pSrc s) 4) (padd (pDst_c s) 4)
        (store_i32_of8 (mem2 s) (pDst_c s) (load_i32_of8 (mem2 s) (pSrc s))).

(** [pSrc += src_offset; pDst += dst_offset;] *)
Definition next_line2 (src_offset dst_offset : Z) (s : st2) : st2 :=
  mkst2 (padd (pSrc s) src_offset) (padd (pDst_c s) dst_offset) (mem2 s).

(** *** plp_mat_copy_stride_i16s_xpulpv2.c *)

Definition plp_mat_copy_stride_i16s_xpulpv2 (LOOPUNROLL : bool)
  (pSrc : ptr) (M N strideSrc strideDst : Z) (pDst : ptr) (m : mem) : mem :=
  let s0 := mkst2 pSrc pDst m in
  if LOOPUNROLL then
    let n_iter := Z.shiftr N 2 in
    let n_blk := Z.land N 2 in
    let n_rem := Z.land N 1 in
    mem2
      (if nonzero n_rem then
         let src_offset := wrap32 (strideSrc - N + 1) in
         let dst_offset := wrap32 (strideDst - N + 1) in
         if nonzero n_blk then
           for_n M (for_n n_iter (copy_w16 >> copy_w16) >> copy_w16
                    >> copy_here 16
                    >> next_line2 src_offset dst_offset) s0
         else
           for_n M (for_n n_iter (copy_w16 >> copy_w16) >> copy_here 16
                    >> next_line2 src_offset dst_offset) s0
       else
         let src_offset := wrap32 (strideSrc - N) in
         let dst_offset := wrap32 (strideDst - N) in
         if nonzero n_blk then
           for_n M (for_n n_iter (copy_w16 >> copy_w16) >> copy_w16
                    >> next_line2 src_offset dst_offset) s0
         else
           for_n M (for_n n_iter (copy_w16 >> copy_w16)
                    >> next_line2 src_offset dst_offset) s0)
  else
    let n_iter := Z.shiftr N 1 in
    let n_rem := Z.land N 1 in
    mem2
      (if nonzero n_rem then
         let src_offset := wrap32 (strideSrc - N + 1) in
         let dst_offset := wrap32 (strideDst - N + 1) in
         for_n M (for_n n_iter copy_w16 >> copy_here 16
                  >> next_line2 src_offset dst_offset) s0
       else
         let src_offset := wrap32 (strideSrc - N) in
         let dst_offset := wrap32 (strideDst - N) in
         for_n M (for_n n_iter copy_w16
                  >> next_line2 src_offset dst_offset) s0).

(** *** plp_mat_copy_stride_i16p_xpulpv2.c

    The first pair of offsets that the source declares is shadowed in both
    branches and never read; it is left out. *)

Definition plp_mat_copy_stride_i16p_xpulpv2 (fuel : nat) (core_id : Z)
  (a : plp_mat_copy_stride_instance) (m : mem) : option mem :=
  let M := c_M a in
  let N := c_N a in
  let strideSrc := c_strideSrc a in
  let strideDst := c_strideDst a in
  let nPE := c_nPE a in
  let s0 := mkst2 (padd (c_pSrc a) (wrap32 (strideSrc * core_id)))
                  (padd (c_pDst a) (wrap32 (strideDst * core_id))) m in
  let n_iter := Z.shiftr N 2 in
  let n_blk := Z.land N 2 in
  let n_rem := Z.land N 1 in
  option_map mem2
    (if nonzero n_rem then
       let src_offset := wrap32 (nPE * strideSrc - N + 1) in
       let dst_offset := wrap32 (nPE * strideDst - N + 1) in
       if nonzero n_blk then
         for_pe fuel (wrap32 core_id) M nPE
           (fun _ => for_n n_iter (copy_w16 >> copy_w16) >> copy_w16
                     >> copy_here 16
                     >> next_line2 src_offset dst_offset) s0
       else
         for_pe fuel (wrap32 core_id) M nPE
           (fun _ => for_n n_iter (copy_w16 >> copy_w16) >> copy_here 16
                     >> next_line2 src_offset dst_offset) s0
     else
       let src_offset := wrap32 (nPE * strideSrc - N) in
       let dst_offset := wrap32 (nPE * strideDst - N) in
       if nonzero n_blk then
         for_pe fuel (wrap32 core_id) M nPE
           (fun _ => for_n n_iter (copy_w16 >> copy_w16) >> copy_w16
                     >> next_line2 src_offset dst_offset) s0
       else
         for_pe fuel (wrap32 core_id) M nPE
           (fun _ => for_n n_iter (copy_w16 >> copy_w16)
                     >> next_line2 src_offset dst_offset) s0).

(** *** plp_mat_copy_stride_i8p_xpulpv2.c *)

Definition plp_mat_copy_stride_i8p_xpulpv2 (fuel : nat) (core_id : Z)
  (a : plp_mat_copy_stride_instance) (m : mem) : option mem :=
  let M := c_M a in
  let N := c_N a in
  let strideSrc := c_strideSrc a in
  let strideDst := c_strideDst a in
  let nPE := c_nPE a in
  let n_iter := Z.shiftr N 3 in
  let n_rem := Z.land N 3 in
  let n_last_full := Z.land N 4 in
  let s0 := mkst2 (padd (c_pSrc a) (wrap32 (strideSrc * core_id)))
                  (padd (c_pDst a) (wrap32 (strideDst * core_id))) m in
  let src_offset := wrap32 (strideSrc * nPE - N) in
  let dst_offset := wrap32 (strideDst * nPE - N) in
  option_map mem2
    (if n_iter =? 0 then
       if n_rem =? 0 then
         if n_last_full =? 0 then
           Some s0
         else
           for_pe fuel (wrap32 core_id) M nPE
             (fun _ => copy_w8 >> next_line2 src_offset dst_offset) s0
       else
         if n_last_full =? 0 then
           for_pe fuel (wrap32 core_id) M nPE
             (fun _ => for_n n_rem (copy_inc 8)
                       >> next_line2 src_offset dst_offset) s0
         else
           for_pe fuel (wrap32 core_id) M nPE
             (fun _ => copy_w8 >> for_n n_rem (copy_inc 8)
                       >> next_line2 src_offset dst_offset) s0
     else
       if n_rem =? 0 then
         if n_last_full =? 0 then
           for_pe fuel (wrap32 core_id) M nPE
             (fun _ => for_n n_iter (copy_w8 >> copy_w8)
                       >> next_line2 src_offset dst_offset) s0
         else
           for_pe fuel (wrap32 core_id) M nPE
             (fun _ => for_n n_iter (copy_w8 >> copy_w8) >> copy_w8
                       >> next_line2 src_offset dst_offset) s0
       else
         if n_last_full =? 0 then
           for_pe fuel (wrap32 core_id) M nPE
             (fun _ => for_n n_iter (copy_w8 >> copy_w8)
                       >> for_n n_rem (copy_inc 8)
                       >> next_line2 src_offset dst_offset) s0
         else
           for_pe fuel (wrap32 core_id) M nPE
             (fun _ => for_n n_iter (copy_w8 >> copy_w8) >> copy_w8
                       >> for_n n_rem (copy_inc 8)
                       >> next_line2 src_offset dst_offset) s0).

(** *** Two rows at a time: the unrolled RV32IM copies *)

Record st4 := mkst4 {
  pSrc1 : ptr; pSrc2 : ptr; pDst1 : ptr; pDst2 : ptr; mem4 : mem }.

(** [*((int32_t * )pDst1) = *((int32_t * )pSrc1);
     *((int32_t * )pDst2) = *((int32_t * )pSrc2);
     pSrc1 += 2; pSrc2 += 2; pDst1 += 2; pDst2 += 2;] on [int16_t]. *)
Definition copy2_w16 (s : st4) : st4 :=
  let m1 := store_i32_of16 (mem4 s) (pDst1 s)
                           (load_i32_of16 (mem4 s) (pSrc1 s)) in
  let m2 := store_i32_of16 m1 (pDst2 s) (load_i32_of16 m1 (pSrc2 s)) in
  mkst4 (padd (pSrc1 s) 2) (padd (pSrc2 s) 2)
        (padd (pDst1 s) 2) (padd (pDst2 s) 2) m2.

(** [*pDst1 = *pSrc1; *pDst2 = *pSrc2;], the pointers stay. *)
Definition copy2_here (w : Z) (s : st4) : st4 :=
  let m1 := store w (mem4 s) (pDst1 s) (load w (mem4 s) (pSrc1 s)) in
  let m2 := store w m1 (pDst2 s) (load w m1 (pSrc2 s)) in
  mkst4 (pSrc1 s) (pSrc2 s) (pDst1 s) (pDst2 s) m2.

(** The same on [int8_t], four elements of each row. *)
Definition copy2_w8 (s : st4) : st4 :=
  let m1 := store_i32_of8 (mem4 s) (pDst1 s)
                          (load_i32_of8 (mem4 s) (pSrc1 s)) in
  let m2 := store_i32_of8 m1 (pDst2 s) (load_i32_of8 m1 (pSrc2 s)) in
  mkst4 (padd (pSrc1 s) 4) (padd (pSrc2 s) 4)
        (padd (pDst1 s) 4) (padd (pDst2 s) 4) m2.

(** [*pDst1++ = *pSrc1++; *pDst2++ = *pSrc2++;] *)
Definition copy2_inc (w : Z) (s : st4) : st4 :=
  let m1 := store w (mem4 s) (pDst1 s) (load w (mem4 s) (pSrc1 s)) in
  let m2 := store w m1 (pDst2 s) (load w m1 (pSrc2 s)) in
  mkst4 (padd (pSrc1 s) 1) (padd (pSrc2 s) 1)
        (padd (pDst1 s) 1) (padd (pDst2 s) 1) m2.

(** [*((int32_t * )pDst1) = *((int32_t * )pSrc1); pSrc1 += 4; pDst1 += 4;] *)
Definition copy1_w8 (s : st4) : st4 :=
  mkst4 (padd (pSrc1 s) 4) (pSrc2 s) (padd (pDst1 s) 4) (pDst2 s)
        (store_i32_of8 (mem4 s) (pDst1 s) (load_i32_of8 (mem4 s) (pSrc1 s))).

(** [*pDst1++ = *pSrc1++;] *)
Definition copy1_inc (w : Z) (s : st4) : st4 :=
  mkst4 (padd (pSrc1 s) 1) (pSrc2 s) (padd (pDst1 s) 1) (pDst2 s)
        (store w (mem4 s) (pDst1 s) (load w (mem4 s) (pSrc1 s))).

(** [pSrc1 += so; pSrc2 += so; pDst1 += do; pDst2 += do;] *)
Definition next_lines4 (src_offset dst_offset : Z) (s : st4) : st4 :=
  mkst4 (padd (pSrc1 s) src_offset) (padd (pSrc2 s) src_offset)
        (padd (pDst1 s) dst_offset) (padd (pDst2 s) dst_offset) (mem4 s).

(** *** plp_mat_copy_stride_i8s_rv32im.c *)

Definition plp_mat_copy_stride_i8s_rv32im (LOOPUNROLL : bool)
  (pSrc : ptr) (M N strideSrc strideDst : Z) (pDst : ptr) (m : mem) : mem :=
  if LOOPUNROLL then
    let s0 := mkst4 pSrc (padd pSrc strideSrc) pDst (padd pDst strideDst) m in
    let offset_src := wrap32 (2 * strideSrc - N) in
    let offset_dst := wrap32 (2 * strideDst - N) in
    let m_iter := Z.shiftr M 1 in
    let m_rem := Z.land M 1 in
    let n_iter := Z.shiftr N 2 in
    let n_rem := Z.land N 3 in
    mem4
      (if nonzero n_rem then
         let s1 :=
           for_n m_iter (for_n n_iter copy2_w8 >> for_n n_rem (copy2_inc 8)
                         >> next_lines4 offset_src offset_dst) s0 in
         if nonzero m_rem then
           (for_n n_iter copy1_w8 >> for_n n_rem (copy1_inc 8)) s1
         else s1
       else
         let s1 :=
           for_n m_iter (for_n n_iter copy2_w8
                         >> next_lines4 offset_src offset_dst) s0 in
         if nonzero m_rem then for_n n_iter copy1_w8 s1 else s1)
  else
    let s0 := mkst2 pSrc pDst m in
    let offset_src := wrap32 (strideSrc - N) in
    let offset_dst := wrap32 (strideDst - N) in
    let n_iter := Z.shiftr N 2 in
    let n_rem := Z.land N 3 in
    mem2
      (if nonzero n_rem then
         for_n M (for_n n_iter copy_w8 >> for_n n_rem (copy_inc 8)
                  >> next_line2 offset_src offset_dst) s0
       else
         for_n M (for_n n_iter copy_w8
                  >> next_line2 offset_src offset_dst) s0).

(** *** plp_mat_copy_stride_i16s_rv32im.c *)

Definition plp_mat_copy_stride_i16s_rv32im (LOOPUNROLL : bool)
  (pSrc : ptr) (M N strideSrc strideDst : Z) (pDst : ptr) (m : mem) : mem :=
  if LOOPUNROLL then
    let s0 := mkst4 pSrc (padd pSrc strideSrc) pDst (padd pDst strideDst) m in
    let n_iter := Z.shiftr N 1 in
    let n_rem := Z.land N 1 in
    let m_iter := Z.shiftr M 1 in
    let m_rem := Z.land M 1 in
    mem4
      (if nonzero n_rem then
         let src_offset := wrap32 (2 * strideSrc - N + 1) in
         let dst_offset := wrap32 (2 * strideDst - N + 1) in
         let s1 :=
           for_n m_iter (for_n n_iter copy2_w16 >> copy2_here 16
                         >> next_lines4 src_offset dst_offset) s0 in
         if nonzero m_rem then
           (for_n n_iter copy2_w16 >> copy2_here 16) s1
         else s1
       else
         let src_offset := wrap32 (2 * strideSrc - N) in
         let dst_offset := wrap32 (2 * strideDst - N) in
         let s1 :=
           for_n m_iter (for_n n_iter copy2_w16
                         >> next_lines4 src_offset dst_offset) s0 in
         if nonzero m_rem then for_n n_iter copy2_w16 s1 else s1)
  else
    let s0 := mkst2 pSrc pDst m in
    let n_iter := Z.shiftr N 1 in
    let n_rem := Z.land N 1 in
    mem2
      (if nonzero n_rem then
         let src_offset := wrap32 (strideSrc - N + 1) in
         let dst_offset := wrap32 (strideDst - N + 1) in
         for_n M (for_n n_iter copy_w16 >> copy_here 16
                  >> next_line2 src_offset dst_offset) s0
       else
         let src_offset := wrap32 (strideSrc - N) in
         let dst_offset := wrap32 (strideDst - N) in
         for_n M (for_n n_iter copy_w16
                  >> next_line2 src_offset dst_offset) s0).

(** *** plp_mat_copy_stride_i32s_rv32im.c *)

Definition plp_mat_copy_stride_i32s_rv32im (LOOPUNROLL : bool)
  (pSrc : ptr) (M N strideSrc strideDst : Z) (pDst : ptr) (m : mem) : mem :=
  if LOOPUNROLL then
    let n_iter := Z.shiftr N 1 in
    let n_rem := Z.land N 1 in
    mem2
      (for_n M (for_n n_iter (copy_inc 32 >> copy_inc 32)
                >> (if nonzero n_rem then copy_inc 32 else skip)
                >> next_line2 (wrap32 (strideSrc - N))
                              (wrap32 (strideDst - N)))
             (mkst2 pSrc pDst m))
  else
    for_idx M
      (fun r => for_idx N
         (fun n mm => store 32 mm (padd pDst (wrap32 (r * strideDst + n)))
                        (load 32 mm (padd pSrc (wrap32 (r * strideSrc + n))))))
      m.

(** ** plp_mat_mult_trans_i16vp_xpulpv2.c (BASIC_VERSION) *)

(** [sum = sum + pSrcA[m*N + n] * pSrcB[o*N + n]]: the product of the two
    promoted [int16_t] fits an [int]; the sum is kept in an [int32_t]. *)
Definition mult_acc (pSrcA pSrcB : ptr) (N r o : Z) (mm : mem) (n sum : Z)
  : Z :=
  sext 32 (sum + load 16 mm (padd pSrcA (wrap32 (r * N + n)))
                 * load 16 mm (padd pSrcB (wrap32 (o * N + n)))).

Definition plp_mat_mult_trans_i16vp_xpulpv2 (fuel : nat) (core_id : Z)
  (arguments : plp_mat_mult_instance_i16) (m : mem) : option mem :=
  let pSrcA := x_pSrcA arguments in
  let pSrcB := x_pSrcB arguments in
  let M := x_M arguments in
  let N := x_N arguments in
  let O := x_O arguments in
  let nPE := x_nPE arguments in
  let pDstC := x_pDstC arguments in
  option_map rt_team_barrier
    (for_pe fuel (wrap32 core_id) M nPE
       (fun r =>
          for_idx O
            (fun o mm =>
               let sum := for_idx N (mult_acc pSrcA pSrcB N r o mm) 0 in
               store 32 mm (padd pDstC (wrap32 (r * O + o))) sum))
       m).

(** ** The team of the transposed multiplication, step by step *)

(** Where a core is in its call of [plp_mat_mult_trans_i16vp_xpulpv2]: in
    the loops, about to test [m < M] and [o < O] with the counters [m] and
    [o]; inside [rt_team_barrier()]; or back from the call. *)
Inductive pc := Running (m o : Z) | AtBarrier | Returned.

(** One step of a core in the loops: the store of one element
    [pDstC[m*O + o] = sum] and [o++] (the [n] loop that computes [sum] reads
    the two sources and stores nothing); the end of the [o] loop and
    [m += nPE]; or, once [m < M] fails, the call of [rt_team_barrier()]. *)
Definition mult_step (x : plp_mat_mult_instance_i16) (c : pc) (mm : mem)
  : pc * mem :=
  match c with
  | Running m o =>
      if m <? x_M x then
        if o <? x_O x then
          (Running m (wrap32 (o + 1)),
           store 32 mm (padd (x_pDstC x) (wrap32 (m * x_O x + o)))
             (for_idx (x_N x)
                (mult_acc (x_pSrcA x) (x_pSrcB x) (x_N x) m o mm) 0))
        else (Running (wrap32 (m + x_nPE x)) 0, mm)
      else (AtBarrier, rt_team_barrier mm)
  | _ => (c, mm)
  end.

(** [n] steps of one core. *)
Fixpoint mult_steps (n : nat) (x : plp_mat_mult_instance_i16) (c : pc)
  (mm : mem) : pc * mem :=
  match n with
  | O => (c, mm)
  | S n' => let (c', mm') := mult_step x c mm in mult_steps n' x c' mm'
  end.

(** The cores of a team, each somewhere in its call, and the memory they
    share. *)
Record team_state := mk_team { pcs : Z -> pc; tmem : mem }.

Definition set_pc (f : Z -> pc) (p : Z) (c : pc) : Z -> pc :=
  fun q => if q =? p then c else f q.

(** A core that has called the barrier. *)
Definition arrived (c : pc) : bool :=
  match c with
  | Running _ _ => false
  | _ => true
  end.

(** What the scheduler can let happen next: core [p] makes a step in its
    loops, or core [p] comes back from the barrier. *)
Inductive action := Step (p : Z) | Release (p : Z).

(** Modelled from the spec: [rt_team_barrier()] belongs to the runtime and is
    not among the sources; it is a rendezvous of the team, so a core comes
    back from it only once all [nPE] cores have called it. *)
Definition team_do (x : plp_mat_mult_instance_i16) (a : action)
  (s : team_state) : option team_state :=
  match a with
  | Step p =>
      if (0 <=? p) && (p <? x_nPE x) then
        match pcs s p with
        | Running m o =>
            let (c', mm') := mult_step x (Running m o) (tmem s) in
            Some (mk_team (set_pc (pcs s) p c') mm')
        | _ => None
        end
      else None
  | Release p =>
      if (0 <=? p) && (p <? x_nPE x) then
        match pcs s p with
        | AtBarrier =>
            if forallb (fun q => arrived (pcs s (Z.of_nat q)))
                       (seq 0 (Z.to_nat (x_nPE x)))
            then Some (mk_team (set_pc (pcs s) p Returned) (tmem s))
            else None
        | _ => None
        end
      else None
  end.

(** Every core enters the kernel with [m = core_id] and [o = 0]. *)
Definition team_init (m0 : mem) : team_state :=
  mk_team (fun core_id => Running (wrap32 core_id) 0) m0.

(** A schedule: the actions of the team in the order they happen. [None]
    when the schedule asks for an action that is not possible. *)
Fixpoint team_run (x : plp_mat_mult_instance_i16) (l : list action)
  (s : team_state) : option team_state :=
  match l with
  | [] => Some s
  | a :: l' => match team_do x a s with
               | Some s' => team_run x l' s'
               | None => None
               end
  end.

(** ** plp_sqrt_f32s_xpulpv2.c *)

(** [float] is IEEE-754 binary32: 24 bits of precision, [emax = 128]; every
    operation rounds to nearest, ties to even. *)
Definition f32_mul : spec_float -> spec_float -> spec_float := SFmul 24 128.
Definition f32_div : spec_float -> spec_float -> spec_float := SFdiv 24 128.
Definition f32_sub : spec_float -> spec_float -> spec_float := SFsub 24 128.

Definition f32_zero : spec_float := S754_zero false.
Definition f32_one : spec_float := S754_finite false 8388608 (-23).
Definition f32_two : spec_float := S754_finite false 8388608 (-22).
Definition f32_1_5 : spec_float := S754_finite false 12582912 (-23).

Definition numIters : Z := 15.

(** One pass of the loop body:
    [intermediate = intermediate * (1.5f - (intermediate * intermediate * half))]. *)
Definition newton_step (half intermediate : spec_float) : spec_float :=
  f32_mul intermediate
          (f32_sub f32_1_5 (f32_mul (f32_mul intermediate intermediate) half)).

(** The kernel maps the value read through [pSrc] to the value stored
    through [pRes]. *)
Definition plp_sqrt_f32s_xpulpv2 (src : spec_float) : spec_float :=
  let intermediate := f32_div f32_one (f32_mul f32_two src) in
  let half := f32_div src f32_two in
  if SFltb f32_zero half then
    f32_mul (for_n numIters (newton_step half) intermediate) src
  else f32_zero.

(** ** The family of strided elementwise kernels *)

(** Every kernel of the family, in each build configuration: the argument
    of a constructor says whether [PLP_MATH_LOOPUNROLL] is defined. *)
Inductive kernel :=
| add_i32s_xpulpv2 (LOOPUNROLL : bool)
| sub_i16s_rv32im (LOOPUNROLL : bool)
| sub_i16s_xpulpv2 (LOOPUNROLL : bool)
| add_i16p_xpulpv2
| add_i8p_xpulpv2
| copy_i16s_xpulpv2 (LOOPUNROLL : bool)
| copy_i16p_xpulpv2
| copy_i8p_xpulpv2
| copy_i8s_rv32im (LOOPUNROLL : bool)
| copy_i16s_rv32im (LOOPUNROLL : bool)
| copy_i32s_rv32im (LOOPUNROLL : bool).

Inductive operator := OpAdd | OpSub | OpCopy.

Definition operator_of (k : kernel) : operator :=
  match k with
  | add_i32s_xpulpv2 _ | add_i16p_xpulpv2 | add_i8p_xpulpv2 => OpAdd
  | sub_i16s_rv32im _ | sub_i16s_xpulpv2 _ => OpSub
  | _ => OpCopy
  end.

(** Element width in bits. *)
Definition width_of (k : kernel) : Z :=
  match k with
  | add_i32s_xpulpv2 _ | copy_i32s_rv32im _ => 32
  | add_i8p_xpulpv2 | copy_i8p_xpulpv2 | copy_i8s_rv32im _ => 8
  | _ => 16
  end.

Definition is_parallel (k : kernel) : bool :=
  match k with
  | add_i16p_xpulpv2 | add_i8p_xpulpv2 | copy_i16p_xpulpv2
  | copy_i8p_xpulpv2 => true
  | _ => false
  end.

(** The kernels that use packed lane vectors with [__ADD2], [__SUB2] or
    [__ADD4]. *)
Definition is_simd (k : kernel) : bool :=
  match k with
  | sub_i16s_xpulpv2 _ | add_i16p_xpulpv2 | add_i8p_xpulpv2 => true
  | _ => false
  end.

(** The copy instance of a call: a copy kernel reads its single source
    where an add kernel reads its first one. *)
Definition copy_instance (a : plp_mat_add_stride_instance)
  : plp_mat_copy_stride_instance :=
  mk_copy_instance (a_pSrcA a) (a_M a) (a_N a) (a_strideA a) (a_strideY a)
                   (a_nPE a) (a_pDst a).

(** One call of a kernel. The scalar kernels ignore [fuel], [core_id] and
    [nPE]. *)
Definition run (k : kernel) (fuel : nat) (core_id : Z)
  (a : plp_mat_add_stride_instance) (m : mem) : option mem :=
  match k with
  | add_i32s_xpulpv2 u =>
      Some (plp_mat_add_stride_i32s_xpulpv2 u (a_pSrcA a) (a_pSrcB a)
              (a_M a) (a_N a) (a_strideA a) (a_strideB a) (a_strideY a)
              (a_pDst a) m)
  | sub_i16s_rv32im u =>
      Some (plp_mat_sub_stride_i16s_rv32im u (a_pSrcA a) (a_pSrcB a)
              (a_M a) (a_N a) (a_strideA a) (a_strideB a) (a_strideY a)
              (a_pDst a) m)
  | sub_i16s_xpulpv2 u =>
      Some (plp_mat_sub_stride_i16s_xpulpv2 u (a_pSrcA a) (a_pSrcB a)
              (a_M a) (a_N a) (a_strideA a) (a_strideB a) (a_strideY a)
              (a_pDst a) m)
  | add_i16p_xpulpv2 => plp_mat_add_stride_i16p_xpulpv2 fuel core_id a m
  | add_i8p_xpulpv2 => plp_mat_add_stride_i8p_xpulpv2 fuel core_id a m
  | copy_i16s_xpulpv2 u =>
      Some (plp_mat_copy_stride_i16s_xpulpv2 u (a_pSrcA a) (a_M a) (a_N a)
              (a_strideA a) (a_strideY a) (a_pDst a) m)
  | copy_i16p_xpulpv2 =>
      plp_mat_copy_stride_i16p_xpulpv2 fuel core_id (copy_instance a) m
  | copy_i8p_xpulpv2 =>
      plp_mat_copy_stride_i8p_xpulpv2 fuel core_id (copy_instance a) m
  | copy_i8s_rv32im u =>
      Some (plp_mat_copy_stride_i8s_rv32im u (a_pSrcA a) (a_M a) (a_N a)
              (a_strideA a) (a_strideY a) (a_pDst a) m)
  | copy_i16s_rv32im u =>
      Some (plp_mat_copy_stride_i16s_rv32im u (a_pSrcA a) (a_M a) (a_N a)
              (a_strideA a) (a_strideY a) (a_pDst a) m)
  | copy_i32s_rv32im u =>
      Some (plp_mat_copy_stride_i32s_rv32im u (a_pSrcA a) (a_M a) (a_N a)
              (a_strideA a) (a_strideY a) (a_pDst a) m)
  end.

(** The calls of the cores [0 .. n-1], one after the other: a team of [n]
    processing elements simulated sequentially. *)
Fixpoint run_cores (f : Z -> mem -> option mem) (n : nat) (m : mem)
  : option mem :=
  match n with
  | O => Some m
  | S p => match run_cores f p m with
           | Some m1 => f (Z.of_nat p) m1
           | None => None
           end
  end.

(** A whole operation: one call of a scalar kernel, or the calls of all
    [nPE] cores of a parallel one. *)
Definition run_all (k : kernel) (fuel : nat)
  (a : plp_mat_add_stride_instance) (m : mem) : option mem :=
  if is_parallel k then
    run_cores (fun p => run k fuel p a) (Z.to_nat (a_nPE a)) m
  else run k fuel 0 a m.

(** The rows a [for (m = core_id; m < M; m += nPE)] loop visits, in order:
    the loop itself, with a body that records its counter. *)
Definition pe_rows (fuel : nat) (core_id M nPE : Z) : option (list Z) :=
  for_pe fuel (wrap32 core_id) M nPE (fun r l => l ++ [r]) [].

(** ** The contract *)

(** The C operator of a kernel on promoted operands; copy keeps its
    operand. *)
Definition apply_op (o : operator) (x y : Z) : Z :=
  match o with
  | OpAdd => x + y
  | OpSub => x - y
  | OpCopy => x
  end.

(** [pSrcA[r*strideA + c] OP pSrcB[r*strideB + c]] as an element of width
    [w], read in memory [m]. *)
Definition expected (w : Z) (o : operator) (a : plp_mat_add_stride_instance)
  (m : mem) (r c : Z) : Z :=
  sext w (apply_op o
            (load w m (padd (a_pSrcA a) (r * a_strideA a + c)))
            (load w m (padd (a_pSrcB a) (r * a_strideB a + c)))).


(** The number of cores that take part in an operation. *)
Definition team (k : kernel) (a : plp_mat_add_stride_instance) : Z :=
  if is_parallel k then a_nPE a else 1.

(** A strided view of [M] rows stays within 32-bit index arithmetic, also
    for the row counter of a team of [nPE] cores. *)
Definition fits32 (M nPE stride : Z) : Prop :=
  (M + nPE + 1) * (stride + 1) <= 2 ^ 32.

(** Add and subtract read a second source; copy does not. *)
Definition binary (k : kernel) : Prop :=
  match operator_of k with
  | OpCopy => False
  | _ => True
  end.

(** A call within the contract: strides at least [N], sources apart from
    the destination, everything within 32 bits. Nothing is asked of the
    second source of a copy. *)
Record call_ok (k : kernel) (a : plp_mat_add_stride_instance) : Prop := {
  ok_M : 0 <= a_M a;
  ok_N : 0 <= a_N a;
  ok_team : 1 <= team k a;
  ok_strideA : a_N a <= a_strideA a;
  ok_strideB : binary k -> a_N a <= a_strideB a;
  ok_strideY : a_N a <= a_strideY a;
  ok_fitsA : fits32 (a_M a) (team k a) (a_strideA a);
  ok_fitsB : binary k -> fits32 (a_M a) (team k a) (a_strideB a);
  ok_fitsY : fits32 (a_M a) (team k a) (a_strideY a);
  ok_srcA : pblk (a_pSrcA a) <> pblk (a_pDst a);
  ok_srcB : binary k -> pblk (a_pSrcB a) <> pblk (a_pDst a) }.

(** ** The vocabulary of the properties *)

(** [x OP y] as an element of width [w]: add and subtract wrap, copy keeps
    its operand. *)
Definition elem_op (w : Z) (o : operator) (x y : Z) : Z :=
  match o with
  | OpAdd => sext w (x + y)
  | OpSub => sext w (x - y)
  | OpCopy => x
  end.

(** What the call of one core leaves: the elements of the rows in [R] hold
    the contract's values, the stores of the call all go to such elements,
    and every other cell of the memory is as before. *)
Definition writes_rows (k : kernel) (a : plp_mat_add_stride_instance)
  (m0 : mem) (R : Z -> Prop) (m' : mem) : Prop :=
  (forall r c, R r -> 0 <= c < a_N a ->
     load (width_of k) m' (padd (a_pDst a) (r * a_strideY a + c))
     = elem_op (width_of k) (operator_of k)
         (load (width_of k) m0 (padd (a_pSrcA a) (r * a_strideA a + c)))
         (load (width_of k) m0 (padd (a_pSrcB a) (r * a_strideB a + c)))) /\
  (exists evs, trace m' = evs ++ trace m0 /\
     Forall (fun e => exists r c, R r /\ 0 <= c < a_N a /\
               e = EvStore (pblk (a_pDst a))
                           (pofs (a_pDst a) + r * a_strideY a + c)) evs) /\
  (forall b i,
     (b <> pblk (a_pDst a) \/
      ~ exists r c, R r /\ 0 <= c < a_N a /\
                    i = pofs (a_pDst a) + r * a_strideY a + c) ->
     cells m' b i = cells m0 b i).

(** The dot product of row [r] of [pSrcA] with row [o] of [pSrcB], as an
    integer: the sum over [n < N] of [pSrcA[r*N + n] * pSrcB[o*N + n]]. *)
Definition dot (x : plp_mat_mult_instance_i16) (m : mem) (r o : Z) : Z :=
  for_idx (x_N x)
    (fun n acc => acc + load 16 m (padd (x_pSrcA x) (r * x_N x + n))
                        * load 16 m (padd (x_pSrcB x) (o * x_N x + n)))
    0.

(** A call within the contract of the kernel: every index stays within 32
    bits and the sources lie apart from the destination. *)
Record mult_ok (x : plp_mat_mult_instance_i16) : Prop := {
  mo_M : 0 <= x_M x;
  mo_N : 0 <= x_N x;
  mo_O : 0 <= x_O x;
  mo_nPE : 1 <= x_nPE x;
  mo_rows : x_M x + x_nPE x <= 2 ^ 32;
  mo_A : x_M x * x_N x <= 2 ^ 32;
  mo_B : x_O x * x_N x <= 2 ^ 32;
  mo_C : x_M x * x_O x <= 2 ^ 32;
  mo_srcA : pblk (x_pSrcA x) <> pblk (x_pDstC x);
  mo_srcB : pblk (x_pSrcB x) <> pblk (x_pDstC x) }.

(** The rows of core [p]. *)
Definition rows_of_core (x : plp_mat_mult_instance_i16) (p r : Z) : Prop :=
  0 <= r < x_M x /\ r mod x_nPE x = p.

(** An event that is a store. *)
Definition is_store (e : event) : Prop :=
  match e with
  | EvStore _ _ => True
  | EvBarrier => False
  end.

(** A concrete call: a 3x5 view in buffers with strides 7, 6 and 8. *)
Definition demo_mem : mem :=
  mkmem (fun b i => match b with
                    | 1%positive => 100 * (i / 7) + i mod 7
                    | 2%positive => 1000 * (i / 6) + 10 * (i mod 6)
                    | _ => 77
                    end) [].

Definition demo_call : plp_mat_add_stride_instance :=
  mk_add_instance (mkptr 1%positive 0) (mkptr 2%positive 0) 3 5 7 6 8 2
                  (mkptr 3%positive 0).



(** A 3x4 by 2x4 transposed product on two cores. *)
Definition demo_mult : plp_mat_mult_instance_i16 :=
  mk_mult_instance (mkptr 1%positive 0) (mkptr 2%positive 0) 3 4 2 2
                   (mkptr 3%positive 0).

(** A schedule of the demo product: core 0 writes its rows 0 and 2 and calls
    the barrier, core 1 writes row 1 and calls the barrier, then core 0 comes
    back. *)
Definition demo_schedule : list action :=
  [Step 0; Step 0; Step 1; Step 0; Step 0; Step 1; Step 0; Step 0; Step 1;
   Step 0; Step 1; Release 0].

(** Degenerate products: one row for two cores, no column ([O = 0]), and an
    empty inner dimension ([N = 0]). *)
Definition short_mult : plp_mat_mult_instance_i16 :=
  mk_mult_instance (mkptr 1%positive 0) (mkptr 2%positive 0) 1 4 2 2
                   (mkptr 3%positive 0).

Definition flat_mult : plp_mat_mult_instance_i16 :=
  mk_mult_instance (mkptr 1%positive 0) (mkptr 2%positive 0) 3 4 0 2
                   (mkptr 3%positive 0).

Definition thin_mult : plp_mat_mult_instance_i16 :=
  mk_mult_instance (mkptr 1%positive 0) (mkptr 2%positive 0) 3 0 2 2
                   (mkptr 3%positive 0).

(** A 1x1 matrix in buffers of two elements: source [10; 20], destination
    [0; 0]. *)
Definition one_by_one : mem :=
  mkmem (fun b i => match b with
                    | 1%positive => if i =? 0 then 10 else 20
                    | _ => 0
                    end) [].

(** Some binary32 numbers, as mantissa and exponent: -4, 1e6, 1000, 217,
    1/16 and -1/4. *)
Definition f32_minus_four : spec_float := S754_finite true 8388608 (-21).
Definition f32_million : spec_float := S754_finite false 16000000 (-4).
Definition f32_thousand : spec_float := S754_finite false 16384000 (-14).
Definition f32_217 : spec_float := S754_finite false 14221312 (-16).
Definition f32_sixteenth : spec_float := S754_finite false 8388608 (-27).
Definition f32_minus_quarter : spec_float := S754_finite true 8388608 (-25).

(** The same operation with its two sources exchanged. *)
Definition swap_sources (a : plp_mat_add_stride_instance)
  : plp_mat_add_stride_instance :=
  mk_add_instance (a_pSrcB a) (a_pSrcA a) (a_M a) (a_N a) (a_strideB a)
                  (a_strideA a) (a_strideY a) (a_nPE a) (a_pDst a).

(** A view without rows. *)
Definition empty_call : plp_mat_add_stride_instance :=
  mk_add_instance (mkptr 1%positive 0) (mkptr 2%positive 0) 0 5 7 6 8 2
                  (mkptr 3%positive 0).

(** A second operation on the result of a first: its first source is the
    destination of [a], its second source is that of [a], and it writes to
    [pZ] with stride [strideZ]. *)
Definition chain (a : plp_mat_add_stride_instance) (pZ : ptr) (strideZ : Z)
  : plp_mat_add_stride_instance :=
  mk_add_instance (a_pDst a) (a_pSrcB a) (a_M a) (a_N a) (a_strideY a)
                  (a_strideB a) strideZ (a_nPE a) pZ.

(** The calls of all [nPE] cores of the transposed matrix multiplication,
    one after the other. *)
Definition mult_team (fuel : nat) (x : plp_mat_mult_instance_i16) (m : mem)
  : option mem :=
  run_cores (fun p => plp_mat_mult_trans_i16vp_xpulpv2 fuel p x)
            (Z.to_nat (x_nPE x)) m.

(** The product with the operands exchanged, written to [pDstC']: an [O x M]
    result. *)
Definition exchanged (x : plp_mat_mult_instance_i16) (pDstC' : ptr)
  : plp_mat_mult_instance_i16 :=
  mk_mult_instance (x_pSrcB x) (x_pSrcA x) (x_O x) (x_N x) (x_M x) (x_nPE x)
                   pDstC'.

(** A 3x2 matrix times the 2x2 identity. *)
Definition identity_mem : mem :=
  mkmem (fun b i => match b with
                    | 1%positive => 10 * i - 25
                    | 2%positive => if (i =? 0) || (i =? 3) then 1 else 0
                    | _ => 77
                    end) [].

Definition identity_mult : plp_mat_mult_instance_i16 :=
  mk_mult_instance (mkptr 1%positive 0) (mkptr 2%positive 0) 3 2 2 2
                   (mkptr 3%positive 0).


(** The same call for a team of [n] cores. *)
Definition with_team (a : plp_mat_add_stride_instance) (n : Z)
  : plp_mat_add_stride_instance :=
  mk_add_instance (a_pSrcA a) (a_pSrcB a) (a_M a) (a_N a) (a_strideA a)
                  (a_strideB a) (a_strideY a) n (a_pDst a).

(** The same product for a team of [n] cores. *)
Definition mult_with_team (x : plp_mat_mult_instance_i16) (n : Z)
  : plp_mat_mult_instance_i16 :=
  mk_mult_instance (x_pSrcA x) (x_pSrcB x) (x_M x) (x_N x) (x_O x) n
                   (x_pDstC x).

(** * Correctness of the kernels *)

(** ** Effects of a piece of code *)

(** A target says which destination offsets a piece of code writes, and
    the value each of them receives. *)
Definition target := Z -> Z -> Prop.

Definition t_none : target := fun _ _ => False.
Definition t_or (T1 T2 : target) : target := fun i v => T1 i v \/ T2 i v.
Definition t_ex {A : Type} (P : A -> Prop) (T : A -> target) : target :=
  fun i v => exists a, P a /\ T a i v.
Definition t_eq (T1 T2 : target) : Prop := forall i v, T1 i v <-> T2 i v.

(** [eff bD T m m']: from [m] to [m'] exactly the cells of block [bD] in the
    domain of [T] were stored to, each now holds a value allowed by [T], and
    the new events are stores to such cells. *)
Definition eff (bD : block) (T : target) (m m' : mem) : Prop :=
  (forall b i,
      (b = bD /\ T i (cells m' b i)) \/
      (~ (b = bD /\ exists v, T i v) /\ cells m' b i = cells m b i))
  /\ exists evs, trace m' = evs ++ trace m /\
                 Forall (fun e => exists i v, e = EvStore bD i /\ T i v) evs.

(** [agree bD m0 m]: outside block [bD], [m] is still [m0]. *)
Definition agree (bD : block) (m0 m : mem) : Prop :=
  forall b i, b <> bD -> cells m b i = cells m0 b i.

(** Columns [c .. c+k-1] of row [r] of the destination view, with the values
    [rv r c'] they must receive. *)
Definition Tseg (rv : Z -> Z -> Z) (D sY r c k : Z) : target :=
  fun i v => exists c', c <= c' < c + k /\ i = D + r * sY + c' /\ v = rv r c'.

(** The rows selected by [R], each of width [N]. *)
Definition Tmat (rv : Z -> Z -> Z) (D sY N : Z) (R : Z -> Prop) : target :=
  t_ex R (fun r => Tseg rv D sY r 0 N).

Lemma eff_refl bD m : eff bD t_none m m.
Proof.
  split.
  - intros b i. right. split; [|reflexivity]. intros [_ [v []]].
  - exists []. split; [reflexivity|constructor].
Qed.

Lemma eff_equiv bD T T' m m' : t_eq T T' -> eff bD T m m' -> eff bD T' m m'.
Proof.
  intros E [Hc [evs [Ht Hf]]]. split.
  - intros b i. destruct (Hc b i) as [[-> H]|[Hn He]].
    + left. split; [reflexivity|]. now apply E.
    + right. split; [|exact He]. intros [-> [v Hv]]. apply Hn.
      split; [reflexivity|]. exists v. now apply E.
  - exists evs. split; [exact Ht|]. eapply Forall_impl; [|exact Hf].
    intros e [i [v [-> Hv]]]. exists i, v. split; [reflexivity|now apply E].
Qed.

Lemma eff_seq bD T1 T2 m m1 m2 :
  eff bD T1 m m1 -> eff bD T2 m1 m2 -> eff bD (t_or T1 T2) m m2.
Proof.
  intros [Hc1 [e1 [Ht1 Hf1]]] [Hc2 [e2 [Ht2 Hf2]]]. split.
  - intros b i. destruct (Hc2 b i) as [[-> H]|[Hn He]].
    + left. split; [reflexivity|now right].
    + destruct (Hc1 b i) as [[-> H]|[Hn1 He1]].
      * left. split; [reflexivity|]. left. now rewrite He.
      * right. split; [|congruence].
        intros [-> [v [Hv|Hv]]]; [apply Hn1|apply Hn]; eauto.
  - exists (e2 ++ e1). split.
    + now rewrite Ht2, Ht1, app_assoc.
    + apply Forall_app. split; (eapply Forall_impl; [|eassumption]);
        intros e [i [v [-> Hv]]]; exists i, v; (split; [reflexivity|]);
        [now right|now left].
Qed.

Lemma eff_agree bD T m0 m m' : eff bD T m m' -> agree bD m0 m -> agree bD m0 m'.
Proof.
  intros [Hc _] Ha b i Hb. destruct (Hc b i) as [[-> _]|[_ He]].
  - now destruct Hb.
  - rewrite He. now apply Ha.
Qed.

Lemma eff_store w m p x :
  eff (pblk p) (fun i v => i = pofs p /\ v = sext w x) m (store w m p x).
Proof.
  split.
  - intros b i. simpl. destruct (Pos.eqb_spec b (pblk p)) as [->|Hb]; simpl.
    + destruct (Z.eqb_spec i (pofs p)) as [->|Hi].
      * left. auto.
      * right. split; [|reflexivity]. intros [_ [v [Hv _]]]. now apply Hi.
    + right. split; [|reflexivity]. intros [Hv _]. now apply Hb.
  - exists [EvStore (pblk p) (pofs p)]. split; [reflexivity|].
    constructor; [|constructor]. exists (pofs p), (sext w x). auto.
Qed.

Lemma Tseg_empty rv D sY r c : t_eq t_none (Tseg rv D sY r c 0).
Proof.
  intros i v. split; [intros []|]. intros [c' [H _]]. lia.
Qed.

Lemma Tseg_snoc rv D sY r c k :
  0 <= k ->
  t_eq (t_or (Tseg rv D sY r c k)
             (fun i v => i = D + r * sY + (c + k) /\ v = rv r (c + k)))
       (Tseg rv D sY r c (k + 1)).
Proof.
  intros Hk i v. split.
  - intros [[c' [H1 [H2 H3]]]|[H1 H2]].
    + exists c'. split; [lia|auto].
    + exists (c + k). split; [lia|auto].
  - intros [c' [H1 [H2 H3]]]. destruct (Z.eq_dec c' (c + k)) as [->|Hn].
    + right. auto.
    + left. exists c'. split; [lia|auto].
Qed.

Lemma Tseg_app rv D sY r c k1 k2 :
  0 <= k1 -> 0 <= k2 ->
  t_eq (t_or (Tseg rv D sY r c k1) (Tseg rv D sY r (c + k1) k2))
       (Tseg rv D sY r c (k1 + k2)).
Proof.
  intros H1 H2 i v. split.
  - intros [[c' [Ha Hb]]|[c' [Ha Hb]]]; exists c'; (split; [lia|exact Hb]).
  - intros [c' [Ha Hb]]. destruct (Z_lt_ge_dec c' (c + k1)).
    + left. exists c'. split; [lia|exact Hb].
    + right. exists c'. split; [lia|exact Hb].
Qed.

(** Storing the next element of a segment. *)
Lemma eff_seg_store bD rv D sY r c k w m m1 p x :
  0 <= k ->
  eff bD (Tseg rv D sY r c k) m m1 ->
  pblk p = bD ->
  pofs p = D + r * sY + (c + k) ->
  sext w x = rv r (c + k) ->
  eff bD (Tseg rv D sY r c (k + 1)) m (store w m1 p x).
Proof.
  intros Hk H <- Hp Hx. eapply eff_equiv; [apply Tseg_snoc; exact Hk|].
  eapply eff_seq; [exact H|]. rewrite <- Hp, <- Hx. apply eff_store.
Qed.

(** What the final memory looks like once a set of rows is written. *)
Lemma mat_values bD rv D sY N R m m' r c :
  eff bD (Tmat rv D sY N R) m m' -> N <= sY -> R r -> 0 <= c < N ->
  cells m' bD (D + r * sY + c) = rv r c.
Proof.
  intros [Hc _] HN Hr Hcn.
  destruct (Hc bD (D + r * sY + c)) as [[_ [r' [_ [c' [H1 [H2 H3]]]]]]|[Hn _]].
  - assert (r = r') by nia. subst r'. assert (c = c') by lia. now subst c'.
  - exfalso. apply Hn. split; [reflexivity|]. exists (rv r c), r.
    split; [exact Hr|]. exists c. split; [lia|auto].
Qed.

Lemma mat_frame bD rv D sY N R m m' b i :
  eff bD (Tmat rv D sY N R) m m' ->
  (b <> bD \/ ~ exists r c, R r /\ 0 <= c < N /\ i = D + r * sY + c) ->
  cells m' b i = cells m b i.
Proof.
  intros [Hc _] H. destruct (Hc b i) as [[-> [r [Hr [c [H1 [H2 _]]]]]]|[_ He]].
  - destruct H as [H|H]; [now destruct H|]. exfalso. apply H.
    exists r, c. split; [exact Hr|]. split; [lia|exact H2].
  - exact He.
Qed.

Lemma mat_trace bD rv D sY N R m m' :
  eff bD (Tmat rv D sY N R) m m' ->
  exists evs, trace m' = evs ++ trace m /\
    Forall (fun e => exists r c, R r /\ 0 <= c < N /\
                                 e = EvStore bD (D + r * sY + c)) evs.
Proof.
  intros [_ [evs [Ht Hf]]]. exists evs. split; [exact Ht|].
  eapply Forall_impl; [|exact Hf].
  intros e [i [v [-> [r [Hr [c [H1 [H2 _]]]]]]]]. exists r, c.
  split; [exact Hr|]. split; [lia|now rewrite H2].
Qed.

(** ** Bit tricks of the unrolled loops *)

Lemma shiftr_1 n : Z.shiftr n 1 = n / 2.
Proof. now rewrite Z.shiftr_div_pow2 by lia. Qed.

Lemma shiftr_2 n : Z.shiftr n 2 = n / 4.
Proof. now rewrite Z.shiftr_div_pow2 by lia. Qed.

Lemma shiftr_3 n : Z.shiftr n 3 = n / 8.
Proof. now rewrite Z.shiftr_div_pow2 by lia. Qed.

Lemma land_1 n : Z.land n 1 = n mod 2.
Proof. change 1 with (Z.ones 1). now rewrite Z.land_ones by lia. Qed.

Lemma land_3 n : Z.land n 3 = n mod 4.
Proof. change 3 with (Z.ones 2). now rewrite Z.land_ones by lia. Qed.

Lemma land_pow2 n k : 0 <= k -> Z.land n (2 ^ k) = 2 ^ k * ((n / 2 ^ k) mod 2).
Proof.
  intros Hk. rewrite <- (Z.testbit_spec' n k Hk).
  rewrite Z.mul_comm, <- Z.shiftl_mul_pow2 by exact Hk.
  apply Z.bits_inj'. intros j Hj.
  rewrite Z.land_spec, Z.pow2_bits_eqb, Z.shiftl_spec by assumption.
  destruct (Z.eqb_spec k j) as [->|Hne].
  - rewrite Z.sub_diag, Bool.andb_true_r. now destruct (Z.testbit n j).
  - rewrite Bool.andb_false_r. destruct (Z.testbit n k); simpl.
    + destruct (Z_lt_ge_dec j k).
      * now rewrite Z.testbit_neg_r by lia.
      * change 1 with (2 ^ 0). rewrite Z.pow2_bits_eqb by lia.
        symmetry. apply Z.eqb_neq. lia.
    + now rewrite Z.testbit_0_l.
Qed.

Lemma land_2 n : Z.land n 2 = 2 * ((n / 2) mod 2).
Proof. exact (land_pow2 n 1 ltac:(lia)). Qed.

Lemma land_4 n : Z.land n 4 = 4 * ((n / 4) mod 2).
Proof. exact (land_pow2 n 2 ltac:(lia)). Qed.

Lemma nonzero_true x : nonzero x = true -> x <> 0.
Proof. unfold nonzero. now destruct (Z.eqb_spec x 0). Qed.

Lemma nonzero_false x : nonzero x = false -> x = 0.
Proof. unfold nonzero. now destruct (Z.eqb_spec x 0). Qed.

Lemma wrap32_small x : 0 <= x < 2 ^ 32 -> wrap32 x = x.
Proof. intros H. unfold wrap32. now apply Z.mod_small. Qed.

(** ** Reasoning rules *)

Section Triples.

Context {St : Type}.
Variable memof : St -> mem.
Variable bD : block.
Variable m0 : mem.

(** [triple P c T Q]: from a state in [P] whose sources are untouched, [c]
    reaches a state in [Q] and its stores are those of [T]. *)
Definition triple (P : St -> Prop) (c : St -> St) (T : target)
  (Q : St -> Prop) : Prop :=
  forall s, P s -> agree bD m0 (memof s) ->
            Q (c s) /\ eff bD T (memof s) (memof (c s)).

Lemma triple_seq P Q R c1 c2 T1 T2 :
  triple P c1 T1 Q -> triple Q c2 T2 R -> triple P (c1 >> c2) (t_or T1 T2) R.
Proof.
  intros H1 H2 s Hp Ha. destruct (H1 s Hp Ha) as [Hq He1].
  destruct (H2 (c1 s) Hq (eff_agree _ _ _ _ _ He1 Ha)) as [Hr He2].
  split; [exact Hr|]. eapply eff_seq; eassumption.
Qed.

Lemma triple_equiv P Q c T T' : t_eq T T' -> triple P c T Q -> triple P c T' Q.
Proof.
  intros E H s Hp Ha. destruct (H s Hp Ha) as [Hq He].
  split; [exact Hq|]. eapply eff_equiv; eassumption.
Qed.

Lemma triple_pure P Q c :
  (forall s, P s -> Q (c s) /\ memof (c s) = memof s) -> triple P c t_none Q.
Proof.
  intros H s Hp _. destruct (H s Hp) as [Hq ->]. split; [exact Hq|].
  apply eff_refl.
Qed.

Lemma triple_iter (I : Z -> St -> Prop) (T : Z -> target) c (n : nat) :
  (forall k, 0 <= k < Z.of_nat n -> triple (I k) c (T k) (I (k + 1))) ->
  triple (I 0) (Nat.iter n c) (t_ex (fun k => 0 <= k < Z.of_nat n) T)
         (I (Z.of_nat n)).
Proof.
  induction n as [|n IH]; intros Hb.
  - intros s Hp _. simpl. split; [exact Hp|].
    eapply eff_equiv; [|apply eff_refl].
    intros i v. split; [intros []|]. intros [k [Hk _]]. lia.
  - assert (Hb' : forall k, 0 <= k < Z.of_nat n ->
                            triple (I k) c (T k) (I (k + 1))).
    { intros k Hk. apply Hb. lia. }
    specialize (IH Hb'). intros s Hp Ha.
    change (Nat.iter (S n) c s) with (c (Nat.iter n c s)).
    destruct (IH s Hp Ha) as [Hq He].
    destruct (Hb (Z.of_nat n) ltac:(lia) _ Hq (eff_agree _ _ _ _ _ He Ha))
      as [Hq' He'].
    split.
    + replace (Z.of_nat (S n)) with (Z.of_nat n + 1) by lia. exact Hq'.
    + eapply eff_equiv; [|eapply eff_seq; [exact He|exact He']].
      intros i v. split.
      * intros [[k [Hk Hv]]|Hv]; [exists k|exists (Z.of_nat n)];
          (split; [lia|exact Hv]).
      * intros [k [Hk Hv]]. destruct (Z.eq_dec k (Z.of_nat n)) as [->|Hn].
        -- now right.
        -- left. exists k. split; [lia|exact Hv].
Qed.

Lemma triple_for_n (I : Z -> St -> Prop) (T : Z -> target) c n :
  0 <= n ->
  (forall k, 0 <= k < n -> triple (I k) c (T k) (I (k + 1))) ->
  triple (I 0) (for_n n c) (t_ex (fun k => 0 <= k < n) T) (I n).
Proof.
  intros Hn Hb. unfold for_n.
  pose proof (triple_iter I T c (Z.to_nat n)) as H.
  rewrite Z2Nat.id in H by exact Hn. apply H. exact Hb.
Qed.

Lemma triple_for_idx (I : Z -> St -> Prop) (T : Z -> target)
  (c : Z -> St -> St) n :
  0 <= n ->
  (forall k, 0 <= k < n -> triple (I k) (c k) (T k) (I (k + 1))) ->
  triple (I 0) (for_idx n c) (t_ex (fun k => 0 <= k < n) T) (I n).
Proof.
  intros Hn Hb. unfold for_idx.
  assert (G : forall j : nat, Z.of_nat j <= n ->
    triple (I 0)
      (fold_left (fun acc i => c (Z.of_nat i) acc) (seq 0 j))
      (t_ex (fun k => 0 <= k < Z.of_nat j) T) (I (Z.of_nat j))).
  { induction j as [|j IH]; intros Hj.
    - intros s Hp _. simpl. split; [exact Hp|].
      eapply eff_equiv; [|apply eff_refl].
      intros i v. split; [intros []|]. intros [k [Hk _]]. lia.
    - intros s Hp Ha. rewrite seq_S, fold_left_app. simpl fold_left.
      destruct (IH ltac:(lia) s Hp Ha) as [Hq He].
      destruct (Hb (Z.of_nat j) ltac:(lia) _ Hq (eff_agree _ _ _ _ _ He Ha))
        as [Hq' He'].
      split.
      + replace (Z.of_nat (S j)) with (Z.of_nat j + 1) by lia. exact Hq'.
      + eapply eff_equiv; [|eapply eff_seq; [exact He|exact He']].
        intros i v. split.
        * intros [[k [Hk Hv]]|Hv]; [exists k|exists (Z.of_nat j)];
            (split; [lia|exact Hv]).
        * intros [k [Hk Hv]]. destruct (Z.eq_dec k (Z.of_nat j)) as [->|Hne].
          -- now right.
          -- left. exists k. split; [lia|exact Hv]. }
  pose proof (G (Z.to_nat n)) as H. rewrite Z2Nat.id in H by exact Hn.
  apply H. lia.
Qed.

(** *** Segments of a row *)

Section Segments.

(** [seg r c k]: what handling [k] elements from column [c] of row [r]
    writes. One row for most kernels, two for those that copy two rows at a
    time. *)
Variable seg : Z -> Z -> Z -> target.
Hypothesis seg_nil : forall r c, t_eq t_none (seg r c 0).
Hypothesis seg_app : forall r c k1 k2,
  0 <= k1 -> 0 <= k2 ->
  t_eq (t_or (seg r c k1) (seg r (c + k1) k2)) (seg r c (k1 + k2)).

(** [at_ r c s]: the pointers of [s] stand at column [c] of row [r]. *)
Variable at_ : Z -> Z -> St -> Prop.

(** [chunk k c]: [c] handles the next [k] elements of the current row. *)
Definition chunk (k : Z) (c : St -> St) : Prop :=
  forall r col, triple (at_ r col) c (seg r col k) (at_ r (col + k)).

Lemma chunk_seq k1 k2 c1 c2 :
  chunk k1 c1 -> chunk k2 c2 -> 0 <= k1 -> 0 <= k2 ->
  chunk (k1 + k2) (c1 >> c2).
Proof.
  intros Hc1 Hc2 H1 H2 r col.
  eapply triple_equiv; [apply seg_app; assumption|].
  rewrite Z.add_assoc. eapply triple_seq; [apply Hc1|apply Hc2].
Qed.

Lemma chunk_iter k c (n : nat) :
  chunk k c -> 0 <= k -> chunk (k * Z.of_nat n) (Nat.iter n c).
Proof.
  intros Hc Hk. induction n as [|n IH]; intros r col.
  - rewrite Z.mul_0_r, Z.add_0_r. eapply triple_equiv; [apply seg_nil|].
    apply triple_pure. intros s Hs. now split.
  - replace (k * Z.of_nat (S n)) with (k * Z.of_nat n + k) by lia.
    exact (chunk_seq _ _ _ _ IH Hc ltac:(lia) Hk r col).
Qed.

Lemma chunk_for_n k n c :
  chunk k c -> 0 <= k -> 0 <= n -> chunk (k * n) (for_n n c).
Proof.
  intros Hc Hk Hn. unfold for_n.
  rewrite <- (Z2Nat.id n Hn) at 1. now apply chunk_iter.
Qed.

Lemma chunk_skip : chunk 0 skip.
Proof.
  intros r col. eapply triple_equiv; [apply seg_nil|].
  apply triple_pure. intros s Hs. rewrite Z.add_0_r. now split.
Qed.

(** [line d N c]: [c] handles one whole row of width [N] and leaves the
    pointers [d] rows further down. *)
Definition line (d N : Z) (c : St -> St) : Prop :=
  forall r, triple (at_ r 0) c (seg r 0 N) (at_ (r + d) 0).

(** A row: some chunks, then a tail that finishes the row and moves on. *)
Lemma line_tail d N k j c t :
  chunk k c ->
  (forall r, triple (at_ r k) t (seg r k j) (at_ (r + d) 0)) ->
  0 <= k -> 0 <= j -> k + j = N ->
  line d N (c >> t).
Proof.
  intros Hc Ht Hk Hj <- r.
  eapply triple_equiv; [apply seg_app; assumption|].
  eapply triple_seq; [apply Hc|apply Ht].
Qed.

Lemma line_intro d N k c nl :
  chunk k c ->
  (forall r s, at_ r N s -> at_ (r + d) 0 (nl s) /\ memof (nl s) = memof s) ->
  0 <= k -> k = N ->
  line d N (c >> nl).
Proof.
  intros Hc Hnl Hk <-. apply (line_tail d k k 0 c nl Hc); try lia.
  intros r. eapply triple_equiv; [apply seg_nil|]. apply triple_pure, Hnl.
Qed.

(** A row whose last element is stored without moving the pointers. *)
Lemma line_here d N k c h nl :
  chunk k c ->
  (forall r, triple (at_ r k) h (seg r k 1) (at_ r k)) ->
  (forall r s, at_ r k s -> at_ (r + d) 0 (nl s) /\ memof (nl s) = memof s) ->
  0 <= k -> k + 1 = N ->
  line d N (c >> h >> nl).
Proof.
  intros Hc Hh Hnl Hk HN. change (c >> h >> nl) with (c >> (h >> nl)).
  apply (line_tail d N k 1 c (h >> nl) Hc); try lia.
  intros r. eapply triple_equiv;
    [|eapply triple_seq; [apply Hh|apply triple_pure, Hnl]].
  intros i v. unfold t_or, t_none. tauto.
Qed.

(** All rows, [d] at a time. *)
Lemma lines_for_n d N n c :
  0 <= n -> line d N c ->
  triple (at_ 0 0) (for_n n c)
         (t_ex (fun j => 0 <= j < n) (fun j => seg (d * j) 0 N))
         (at_ (d * n) 0).
Proof.
  intros Hn Hl.
  pose proof (triple_for_n (fun j => at_ (d * j) 0)
                (fun j => seg (d * j) 0 N) c n Hn) as H.
  simpl in H. rewrite Z.mul_0_r in H. apply H. intros j _.
  replace (d * (j + 1)) with (d * j + d) by lia. apply Hl.
Qed.

(** The rows of one processing element. *)
Lemma lines_for_pe N M nPE (c : Z -> St -> St) (fuel : nat) :
  0 < nPE -> M + nPE <= 2 ^ 32 ->
  (forall r, r < M -> triple (at_ r 0) (c r) (seg r 0 N) (at_ (r + nPE) 0)) ->
  forall r s,
    0 <= r -> M - r <= Z.of_nat fuel ->
    at_ r 0 s -> agree bD m0 (memof s) ->
    exists s', for_pe fuel r M nPE c s = Some s' /\
      eff bD (t_ex (fun x => r <= x < M /\ exists j, 0 <= j /\ x = r + j * nPE)
                   (fun x => seg x 0 N))
          (memof s) (memof s').
Proof.
  intros HP HW Hl. induction fuel as [|fuel IH]; intros r s Hr Hf Hat Ha.
  - exists s. simpl. destruct (Z.ltb_spec r M); [lia|]. split; [reflexivity|].
    eapply eff_equiv; [|apply eff_refl].
    intros i v. split; [intros []|]. intros [x [[Hx _] _]]. lia.
  - simpl. destruct (Z.ltb_spec r M) as [Hlt|Hge].
    + rewrite wrap32_small by lia.
      destruct (Hl r Hlt s Hat Ha) as [Hat' He].
      destruct (IH (r + nPE) (c r s) ltac:(lia) ltac:(lia) Hat'
                  (eff_agree _ _ _ _ _ He Ha)) as [s' [Hs' He']].
      exists s'. split; [exact Hs'|].
      eapply eff_equiv; [|eapply eff_seq; [exact He|exact He']].
      intros i v. split.
      * intros [Hv|[x [[Hx [j [Hj Hxj]]] Hv]]].
        -- exists r. split; [|exact Hv]. split; [lia|]. exists 0. lia.
        -- exists x. split; [|exact Hv]. split; [lia|]. exists (j + 1). lia.
      * intros [x [[Hx [j [Hj Hxj]]] Hv]].
        destruct (Z.eq_dec j 0) as [->|Hj0].
        -- left. replace r with x by lia. exact Hv.
        -- right. exists x. split; [|exact Hv]. split; [nia|].
           exists (j - 1). lia.
    + exists s. split; [reflexivity|].
      eapply eff_equiv; [|apply eff_refl].
      intros i v. split; [intros []|]. intros [x [[Hx _] _]]. lia.
Qed.

End Segments.

End Triples.

(** ** Two's complement and lanes *)

Lemma sext_congr w x y : x mod 2 ^ w = y mod 2 ^ w -> sext w x = sext w y.
Proof.
  intros H. unfold sext.
  now rewrite <- (Zplus_mod_idemp_l x), H, Zplus_mod_idemp_l.
Qed.

Lemma sext_mod_eq w x : (sext w x) mod 2 ^ w = x mod 2 ^ w.
Proof.
  unfold sext. rewrite Zminus_mod_idemp_l. f_equal. lia.
Qed.

Lemma sext_idem w x : sext w (sext w x) = sext w x.
Proof. apply sext_congr, sext_mod_eq. Qed.

Lemma sext_mod w x : sext w (x mod 2 ^ w) = sext w x.
Proof. apply sext_congr, Zmod_mod. Qed.

Lemma sext_add_mod w x y : sext w (x mod 2 ^ w + y mod 2 ^ w) = sext w (x + y).
Proof. apply sext_congr. now rewrite <- Zplus_mod. Qed.

Lemma sext_sub_mod w x y : sext w (x mod 2 ^ w - y mod 2 ^ w) = sext w (x - y).
Proof. apply sext_congr. now rewrite <- Zminus_mod. Qed.

Lemma sext_range w x : 0 < w -> - 2 ^ (w - 1) <= sext w x < 2 ^ (w - 1).
Proof.
  intros Hw. unfold sext.
  assert (H : 2 ^ w = 2 * 2 ^ (w - 1)).
  { rewrite <- Z.pow_succ_r by lia. f_equal. lia. }
  pose proof (Z.pow_pos_nonneg 2 (w - 1) ltac:(lia) ltac:(lia)).
  pose proof (Z.mod_pos_bound (x + 2 ^ (w - 1)) (2 ^ w) ltac:(lia)). lia.
Qed.

Lemma lane2_0_pack a b : lane 16 0 (pack2 a b) = a mod 2 ^ 16.
Proof.
  unfold lane, pack2. change (2 ^ (16 * 0)) with 1. change (2 ^ 16) with 65536.
  Z.div_mod_to_equations. lia.
Qed.

Lemma lane2_1_pack a b : lane 16 1 (pack2 a b) = b mod 2 ^ 16.
Proof.
  unfold lane, pack2. change (2 ^ (16 * 1)) with 65536.
  change (2 ^ 16) with 65536. Z.div_mod_to_equations. lia.
Qed.

Lemma lane_sext32 w k x :
  0 <= w * k -> 0 <= w -> w * k + w <= 32 -> lane w k (sext 32 x) = lane w k x.
Proof.
  intros H1 H2 H3. unfold lane.
  pose proof (Z.pow_pos_nonneg 2 (w * k) ltac:(lia) H1).
  pose proof (Z.pow_pos_nonneg 2 w ltac:(lia) H2).
  assert (E : sext 32 x
              = x + - ((x + 2 ^ 31) / 2 ^ 32) * 2 ^ (32 - (w * k + w))
                    * 2 ^ w * 2 ^ (w * k)).
  { rewrite <- !Z.mul_assoc, <- !Z.pow_add_r by lia.
    replace (32 - (w * k + w) + (w + w * k)) with 32 by lia.
    unfold sext. change (32 - 1) with 31.
    pose proof (Z.div_mod (x + 2 ^ 31) (2 ^ 32) ltac:(lia)). lia. }
  rewrite E, Z.div_add, Z.mod_add by lia. reflexivity.
Qed.

(** The packed operator [OPV] computes [op] in each of its two lanes. *)
Definition packed2_ok (OPV op : Z -> Z -> Z) : Prop :=
  forall a0 a1 b0 b1,
    sext 16 (lane 16 0 (OPV (pack2 a0 a1) (pack2 b0 b1))) = sext 16 (op a0 b0) /\
    sext 16 (lane 16 1 (OPV (pack2 a0 a1) (pack2 b0 b1))) = sext 16 (op a1 b1).

Lemma ADD2_ok : packed2_ok ADD2 Z.add.
Proof.
  intros a0 a1 b0 b1. unfold ADD2.
  rewrite !lane2_0_pack, !lane2_1_pack, !sext_mod, !sext_add_mod. auto.
Qed.

Lemma SUB2_ok : packed2_ok SUB2 Z.sub.
Proof.
  intros a0 a1 b0 b1. unfold SUB2.
  rewrite !lane2_0_pack, !lane2_1_pack, !sext_mod, !sext_sub_mod. auto.
Qed.

Lemma lane4_pack a b c d :
  lane 8 0 (pack4 a b c d) = a mod 2 ^ 8 /\
  lane 8 1 (pack4 a b c d) = b mod 2 ^ 8 /\
  lane 8 2 (pack4 a b c d) = c mod 2 ^ 8 /\
  lane 8 3 (pack4 a b c d) = d mod 2 ^ 8.
Proof.
  unfold lane, pack4.
  change (2 ^ (8 * 0)) with 1. change (2 ^ (8 * 1)) with 256.
  change (2 ^ (8 * 2)) with 65536. change (2 ^ (8 * 3)) with 16777216.
  change (2 ^ 8) with 256. change (2 ^ 16) with 65536.
  change (2 ^ 24) with 16777216.
  repeat split; Z.div_mod_to_equations; lia.
Qed.

Definition packed4_ok (OPV op : Z -> Z -> Z) : Prop :=
  forall a0 a1 a2 a3 b0 b1 b2 b3,
    sext 8 (lane 8 0 (OPV (pack4 a0 a1 a2 a3) (pack4 b0 b1 b2 b3)))
    = sext 8 (op a0 b0) /\
    sext 8 (lane 8 1 (OPV (pack4 a0 a1 a2 a3) (pack4 b0 b1 b2 b3)))
    = sext 8 (op a1 b1) /\
    sext 8 (lane 8 2 (OPV (pack4 a0 a1 a2 a3) (pack4 b0 b1 b2 b3)))
    = sext 8 (op a2 b2) /\
    sext 8 (lane 8 3 (OPV (pack4 a0 a1 a2 a3) (pack4 b0 b1 b2 b3)))
    = sext 8 (op a3 b3).

Lemma ADD4_ok : packed4_ok ADD4 Z.add.
Proof.
  intros a0 a1 a2 a3 b0 b1 b2 b3. unfold ADD4.
  pose proof (lane4_pack a0 a1 a2 a3) as [-> [-> [-> ->]]].
  pose proof (lane4_pack b0 b1 b2 b3) as [-> [-> [-> ->]]].
  match goal with |- context [pack4 ?a ?b ?c ?d] =>
    pose proof (lane4_pack a b c d) as [-> [-> [-> ->]]] end.
  rewrite !sext_mod, !sext_add_mod. auto.
Qed.

(** Copying a word through an [int32_t] pointer copies its lanes. *)
Lemma copy2_ok a0 a1 :
  sext 16 (lane 16 0 (sext 32 (pack2 a0 a1))) = sext 16 a0 /\
  sext 16 (lane 16 1 (sext 32 (pack2 a0 a1))) = sext 16 a1.
Proof.
  rewrite !lane_sext32 by lia.
  now rewrite lane2_0_pack, lane2_1_pack, !sext_mod.
Qed.

Lemma copy4_ok a0 a1 a2 a3 :
  sext 8 (lane 8 0 (sext 32 (pack4 a0 a1 a2 a3))) = sext 8 a0 /\
  sext 8 (lane 8 1 (sext 32 (pack4 a0 a1 a2 a3))) = sext 8 a1 /\
  sext 8 (lane 8 2 (sext 32 (pack4 a0 a1 a2 a3))) = sext 8 a2 /\
  sext 8 (lane 8 3 (sext 32 (pack4 a0 a1 a2 a3))) = sext 8 a3.
Proof.
  rewrite !lane_sext32 by lia.
  pose proof (lane4_pack a0 a1 a2 a3) as [-> [-> [-> ->]]].
  now rewrite !sext_mod.
Qed.

(** ** Steps of the kernels *)

Lemma eff_seg_nil bD rv D sY r c m : eff bD (Tseg rv D sY r c 0) m m.
Proof. eapply eff_equiv; [apply Tseg_empty|apply eff_refl]. Qed.

Lemma load_agree bD m0 m w p :
  agree bD m0 m -> pblk p <> bD -> load w m p = load w m0 p.
Proof. intros Ha Hb. unfold load. f_equal. now apply Ha. Qed.

Lemma padd_padd p a b : padd (padd p a) b = padd p (a + b).
Proof. unfold padd. simpl. f_equal. lia. Qed.

Lemma padd_eq p a b : a = b -> padd p a = padd p b.
Proof. now intros ->. Qed.

Lemma padd_0 p : padd p 0 = p.
Proof. destruct p. unfold padd. simpl. f_equal. lia. Qed.

Ltac ptr_eq :=
  repeat match goal with H : _ = padd _ _ |- _ => rewrite H; clear H end;
  rewrite ?padd_padd; first [reflexivity | apply padd_eq; lia].

Ltac seg_store k :=
  apply (eff_seg_store _ _ _ _ _ _ k); [lia | | reflexivity | simpl; lia | ].

Ltac seg_stores :=
  lazymatch goal with
  | |- eff _ (Tseg _ _ _ _ _ 8) _ _ => seg_store 7; [seg_stores|]
  | |- eff _ (Tseg _ _ _ _ _ 7) _ _ => seg_store 6; [seg_stores|]
  | |- eff _ (Tseg _ _ _ _ _ 6) _ _ => seg_store 5; [seg_stores|]
  | |- eff _ (Tseg _ _ _ _ _ 5) _ _ => seg_store 4; [seg_stores|]
  | |- eff _ (Tseg _ _ _ _ _ 4) _ _ => seg_store 3; [seg_stores|]
  | |- eff _ (Tseg _ _ _ _ _ 3) _ _ => seg_store 2; [seg_stores|]
  | |- eff _ (Tseg _ _ _ _ _ 2) _ _ => seg_store 1; [seg_stores|]
  | |- eff _ (Tseg _ _ _ _ _ 1) _ _ => seg_store 0; [apply eff_seg_nil|]
  end.

Section Steps3.

Variable w : Z.
Variable op : Z -> Z -> Z.
Variables A0 B0 D0 : ptr.
Variables sA sB sY : Z.
Variable m0 : mem.
Hypothesis HAD : pblk A0 <> pblk D0.
Hypothesis HBD : pblk B0 <> pblk D0.

Definition at3 (r c : Z) (s : st3) : Prop :=
  pSrcA s = padd A0 (r * sA + c) /\ pSrcB s = padd B0 (r * sB + c) /\
  pDst s = padd D0 (r * sY + c).

(** The value that the contract puts at row [r], column [c]. *)
Definition rv3 (r c : Z) : Z :=
  sext w (op (load w m0 (padd A0 (r * sA + c)))
             (load w m0 (padd B0 (r * sB + c)))).

Definition chunk3 : Z -> (st3 -> st3) -> Prop :=
  chunk mem3 (pblk D0) m0 (Tseg rv3 (pofs D0) sY) at3.

Definition line3 : Z -> Z -> (st3 -> st3) -> Prop :=
  line mem3 (pblk D0) m0 (Tseg rv3 (pofs D0) sY) at3.

Lemma rv3_eq m pa pb r c :
  agree (pblk D0) m0 m ->
  pa = padd A0 (r * sA + c) -> pb = padd B0 (r * sB + c) ->
  sext w (op (load w m pa) (load w m pb)) = rv3 r c.
Proof.
  intros Ha -> ->. unfold rv3.
  now rewrite !(load_agree _ _ _ _ _ Ha) by (simpl; auto).
Qed.

Lemma scalar3_chunk : chunk3 1 (scalar3 w op).
Proof.
  intros r c s [HA [HB HD]] Ha. split.
  - repeat split; simpl; ptr_eq.
  - simpl. rewrite HD. seg_stores.
    apply rv3_eq; [exact Ha| |]; ptr_eq.
Qed.

Lemma pair3_chunk : chunk3 2 (pair3 w op).
Proof.
  intros r c s [HA [HB HD]] Ha. split.
  - repeat split; simpl; ptr_eq.
  - simpl. rewrite HD. seg_stores; (apply rv3_eq; [exact Ha| |]; ptr_eq).
Qed.

Lemma next_line3_ok N d sa sb sy :
  sa = d * sA - N -> sb = d * sB - N -> sy = d * sY - N ->
  forall r s, at3 r N s ->
    at3 (r + d) 0 (next_line3 sa sb sy s) /\
    mem3 (next_line3 sa sb sy s) = mem3 s.
Proof.
  intros -> -> -> r s [HA [HB HD]]. split; [|reflexivity].
  repeat split; simpl; ptr_eq.
Qed.

Lemma at3_start c :
  0 <= c ->
  at3 c 0 (mkst3 (padd A0 (sA * c)) (padd B0 (sB * c)) (padd D0 (sY * c)) m0).
Proof. intros _. repeat split; simpl; apply padd_eq; lia. Qed.

End Steps3.

Section Packed3.

Variable op : Z -> Z -> Z.
Variable OPV : Z -> Z -> Z.
Variables A0 B0 D0 : ptr.
Variables sA sB sY : Z.
Variable m0 : mem.
Hypothesis HAD : pblk A0 <> pblk D0.
Hypothesis HBD : pblk B0 <> pblk D0.

Section Lanes2.

Hypothesis Hok : packed2_ok OPV op.

Ltac val2 Ha :=
  unfold load_v2s;
  first [ rewrite (proj1 (Hok _ _ _ _)) | rewrite (proj2 (Hok _ _ _ _)) ];
  apply rv3_eq with (D0 := D0);
  [assumption | assumption | exact Ha | ptr_eq | ptr_eq ].

Lemma v2s_one_chunk : chunk3 16 op A0 B0 D0 sA sB sY m0 2 (v2s_one OPV).
Proof.
  intros r c s [HA [HB HD]] Ha. split.
  - repeat split; simpl; ptr_eq.
  - simpl. unfold store_v2s. rewrite HD. seg_stores; val2 Ha.
Qed.

Lemma v2s_two_chunk : chunk3 16 op A0 B0 D0 sA sB sY m0 4 (v2s_two OPV).
Proof.
  intros r c s [HA [HB HD]] Ha. split.
  - repeat split; simpl; ptr_eq.
  - simpl. unfold store_v2s. rewrite HD. seg_stores; val2 Ha.
Qed.

End Lanes2.

Section Lanes4.

Hypothesis Hok : packed4_ok OPV op.

Ltac val4 Ha :=
  unfold load_v4s;
  first [ rewrite (proj1 (Hok _ _ _ _ _ _ _ _))
        | rewrite (proj1 (proj2 (Hok _ _ _ _ _ _ _ _)))
        | rewrite (proj1 (proj2 (proj2 (Hok _ _ _ _ _ _ _ _))))
        | rewrite (proj2 (proj2 (proj2 (Hok _ _ _ _ _ _ _ _)))) ];
  apply rv3_eq with (D0 := D0);
  [assumption | assumption | exact Ha | ptr_eq | ptr_eq ].

Lemma v4s_one_chunk : chunk3 8 op A0 B0 D0 sA sB sY m0 4 (v4s_one OPV).
Proof.
  intros r c s [HA [HB HD]] Ha. split.
  - repeat split; simpl; ptr_eq.
  - simpl. unfold store_v4s. rewrite HD. seg_stores; val4 Ha.
Qed.

Lemma v4s_two_chunk : chunk3 8 op A0 B0 D0 sA sB sY m0 8 (v4s_two OPV).
Proof.
  intros r c s [HA [HB HD]] Ha. split.
  - repeat split; simpl; ptr_eq.
  - simpl. unfold store_v4s. rewrite HD. seg_stores; val4 Ha.
Qed.

End Lanes4.

End Packed3.

Section Steps2.

Variable w : Z.
Variables S0 D0 : ptr.
Variables sS sD : Z.
Variable m0 : mem.
Hypothesis HSD : pblk S0 <> pblk D0.

Definition at2 (r c : Z) (s : st2) : Prop :=
  pSrc s = padd S0 (r * sS + c) /\ pDst_c s = padd D0 (r * sD + c).

(** The value a copy puts at row [r], column [c]. *)
Definition rv2 (r c : Z) : Z := sext w (load w m0 (padd S0 (r * sS + c))).

Definition chunk2 : Z -> (st2 -> st2) -> Prop :=
  chunk mem2 (pblk D0) m0 (Tseg rv2 (pofs D0) sD) at2.

Definition line2 : Z -> Z -> (st2 -> st2) -> Prop :=
  line mem2 (pblk D0) m0 (Tseg rv2 (pofs D0) sD) at2.

Lemma rv2_eq m pa r c :
  agree (pblk D0) m0 m -> pa = padd S0 (r * sS + c) ->
  sext w (load w m pa) = rv2 r c.
Proof.
  intros Ha ->. unfold rv2.
  now rewrite !(load_agree _ _ _ _ _ Ha) by (simpl; auto).
Qed.

Lemma copy_inc_chunk : chunk2 1 (copy_inc w).
Proof.
  intros r c s [HS HD] Ha. split.
  - repeat split; simpl; ptr_eq.
  - simpl. rewrite HD. seg_stores. apply rv2_eq; [exact Ha|ptr_eq].
Qed.

Lemma copy_here_ok r k :
  triple mem2 (pblk D0) m0 (at2 r k) (copy_here w)
         (Tseg rv2 (pofs D0) sD r k 1) (at2 r k).
Proof.
  intros s [HS HD] Ha. split.
  - now split.
  - simpl. rewrite HD. seg_stores. apply rv2_eq; [exact Ha|ptr_eq].
Qed.

Lemma next_line2_ok k d so sd :
  so = d * sS - k -> sd = d * sD - k ->
  forall r s, at2 r k s ->
    at2 (r + d) 0 (next_line2 so sd s) /\ mem2 (next_line2 so sd s) = mem2 s.
Proof.
  intros -> -> r s [HS HD]. split; [|reflexivity].
  repeat split; simpl; ptr_eq.
Qed.

Lemma at2_start c :
  0 <= c -> at2 c 0 (mkst2 (padd S0 (sS * c)) (padd D0 (sD * c)) m0).
Proof. intros _. repeat split; simpl; apply padd_eq; lia. Qed.

End Steps2.

Section Words2.

Variables S0 D0 : ptr.
Variables sS sD : Z.
Variable m0 : mem.
Hypothesis HSD : pblk S0 <> pblk D0.

Ltac val16 Ha :=
  unfold load_i32_of16, load_v2s;
  first [ rewrite (proj1 (copy2_ok _ _)) | rewrite (proj2 (copy2_ok _ _)) ];
  apply rv2_eq with (D0 := D0); [assumption | exact Ha | ptr_eq ].

Ltac val8 Ha :=
  unfold load_i32_of8, load_v4s;
  first [ rewrite (proj1 (copy4_ok _ _ _ _))
        | rewrite (proj1 (proj2 (copy4_ok _ _ _ _)))
        | rewrite (proj1 (proj2 (proj2 (copy4_ok _ _ _ _))))
        | rewrite (proj2 (proj2 (proj2 (copy4_ok _ _ _ _)))) ];
  apply rv2_eq with (D0 := D0); [assumption | exact Ha | ptr_eq ].

Lemma copy_w16_chunk : chunk2 16 S0 D0 sS sD m0 2 copy_w16.
Proof.
  intros r c s [HS HD] Ha. split.
  - repeat split; simpl; ptr_eq.
  - simpl. unfold store_i32_of16, store_v2s. rewrite HD.
    seg_stores; val16 Ha.
Qed.

Lemma copy_w8_chunk : chunk2 8 S0 D0 sS sD m0 4 copy_w8.
Proof.
  intros r c s [HS HD] Ha. split.
  - repeat split; simpl; ptr_eq.
  - simpl. unfold store_i32_of8, store_v4s. rewrite HD.
    seg_stores; val8 Ha.
Qed.

End Words2.

(** ** Two rows at a time *)

Definition T2seg (rv : Z -> Z -> Z) (D sY r c k : Z) : target :=
  t_or (Tseg rv D sY r c k) (Tseg rv D sY (r + 1) c k).

Lemma T2seg_nil rv D sY r c : t_eq t_none (T2seg rv D sY r c 0).
Proof.
  intros i v. split; [intros []|]. intros [[c' [H _]]|[c' [H _]]]; lia.
Qed.

Lemma T2seg_app rv D sY r c k1 k2 :
  0 <= k1 -> 0 <= k2 ->
  t_eq (t_or (T2seg rv D sY r c k1) (T2seg rv D sY r (c + k1) k2))
       (T2seg rv D sY r c (k1 + k2)).
Proof.
  intros H1 H2 i v. unfold T2seg, t_or.
  rewrite <- (Tseg_app rv D sY r c k1 k2 H1 H2 i v).
  rewrite <- (Tseg_app rv D sY (r + 1) c k1 k2 H1 H2 i v).
  unfold t_or. tauto.
Qed.

(** The first row of a pair is stored, then the second one, read in the
    memory the first stores left. *)
Ltac two_rows Ha Ha1 :=
  lazymatch goal with
  | |- eff ?b (T2seg ?rv ?D ?sY ?r ?c ?k) ?m (?f ?m1 ?p ?v) =>
      let E1 := fresh "E1" in
      assert (E1 : eff b (Tseg rv D sY r c k) m m1);
      [ | pose proof (eff_agree _ _ _ _ _ E1 Ha) as Ha1;
          let mm := fresh "mm" in
          let Emm := fresh "Emm" in
          remember m1 as mm eqn:Emm; clear Emm;
          apply (eff_seq _ _ _ _ _ _ E1) ]
  end.

Section Steps4.

Variable w : Z.
Variables S0 D0 : ptr.
Variables sS sD : Z.
Variable m0 : mem.
Hypothesis HSD : pblk S0 <> pblk D0.

Definition at4 (r c : Z) (s : st4) : Prop :=
  pSrc1 s = padd S0 (r * sS + c) /\ pSrc2 s = padd S0 ((r + 1) * sS + c) /\
  pDst1 s = padd D0 (r * sD + c) /\ pDst2 s = padd D0 ((r + 1) * sD + c).

(** Only the pointers of the first row of the pair. *)
Definition at4a (r c : Z) (s : st4) : Prop :=
  pSrc1 s = padd S0 (r * sS + c) /\ pDst1 s = padd D0 (r * sD + c).

Definition chunk4 : Z -> (st4 -> st4) -> Prop :=
  chunk mem4 (pblk D0) m0 (T2seg (rv2 w S0 sS m0) (pofs D0) sD) at4.

Definition chunk4a : Z -> (st4 -> st4) -> Prop :=
  chunk mem4 (pblk D0) m0 (Tseg (rv2 w S0 sS m0) (pofs D0) sD) at4a.

Lemma at4_at4a r c s : at4 r c s -> at4a r c s.
Proof. intros [H1 [_ [H3 _]]]. now split. Qed.

Lemma copy2_inc_chunk : chunk4 1 (copy2_inc w).
Proof.
  intros r c s [H1 [H2 [H3 H4]]] Ha. split.
  - repeat split; simpl; ptr_eq.
  - cbn [copy2_inc copy2_here mem4 pSrc1 pSrc2 pDst1 pDst2].
    rewrite H3, H4.
    two_rows Ha Ha1;
      (seg_stores; apply rv2_eq with (D0 := D0); [assumption|assumption|ptr_eq]).
Qed.

Lemma copy2_here_ok r k :
  triple mem4 (pblk D0) m0 (at4 r k) (copy2_here w)
         (T2seg (rv2 w S0 sS m0) (pofs D0) sD r k 1) (at4 r k).
Proof.
  intros s [H1 [H2 [H3 H4]]] Ha. split.
  - now repeat split.
  - cbn [copy2_inc copy2_here mem4 pSrc1 pSrc2 pDst1 pDst2].
    rewrite H3, H4.
    two_rows Ha Ha1;
      (seg_stores; apply rv2_eq with (D0 := D0); [assumption|assumption|ptr_eq]).
Qed.

Lemma copy1_inc_chunk : chunk4a 1 (copy1_inc w).
Proof.
  intros r c s [H1 H3] Ha. split.
  - repeat split; simpl; ptr_eq.
  - simpl. rewrite H3. seg_stores. apply rv2_eq with (D0 := D0); [assumption|assumption|ptr_eq].
Qed.

Lemma next_lines4_ok k so sd :
  so = 2 * sS - k -> sd = 2 * sD - k ->
  forall r s, at4 r k s ->
    at4 (r + 2) 0 (next_lines4 so sd s) /\
    mem4 (next_lines4 so sd s) = mem4 s.
Proof.
  intros -> -> r s [H1 [H2 [H3 H4]]]. split; [|reflexivity].
  unfold next_lines4. repeat split; cbn [pSrc1 pSrc2 pDst1 pDst2]; ptr_eq.
Qed.

Lemma at4_start : at4 0 0 (mkst4 S0 (padd S0 sS) D0 (padd D0 sD) m0).
Proof.
  unfold at4, padd. cbn [pSrc1 pSrc2 pDst1 pDst2 pblk pofs].
  destruct S0 as [bs os], D0 as [bd od]. cbn [pblk pofs].
  repeat split; f_equal; lia.
Qed.

End Steps4.

Section Words4.

Variables S0 D0 : ptr.
Variables sS sD : Z.
Variable m0 : mem.
Hypothesis HSD : pblk S0 <> pblk D0.

Ltac val16 Ha :=
  unfold load_i32_of16, load_v2s;
  lazymatch goal with
  | |- sext 16 (lane 16 0 _) = _ => rewrite (proj1 (copy2_ok _ _))
  | |- sext 16 (lane 16 1 _) = _ => rewrite (proj2 (copy2_ok _ _))
  end;
  apply rv2_eq with (D0 := D0); [assumption | exact Ha | ptr_eq ].

Ltac val8 Ha :=
  unfold load_i32_of8, load_v4s;
  lazymatch goal with
  | |- sext 8 (lane 8 0 _) = _ => rewrite (proj1 (copy4_ok _ _ _ _))
  | |- sext 8 (lane 8 1 _) = _ => rewrite (proj1 (proj2 (copy4_ok _ _ _ _)))
  | |- sext 8 (lane 8 2 _) = _ =>
      rewrite (proj1 (proj2 (proj2 (copy4_ok _ _ _ _))))
  | |- sext 8 (lane 8 3 _) = _ =>
      rewrite (proj2 (proj2 (proj2 (copy4_ok _ _ _ _))))
  end;
  apply rv2_eq with (D0 := D0); [assumption | exact Ha | ptr_eq ].

Lemma copy2_w16_chunk : chunk4 16 S0 D0 sS sD m0 2 copy2_w16.
Proof.
  intros r c s [H1 [H2 [H3 H4]]] Ha. split.
  - repeat split; simpl; ptr_eq.
  - unfold copy2_w16. cbn [mem4 pSrc1 pSrc2 pDst1 pDst2]. rewrite H3, H4.
    two_rows Ha Ha1; unfold store_i32_of16, store_v2s; seg_stores;
      first [val16 Ha1 | val16 Ha].
Qed.

Lemma copy2_w8_chunk : chunk4 8 S0 D0 sS sD m0 4 copy2_w8.
Proof.
  intros r c s [H1 [H2 [H3 H4]]] Ha. split.
  - repeat split; simpl; ptr_eq.
  - unfold copy2_w8. cbn [mem4 pSrc1 pSrc2 pDst1 pDst2]. rewrite H3, H4.
    two_rows Ha Ha1; unfold store_i32_of8, store_v4s; seg_stores;
      first [val8 Ha1 | val8 Ha].
Qed.

Lemma copy1_w8_chunk : chunk4a 8 S0 D0 sS sD m0 4 copy1_w8.
Proof.
  intros r c s [H1 H3] Ha. split.
  - repeat split; simpl; ptr_eq.
  - simpl. unfold store_i32_of8, store_v4s. rewrite H3. seg_stores; val8 Ha.
Qed.

End Words4.

(** ** Whole kernels *)

Lemma Tmat_equiv rv D sY N (R R' : Z -> Prop) :
  (forall r, R r <-> R' r) -> t_eq (Tmat rv D sY N R) (Tmat rv D sY N R').
Proof.
  intros E i v. split; intros [r [Hr H]]; exists r; (split; [now apply E|exact H]).
Qed.

Lemma rows1_eq rv D sY N n :
  t_eq (t_ex (fun j => 0 <= j < n) (fun j => Tseg rv D sY (1 * j) 0 N))
       (Tmat rv D sY N (fun r => 0 <= r < n)).
Proof.
  intros i v. split; intros [j [Hj H]]; exists j; (split; [exact Hj|]);
    [rewrite Z.mul_1_l in H|rewrite Z.mul_1_l]; exact H.
Qed.

Lemma agree_refl bD m : agree bD m m.
Proof. now intros b i _. Qed.

Section Runs.

Context {St : Type}.
Variable memof : St -> mem.
Variable bD : block.
Variable m0 : mem.
Variable rv : Z -> Z -> Z.
Variables D sY : Z.
Variable at_ : Z -> Z -> St -> Prop.

(** A scalar kernel: [M] rows, one after the other. *)
Lemma run_rows N M c s0 :
  0 <= M ->
  line memof bD m0 (Tseg rv D sY) at_ 1 N c ->
  at_ 0 0 s0 -> memof s0 = m0 ->
  eff bD (Tmat rv D sY N (fun r => 0 <= r < M)) m0 (memof (for_n M c s0)).
Proof.
  intros HM Hl Hat Hm.
  pose proof (lines_for_n memof bD m0 (Tseg rv D sY) at_ 1 N M c HM Hl s0 Hat)
    as H.
  rewrite Hm in H. destruct (H (agree_refl _ _)) as [_ He].
  eapply eff_equiv; [apply rows1_eq|exact He].
Qed.

(** One core of a parallel kernel: the rows [p, p + nPE, ...] below [M]. *)
Lemma run_pe N M nPE c fuel p s0 :
  0 <= M -> 0 < nPE -> M + nPE <= 2 ^ 32 -> 0 <= p < nPE ->
  M <= Z.of_nat fuel ->
  line memof bD m0 (Tseg rv D sY) at_ nPE N c ->
  at_ p 0 s0 -> memof s0 = m0 ->
  exists s', for_pe fuel (wrap32 p) M nPE (fun _ => c) s0 = Some s' /\
    eff bD (Tmat rv D sY N (fun r => 0 <= r < M /\ r mod nPE = p))
        m0 (memof s').
Proof.
  intros HM HP HW Hp Hf Hl Hat Hm. rewrite wrap32_small by lia.
  assert (Hp0 : 0 <= p) by lia.
  assert (Hfp : M - p <= Z.of_nat fuel) by lia.
  destruct (lines_for_pe memof bD m0 (Tseg rv D sY) at_ N M nPE (fun _ => c)
              fuel HP HW (fun r _ => Hl r) p s0 Hp0 Hfp Hat) as [s' [Hs He]].
  { rewrite Hm. apply agree_refl. }
  exists s'. split; [exact Hs|]. rewrite Hm in He.
  eapply eff_equiv; [|exact He]. apply Tmat_equiv. intros r. split.
  - intros [Hr [j [Hj ->]]]. split; [lia|].
    rewrite Z.mod_add by lia. apply Z.mod_small. lia.
  - intros [Hr Hmod]. pose proof (Z.div_mod r nPE ltac:(lia)).
    pose proof (Z.mod_pos_bound r nPE HP).
    pose proof (Z.mod_le r nPE ltac:(lia) HP). split; [lia|].
    exists (r / nPE). split; [apply Z.div_pos; lia|lia].
Qed.

End Runs.

Ltac bits :=
  rewrite ?shiftr_1, ?shiftr_2, ?shiftr_3, ?land_1, ?land_2, ?land_3, ?land_4
    in *.

Ltac arith :=
  repeat match goal with
         | H : nonzero _ = true |- _ => apply nonzero_true in H
         | H : nonzero _ = false |- _ => apply nonzero_false in H
         | H : (_ =? _) = true |- _ => apply Z.eqb_eq in H
         | H : (_ =? _) = false |- _ => apply Z.eqb_neq in H
         end;
  bits; Z.div_mod_to_equations; lia.

Ltac small :=
  first [assumption | rewrite ?wrap32_small by arith; arith].

Ltac seg_laws := first [apply Tseg_empty | apply Tseg_app
                       | apply T2seg_nil | apply T2seg_app].


(** [rows base nl]: a row is chunks (each settled by [base]) and a move to
    the next row (settled by [nl]); what is left is arithmetic on [N]. *)
Ltac rows base nl :=
  lazymatch goal with
  | |- chunk _ _ _ _ _ _ (_ >> _) => eapply chunk_seq; rows base nl
  | |- chunk _ _ _ _ _ _ (for_n _ _) => eapply chunk_for_n; rows base nl
  | |- chunk _ _ _ _ _ _ skip => eapply chunk_skip; rows base nl
  | |- chunk _ _ _ _ _ _ _ => base
  | |- line _ _ _ _ _ _ _ (_ >> copy_here _ >> _) =>
      eapply line_here; rows base nl
  | |- line _ _ _ _ _ _ _ (_ >> copy2_here _ >> _) =>
      eapply line_here; rows base nl
  | |- line _ _ _ _ _ _ _ (_ >> _) => eapply line_intro; rows base nl
  | |- _ => first [seg_laws | nl | arith]
  end.

Ltac base3 :=
  first [ apply scalar3_chunk; assumption
        | apply pair3_chunk; assumption
        | apply v2s_one_chunk; first [assumption | apply ADD2_ok | apply SUB2_ok]
        | apply v2s_two_chunk; first [assumption | apply ADD2_ok | apply SUB2_ok]
        | apply v4s_one_chunk; first [assumption | apply ADD4_ok]
        | apply v4s_two_chunk; first [assumption | apply ADD4_ok] ].

Ltac nl3 := apply next_line3_ok; small.

Ltac base2 :=
  first [ apply copy_inc_chunk; assumption
        | apply copy_w16_chunk; assumption
        | apply copy_w8_chunk; assumption ].

Ltac nl2 :=
  first [ apply next_line2_ok; small
        | let r := fresh "r" in intro r; apply copy_here_ok; assumption ].

(** What [fits32] gives. *)
Lemma fits_facts M N nPE s :
  0 <= M -> 1 <= nPE -> 0 <= N <= s -> fits32 M nPE s ->
  (s < 2 ^ 32 /\ 2 * s + 1 < 2 ^ 32) /\
  (0 <= s * nPE - N /\ s * nPE + 1 < 2 ^ 32) /\
  M + nPE <= 2 ^ 32 /\
  (forall p, 0 <= p < nPE -> 0 <= s * p < 2 ^ 32) /\
  (forall r n, 0 <= r < M -> 0 <= n < N -> 0 <= r * s + n < 2 ^ 32).
Proof.
  unfold fits32. intros HM HP HN HF. repeat split; try nia; intros; nia.
Qed.

Lemma at3_start0 A0 B0 D0 sA sB sY m0 :
  at3 A0 B0 D0 sA sB sY 0 0 (mkst3 A0 B0 D0 m0).
Proof. repeat split; simpl; now rewrite padd_0. Qed.

Lemma at2_start0 S0 D0 sS sD m0 : at2 S0 D0 sS sD 0 0 (mkst2 S0 D0 m0).
Proof. repeat split; simpl; now rewrite padd_0. Qed.

(** *** The scalar add and subtract kernels *)

Section ScalarBinary.

Variables A0 B0 D0 : ptr.
Variables M N sA sB sY : Z.
Variable m0 : mem.
Hypothesis HAD : pblk A0 <> pblk D0.
Hypothesis HBD : pblk B0 <> pblk D0.
Hypothesis HM : 0 <= M.
Hypothesis HN : 0 <= N.
Hypothesis HsA : N <= sA < 2 ^ 32.
Hypothesis HsB : N <= sB < 2 ^ 32.
Hypothesis HsY : N <= sY < 2 ^ 32.

(** What an add/sub kernel of width [w] owes. *)
Definition owes3 (w : Z) (op : Z -> Z -> Z) (m' : mem) : Prop :=
  eff (pblk D0) (Tmat (rv3 w op A0 B0 sA sB m0) (pofs D0) sY N
                      (fun r => 0 <= r < M)) m0 m'.

Ltac rows3 :=
  apply (run_rows mem3 _ _ _ _ _ (at3 A0 B0 D0 sA sB sY));
  [ assumption | rows base3 nl3 | apply at3_start0 | reflexivity ].

Lemma add_i32s_ok U :
  owes3 32 Z.add (plp_mat_add_stride_i32s_xpulpv2 U A0 B0 M N sA sB sY D0 m0).
Proof.
  unfold owes3, plp_mat_add_stride_i32s_xpulpv2. cbv zeta.
  destruct U; [destruct (nonzero _) eqn:E|]; rows3.
Qed.

Lemma sub_i16s_rv32im_ok U :
  owes3 16 Z.sub (plp_mat_sub_stride_i16s_rv32im U A0 B0 M N sA sB sY D0 m0).
Proof.
  unfold owes3, plp_mat_sub_stride_i16s_rv32im. cbv zeta.
  destruct U; [destruct (nonzero _) eqn:E|]; rows3.
Qed.

Lemma sub_i16s_xpulpv2_ok U :
  owes3 16 Z.sub (plp_mat_sub_stride_i16s_xpulpv2 U A0 B0 M N sA sB sY D0 m0).
Proof.
  unfold owes3, plp_mat_sub_stride_i16s_xpulpv2. cbv zeta.
  destruct U; destruct (nonzero (Z.land N 1)) eqn:E1;
    try destruct (nonzero (Z.land N 2)) eqn:E2; rows3.
Qed.

End ScalarBinary.

(** *** The scalar copy kernels *)

Section ScalarCopy.

Variables S0 D0 : ptr.
Variables M N sS sD : Z.
Variable m0 : mem.
Hypothesis HSD : pblk S0 <> pblk D0.
Hypothesis HM : 0 <= M.
Hypothesis HN : 0 <= N.
Hypothesis HsS : N <= sS < 2 ^ 32.
Hypothesis HsD : N <= sD < 2 ^ 32.

(** What a copy kernel of width [w] owes when it writes the rows in [R]. *)
Definition owes2 (w : Z) (R : Z -> Prop) (m' : mem) : Prop :=
  eff (pblk D0) (Tmat (rv2 w S0 sS m0) (pofs D0) sD N R) m0 m'.

Ltac rows2 :=
  apply (run_rows mem2 _ _ _ _ _ (at2 S0 D0 sS sD));
  [ assumption | rows base2 nl2 | apply at2_start0 | reflexivity ].

Lemma copy_i16s_xpulpv2_ok U :
  owes2 16 (fun r => 0 <= r < M)
        (plp_mat_copy_stride_i16s_xpulpv2 U S0 M N sS sD D0 m0).
Proof.
  unfold owes2, plp_mat_copy_stride_i16s_xpulpv2. cbv zeta.
  destruct U; destruct (nonzero (Z.land N 1)) eqn:E1;
    try destruct (nonzero (Z.land N 2)) eqn:E2; rows2.
Qed.

Lemma copy_i8s_rv32im_plain_ok :
  owes2 8 (fun r => 0 <= r < M)
        (plp_mat_copy_stride_i8s_rv32im false S0 M N sS sD D0 m0).
Proof.
  unfold owes2, plp_mat_copy_stride_i8s_rv32im. cbv zeta.
  destruct (nonzero (Z.land N 3)) eqn:E1; rows2.
Qed.

Lemma copy_i16s_rv32im_plain_ok :
  owes2 16 (fun r => 0 <= r < M)
        (plp_mat_copy_stride_i16s_rv32im false S0 M N sS sD D0 m0).
Proof.
  unfold owes2, plp_mat_copy_stride_i16s_rv32im. cbv zeta.
  destruct (nonzero (Z.land N 1)) eqn:E1; rows2.
Qed.

Lemma copy_i32s_rv32im_unrolled_ok :
  owes2 32 (fun r => 0 <= r < M)
        (plp_mat_copy_stride_i32s_rv32im true S0 M N sS sD D0 m0).
Proof.
  unfold owes2, plp_mat_copy_stride_i32s_rv32im. cbv zeta.
  destruct (nonzero (Z.land N 1)) eqn:E1; rows2.
Qed.

End ScalarCopy.

(** *** Rows written through an index *)

Lemma Tseg_cols rv D sY r N :
  t_eq (t_ex (fun n => 0 <= n < N) (fun n => Tseg rv D sY r n 1))
       (Tseg rv D sY r 0 N).
Proof.
  intros i v. split.
  - intros [n [Hn [c [Hc H]]]]. exists c. split; [lia|exact H].
  - intros [c [Hc H]]. exists c. split; [lia|]. exists c. split; [lia|exact H].
Qed.

(** [for (n = 0; n < N; n++) pDst[ix n] = val n;] writes row [r] when
    [ix n] is the index of column [n] of that row. *)
Lemma idx_row bD m0 rv (D0 : ptr) sY r N w (ix : Z -> Z)
  (val : mem -> Z -> Z) :
  pblk D0 = bD -> 0 <= N ->
  (forall n, 0 <= n < N -> ix n = r * sY + n) ->
  (forall mm n, 0 <= n < N -> agree bD m0 mm -> sext w (val mm n) = rv r n) ->
  triple (fun m : mem => m) bD m0 (fun _ => True)
    (for_idx N (fun n mm => store w mm (padd D0 (ix n)) (val mm n)))
    (Tseg rv (pofs D0) sY r 0 N) (fun _ => True).
Proof.
  intros HD HN Hix Hval.
  eapply triple_equiv; [apply Tseg_cols|].
  apply (triple_for_idx (fun m : mem => m) bD m0 (fun _ _ => True)
           (fun n => Tseg rv (pofs D0) sY r n 1)); [exact HN|].
  intros n Hn mm _ Ha. split; [exact I|].
  apply (eff_seg_store _ _ _ _ _ _ 0); [lia|apply eff_seg_nil|exact HD| |].
  - simpl. rewrite Hix by exact Hn. lia.
  - rewrite Z.add_0_r. now apply Hval.
Qed.

(** The same for all rows [0 .. M-1]. *)
Lemma idx_rows bD m0 rv (D0 : ptr) sY M N w (ix : Z -> Z -> Z)
  (val : mem -> Z -> Z -> Z) :
  pblk D0 = bD -> 0 <= M -> 0 <= N ->
  (forall r n, 0 <= r < M -> 0 <= n < N -> ix r n = r * sY + n) ->
  (forall mm r n, 0 <= r < M -> 0 <= n < N -> agree bD m0 mm ->
                  sext w (val mm r n) = rv r n) ->
  eff bD (Tmat rv (pofs D0) sY N (fun r => 0 <= r < M)) m0
    (for_idx M
       (fun r => for_idx N
          (fun n mm => store w mm (padd D0 (ix r n)) (val mm r n))) m0).
Proof.
  intros HD HM HN Hix Hval.
  refine (proj2 (triple_for_idx (fun m : mem => m) bD m0 (fun _ _ => True)
           (fun r => Tseg rv (pofs D0) sY r 0 N) _ M HM _ m0 I
           (agree_refl _ _))).
  intros r Hr.
  apply (idx_row bD m0 rv D0 sY r N w (ix r) (fun mm n => val mm r n));
    auto.
Qed.

Section IndexedCopy.

Variables S0 D0 : ptr.
Variables M N sS sD : Z.
Variable m0 : mem.
Hypothesis HSD : pblk S0 <> pblk D0.
Hypothesis HM : 0 <= M.
Hypothesis HN : 0 <= N.
Hypothesis HiS : forall r n, 0 <= r < M -> 0 <= n < N ->
                             0 <= r * sS + n < 2 ^ 32.
Hypothesis HiD : forall r n, 0 <= r < M -> 0 <= n < N ->
                             0 <= r * sD + n < 2 ^ 32.

Lemma copy_i32s_rv32im_plain_ok :
  owes2 S0 D0 N sS sD m0 32 (fun r => 0 <= r < M)
        (plp_mat_copy_stride_i32s_rv32im false S0 M N sS sD D0 m0).
Proof.
  unfold owes2, plp_mat_copy_stride_i32s_rv32im.
  apply (idx_rows (pblk D0) m0 (rv2 32 S0 sS m0) D0 sD M N 32
           (fun r n => wrap32 (r * sD + n))
           (fun mm r n => load 32 mm (padd S0 (wrap32 (r * sS + n)))));
    try assumption; try reflexivity.
  - intros r n Hr Hn. apply wrap32_small. now apply HiD.
  - intros mm r n Hr Hn Ha. rewrite wrap32_small by now apply HiS.
    now apply rv2_eq with (D0 := D0).
Qed.

End IndexedCopy.

(** *** The copies that handle two rows at a time *)

Lemma pairs_eq rv D sY N n :
  t_eq (t_ex (fun j => 0 <= j < n) (fun j => T2seg rv D sY (2 * j) 0 N))
       (Tmat rv D sY N (fun r => 0 <= r < 2 * n)).
Proof.
  intros i v. split.
  - intros [j [Hj [H|H]]]; [exists (2 * j)|exists (2 * j + 1)];
      (split; [lia|exact H]).
  - intros [r [Hr H]]. exists (r / 2). split; [Z.div_mod_to_equations; lia|].
    destruct (Z.eq_dec (r mod 2) 0) as [E|E]; [left|right].
    + replace (2 * (r / 2)) with r by (Z.div_mod_to_equations; lia). exact H.
    + replace (2 * (r / 2) + 1) with r by (Z.div_mod_to_equations; lia).
      exact H.
Qed.

Ltac base4 :=
  first [ apply copy2_inc_chunk; assumption
        | apply copy2_w16_chunk; assumption
        | apply copy2_w8_chunk; assumption
        | apply copy1_inc_chunk; assumption
        | apply copy1_w8_chunk; assumption ].

Ltac nl4 :=
  first [ apply next_lines4_ok; small
        | let r := fresh "r" in intro r; apply copy2_here_ok; assumption ].

Lemma Tmat_snoc rv D sY N n :
  0 <= n ->
  t_eq (t_or (Tmat rv D sY N (fun r => 0 <= r < n)) (Tseg rv D sY n 0 N))
       (Tmat rv D sY N (fun r => 0 <= r < n + 1)).
Proof.
  intros Hn i v. split.
  - intros [[r [Hr H]]|H]; [exists r|exists n]; (split; [lia|exact H]).
  - intros [r [Hr H]]. destruct (Z.eq_dec r n) as [->|Hne].
    + now right.
    + left. exists r. split; [lia|exact H].
Qed.

Lemma Tmat_snoc2 rv D sY N n :
  0 <= n ->
  t_eq (t_or (Tmat rv D sY N (fun r => 0 <= r < n)) (T2seg rv D sY n 0 N))
       (Tmat rv D sY N (fun r => 0 <= r < n + 2)).
Proof.
  intros Hn i v. split.
  - intros [[r [Hr H]]|[H|H]]; [exists r|exists n|exists (n + 1)];
      (split; [lia|exact H]).
  - intros [r [Hr H]]. destruct (Z.eq_dec r n) as [->|Hne].
    + right. now left.
    + destruct (Z.eq_dec r (n + 1)) as [->|Hne'].
      * right. now right.
      * left. exists r. split; [lia|exact H].
Qed.

Section TwoRows.

Variables S0 D0 : ptr.
Variables M N sS sD : Z.
Variable m0 : mem.
Hypothesis HSD : pblk S0 <> pblk D0.
Hypothesis HM : 0 <= M.
Hypothesis HN : 0 <= N.
Hypothesis HsS : N <= sS /\ 2 * sS + 1 < 2 ^ 32.
Hypothesis HsD : N <= sD /\ 2 * sD + 1 < 2 ^ 32.

(** The loop over the pairs of rows. *)
Lemma pairs_ok w c :
  line mem4 (pblk D0) m0 (T2seg (rv2 w S0 sS m0) (pofs D0) sD)
       (at4 S0 D0 sS sD) 2 N c ->
  let s1 := for_n (Z.shiftr M 1) c
                  (mkst4 S0 (padd S0 sS) D0 (padd D0 sD) m0) in
  at4 S0 D0 sS sD (2 * Z.shiftr M 1) 0 s1 /\
  agree (pblk D0) m0 (mem4 s1) /\
  eff (pblk D0) (Tmat (rv2 w S0 sS m0) (pofs D0) sD N
                      (fun r => 0 <= r < 2 * Z.shiftr M 1)) m0 (mem4 s1).
Proof.
  intros Hl s1.
  assert (Hn : 0 <= Z.shiftr M 1) by arith.
  destruct (lines_for_n mem4 (pblk D0) m0
              (T2seg (rv2 w S0 sS m0) (pofs D0) sD) (at4 S0 D0 sS sD)
              2 N _ c Hn Hl _ (at4_start S0 D0 sS sD m0 HSD) (agree_refl _ _))
    as [Hat He].
  split; [exact Hat|]. split.
  - exact (eff_agree _ _ _ _ _ He (agree_refl _ _)).
  - eapply eff_equiv; [apply pairs_eq|exact He].
Qed.

Ltac pairs w :=
  match goal with |- context [for_n (Z.shiftr M 1) ?c ?s0] =>
    let Hat := fresh "Hat" in
    let Ha := fresh "Ha" in
    let He := fresh "He" in
    destruct (pairs_ok w c) as [Hat [Ha He]]; [rows base4 nl4|];
    set (s1 := for_n (Z.shiftr M 1) c s0) in *
  end.

Ltac even_rows He :=
  eapply eff_equiv; [|exact He]; apply Tmat_equiv; intros r; arith.

(** The tail of the 8-bit kernel copies the last row alone. *)
Lemma copy_i8s_rv32im_unrolled_ok :
  owes2 S0 D0 N sS sD m0 8 (fun r => 0 <= r < M)
        (plp_mat_copy_stride_i8s_rv32im true S0 M N sS sD D0 m0).
Proof.
  unfold owes2, plp_mat_copy_stride_i8s_rv32im. cbv zeta.
  destruct (nonzero (Z.land N 3)) eqn:E1; pairs 8;
    (destruct (nonzero (Z.land M 1)) eqn:E2; [|even_rows He]).
  all: match goal with |- eff _ _ _ (mem4 (?t ?s)) =>
      assert (C : exists k,
                 chunk mem4 (pblk D0) m0 (Tseg (rv2 8 S0 sS m0) (pofs D0) sD)
                       (at4a S0 D0 sS sD) k t /\ k = N)
        by (eexists; split; [rows base4 nl4|arith]);
      destruct C as [k [C ->]];
      destruct (C _ 0 s (at4_at4a _ _ _ _ _ _ _ Hat) Ha) as [_ He']
    end.
  all: eapply eff_equiv; [|eapply eff_seq; [exact He|exact He']].
  all: assert (Hh : 0 <= 2 * Z.shiftr M 1) by arith.
  all: intros i v; rewrite (Tmat_snoc _ _ _ _ _ Hh i v).
  all: apply Tmat_equiv; intros r; arith.
Qed.

(** The tail of the 16-bit kernel copies a pair of rows once more: the last
    row and the one below it. *)
Lemma pair_tail_here k c s r :
  chunk mem4 (pblk D0) m0 (T2seg (rv2 16 S0 sS m0) (pofs D0) sD)
        (at4 S0 D0 sS sD) k c ->
  0 <= k -> at4 S0 D0 sS sD r 0 s -> agree (pblk D0) m0 (mem4 s) ->
  eff (pblk D0) (T2seg (rv2 16 S0 sS m0) (pofs D0) sD r 0 (k + 1))
      (mem4 s) (mem4 ((c >> copy2_here 16) s)).
Proof.
  intros C Hk Hat Ha. destruct (C r 0 s Hat Ha) as [Hat' He1].
  destruct (copy2_here_ok 16 S0 D0 sS sD m0 HSD r (0 + k) (c s) Hat'
              (eff_agree _ _ _ _ _ He1 Ha)) as [_ He2].
  eapply eff_equiv; [apply T2seg_app; [exact Hk|lia]|].
  eapply eff_seq; [exact He1|exact He2].
Qed.

Lemma copy_i16s_rv32im_unrolled_ok :
  owes2 S0 D0 N sS sD m0 16 (fun r => 0 <= r < M + M mod 2)
        (plp_mat_copy_stride_i16s_rv32im true S0 M N sS sD D0 m0).
Proof.
  unfold owes2, plp_mat_copy_stride_i16s_rv32im. cbv zeta.
  destruct (nonzero (Z.land N 1)) eqn:E1; pairs 16;
    (destruct (nonzero (Z.land M 1)) eqn:E2; [|even_rows He]).
  all: assert (Hh : 0 <= 2 * Z.shiftr M 1) by arith.
  - match goal with |- eff _ _ _ (mem4 ((?c >> _) ?s)) =>
      assert (C : exists k,
                 chunk mem4 (pblk D0) m0
                       (T2seg (rv2 16 S0 sS m0) (pofs D0) sD)
                       (at4 S0 D0 sS sD) k c /\ 0 <= k /\ k + 1 = N)
        by (eexists; split; [rows base4 nl4|split; arith]);
      destruct C as [k [C [Hk HkN]]];
      pose proof (pair_tail_here k c s _ C Hk Hat Ha) as He';
      rewrite HkN in He'
    end.
    eapply eff_equiv; [|eapply eff_seq; [exact He|exact He']].
    intros i v. rewrite (Tmat_snoc2 _ _ _ _ _ Hh i v).
    apply Tmat_equiv. intros r. arith.
  - match goal with |- eff _ _ _ (mem4 (?c ?s)) =>
      assert (C : exists k,
                 chunk mem4 (pblk D0) m0
                       (T2seg (rv2 16 S0 sS m0) (pofs D0) sD)
                       (at4 S0 D0 sS sD) k c /\ k = N)
        by (eexists; split; [rows base4 nl4|arith]);
      destruct C as [k [C ->]];
      destruct (C _ 0 s Hat Ha) as [_ He']
    end.
    eapply eff_equiv; [|eapply eff_seq; [exact He|exact He']].
    intros i v. rewrite (Tmat_snoc2 _ _ _ _ _ Hh i v).
    apply Tmat_equiv. intros r. arith.
Qed.

End TwoRows.

(** *** The parallel kernels: one core *)

Section ParallelBinary.

Variables A0 B0 D0 : ptr.
Variables M N sA sB sY nPE : Z.
Variable m0 : mem.
Hypothesis HAD : pblk A0 <> pblk D0.
Hypothesis HBD : pblk B0 <> pblk D0.
Hypothesis HM : 0 <= M.
Hypothesis HN : 0 <= N.
Hypothesis HP : 0 < nPE.
Hypothesis HW : M + nPE <= 2 ^ 32.
Hypothesis HsA : 0 <= sA * nPE - N /\ sA * nPE + 1 < 2 ^ 32.
Hypothesis HsB : 0 <= sB * nPE - N /\ sB * nPE + 1 < 2 ^ 32.
Hypothesis HsY : 0 <= sY * nPE - N /\ sY * nPE + 1 < 2 ^ 32.
Hypothesis HcA : forall p, 0 <= p < nPE -> 0 <= sA * p < 2 ^ 32.
Hypothesis HcB : forall p, 0 <= p < nPE -> 0 <= sB * p < 2 ^ 32.
Hypothesis HcY : forall p, 0 <= p < nPE -> 0 <= sY * p < 2 ^ 32.

(** What the call of core [p] owes: its rows, and only those. *)
Definition owes3p (w : Z) (op : Z -> Z -> Z) (p : Z) (r : option mem) : Prop :=
  exists m', r = Some m' /\
    eff (pblk D0) (Tmat (rv3 w op A0 B0 sA sB m0) (pofs D0) sY N
                        (fun r => 0 <= r < M /\ r mod nPE = p)) m0 m'.

Ltac core3 w op p Hp Hf :=
  rewrite (wrap32_small (sA * p)), (wrap32_small (sB * p)),
    (wrap32_small (sY * p)) by auto;
  match goal with
  | |- exists m', option_map _ (for_pe ?fuel _ _ _ (fun _ => ?c) ?s0) = _ /\ _
    => destruct (run_pe mem3 (pblk D0) m0 (rv3 w op A0 B0 sA sB m0) (pofs D0)
                   sY (at3 A0 B0 D0 sA sB sY) N M nPE c fuel p s0 HM HP HW Hp
                   Hf) as [s' [E He]];
       [ rows base3 nl3 | apply at3_start; lia | reflexivity
       | rewrite E; eexists; split; [reflexivity|exact He] ]
  end.

Lemma add_i16p_ok fuel p :
  0 <= p < nPE -> M <= Z.of_nat fuel ->
  owes3p 16 Z.add p
    (plp_mat_add_stride_i16p_xpulpv2 fuel p
       (mk_add_instance A0 B0 M N sA sB sY nPE D0) m0).
Proof.
  intros Hp Hf. unfold owes3p, plp_mat_add_stride_i16p_xpulpv2.
  cbn [a_pSrcA a_pSrcB a_M a_N a_strideA a_strideB a_strideY a_nPE a_pDst].
  cbv zeta.
  destruct (nonzero (Z.land N 1)) eqn:E1;
    destruct (nonzero (Z.land N 2)) eqn:E2; core3 16 Z.add p Hp Hf.
Qed.

Lemma add_i8p_ok fuel p :
  0 <= p < nPE -> M <= Z.of_nat fuel ->
  owes3p 8 Z.add p
    (plp_mat_add_stride_i8p_xpulpv2 fuel p
       (mk_add_instance A0 B0 M N sA sB sY nPE D0) m0).
Proof.
  intros Hp Hf. unfold owes3p, plp_mat_add_stride_i8p_xpulpv2.
  cbn [a_pSrcA a_pSrcB a_M a_N a_strideA a_strideB a_strideY a_nPE a_pDst].
  cbv zeta.
  destruct (nonzero (Z.land N 3)) eqn:E1;
    destruct (nonzero (Z.land N 4)) eqn:E2; core3 8 Z.add p Hp Hf.
Qed.

End ParallelBinary.

Section ParallelCopy.

Variables S0 D0 : ptr.
Variables M N sS sD nPE : Z.
Variable m0 : mem.
Hypothesis HSD : pblk S0 <> pblk D0.
Hypothesis HM : 0 <= M.
Hypothesis HN : 0 <= N.
Hypothesis HP : 0 < nPE.
Hypothesis HW : M + nPE <= 2 ^ 32.
Hypothesis HsS : 0 <= sS * nPE - N /\ sS * nPE + 1 < 2 ^ 32.
Hypothesis HsD : 0 <= sD * nPE - N /\ sD * nPE + 1 < 2 ^ 32.
Hypothesis HcS : forall p, 0 <= p < nPE -> 0 <= sS * p < 2 ^ 32.
Hypothesis HcD : forall p, 0 <= p < nPE -> 0 <= sD * p < 2 ^ 32.

Definition owes2p (w : Z) (p : Z) (r : option mem) : Prop :=
  exists m', r = Some m' /\
    eff (pblk D0) (Tmat (rv2 w S0 sS m0) (pofs D0) sD N
                        (fun r => 0 <= r < M /\ r mod nPE = p)) m0 m'.

Ltac core2 w p Hp Hf :=
  rewrite (wrap32_small (sS * p)), (wrap32_small (sD * p)) by auto;
  match goal with
  | |- exists m', option_map _ (for_pe ?fuel _ _ _ (fun _ => ?c) ?s0) = _ /\ _
    => destruct (run_pe mem2 (pblk D0) m0 (rv2 w S0 sS m0) (pofs D0)
                   sD (at2 S0 D0 sS sD) N M nPE c fuel p s0 HM HP HW Hp
                   Hf) as [s' [E He]];
       [ rows base2 nl2 | apply at2_start; lia | reflexivity
       | rewrite E; eexists; split; [reflexivity|exact He] ]
  end.

Lemma copy_i16p_ok fuel p :
  0 <= p < nPE -> M <= Z.of_nat fuel ->
  owes2p 16 p
    (plp_mat_copy_stride_i16p_xpulpv2 fuel p
       (mk_copy_instance S0 M N sS sD nPE D0) m0).
Proof.
  intros Hp Hf. unfold owes2p, plp_mat_copy_stride_i16p_xpulpv2.
  cbn [c_pSrc c_M c_N c_strideSrc c_strideDst c_nPE c_pDst]. cbv zeta.
  destruct (nonzero (Z.land N 1)) eqn:E1;
    destruct (nonzero (Z.land N 2)) eqn:E2; core2 16 p Hp Hf.
Qed.

Lemma copy_i8p_ok fuel p :
  0 <= p < nPE -> M <= Z.of_nat fuel ->
  owes2p 8 p
    (plp_mat_copy_stride_i8p_xpulpv2 fuel p
       (mk_copy_instance S0 M N sS sD nPE D0) m0).
Proof.
  intros Hp Hf. unfold owes2p, plp_mat_copy_stride_i8p_xpulpv2.
  cbn [c_pSrc c_M c_N c_strideSrc c_strideDst c_nPE c_pDst]. cbv zeta.
  destruct (Z.shiftr N 3 =? 0) eqn:E0;
    destruct (Z.land N 3 =? 0) eqn:E1;
    destruct (Z.land N 4 =? 0) eqn:E2; try core2 8 p Hp Hf.
  simpl. eexists. split; [reflexivity|].
  eapply eff_equiv; [|apply eff_refl].
  intros i v. split; [intros []|]. intros [r [_ [c [Hc _]]]]. arith.
Qed.

End ParallelCopy.

(** *** The reference double loop *)


(** *** Every kernel, one call *)

(** The rows that the call of core [p] writes. The unrolled 16-bit RV32IM
    copy also writes row [M] when [M] is odd. *)
Definition written_rows (k : kernel) (a : plp_mat_add_stride_instance)
  (p : Z) : Z -> Prop :=
  match k with
  | add_i16p_xpulpv2 | add_i8p_xpulpv2 | copy_i16p_xpulpv2
  | copy_i8p_xpulpv2 =>
      fun r => 0 <= r < a_M a /\ r mod a_nPE a = p
  | copy_i16s_rv32im true => fun r => 0 <= r < a_M a + a_M a mod 2
  | _ => fun r => 0 <= r < a_M a
  end.

Definition owes (k : kernel) (a : plp_mat_add_stride_instance) (m0 : mem)
  (R : Z -> Prop) (m' : mem) : Prop :=
  eff (pblk (a_pDst a))
      (Tmat (expected (width_of k) (operator_of k) a m0) (pofs (a_pDst a))
            (a_strideY a) (a_N a) R) m0 m'.

Lemma run_ok k fuel p a m0 :
  call_ok k a -> 0 <= p < team k a -> a_M a <= Z.of_nat fuel ->
  exists m', run k fuel p a m0 = Some m' /\
             owes k a m0 (written_rows k a p) m'.
Proof.
  intros [HM HN HT HsA HsB HsY HfA HfB HfY HbA HbB] Hp Hf.
  destruct a as [A0 B0 M N sA sB sY nPE D0].
  cbn [a_pSrcA a_pSrcB a_M a_N a_strideA a_strideB a_strideY a_nPE a_pDst]
    in *.
  destruct (fits_facts M N _ sA HM HT (conj HN HsA) HfA)
    as [FA [TA [FR [CA IA]]]].
  destruct (fits_facts M N _ sY HM HT (conj HN HsY) HfY)
    as [FY [TY [_ [CY IY]]]].
  unfold owes.
  destruct k as [u|u|u| | |u| | |u|u|u];
    cbn [run written_rows width_of operator_of team is_parallel copy_instance
         a_pSrcA a_pSrcB a_M a_N a_strideA a_strideB a_strideY a_nPE a_pDst]
      in *;
    try (specialize (HsB I); specialize (HbB I);
         destruct (fits_facts M N _ sB HM HT (conj HN HsB) (HfB I))
           as [FB [TB [_ [CB _]]]]).
  - eexists. split; [reflexivity|]. apply add_i32s_ok; auto; lia.
  - eexists. split; [reflexivity|]. apply sub_i16s_rv32im_ok; auto; lia.
  - eexists. split; [reflexivity|]. apply sub_i16s_xpulpv2_ok; auto; lia.
  - apply add_i16p_ok; auto; lia.
  - apply add_i8p_ok; auto; lia.
  - eexists. split; [reflexivity|]. apply copy_i16s_xpulpv2_ok; auto; lia.
  - apply copy_i16p_ok; auto; lia.
  - apply copy_i8p_ok; auto; lia.
  - eexists. split; [reflexivity|]. destruct u.
    + apply copy_i8s_rv32im_unrolled_ok; auto; lia.
    + apply copy_i8s_rv32im_plain_ok; auto; lia.
  - eexists. split; [reflexivity|]. destruct u.
    + apply copy_i16s_rv32im_unrolled_ok; auto; lia.
    + apply copy_i16s_rv32im_plain_ok; auto; lia.
  - eexists. split; [reflexivity|]. destruct u.
    + apply copy_i32s_rv32im_unrolled_ok; auto; lia.
    + apply copy_i32s_rv32im_plain_ok; auto; lia.
Qed.

(** *** Every kernel, the whole operation *)

Lemma expected_agree w o a m0 m :
  agree (pblk (a_pDst a)) m0 m ->
  pblk (a_pSrcA a) <> pblk (a_pDst a) ->
  (o <> OpCopy -> pblk (a_pSrcB a) <> pblk (a_pDst a)) ->
  forall r c, expected w o a m r c = expected w o a m0 r c.
Proof.
  intros Ha HA HB r c. unfold expected.
  rewrite (load_agree _ _ _ _ _ Ha) by exact HA.
  destruct o; simpl; try reflexivity;
    now rewrite (load_agree _ _ _ _ (padd (a_pSrcB a) _) Ha)
      by (apply HB; discriminate).
Qed.

Lemma Tmat_ext rv rv' D sY N R :
  (forall r c, rv r c = rv' r c) ->
  t_eq (Tmat rv D sY N R) (Tmat rv' D sY N R).
Proof.
  intros E i v.
  split; intros [r [Hr [c [Hc [Hi Hv]]]]]; exists r; (split; [exact Hr|]);
    exists c; (split; [exact Hc|]); (split; [exact Hi|]);
    [rewrite <- E|rewrite E]; exact Hv.
Qed.

Lemma binary_op k : operator_of k <> OpCopy -> binary k.
Proof. unfold binary. destruct (operator_of k); auto. Qed.

Lemma parallel_rows k a p :
  is_parallel k = true ->
  written_rows k a p = fun r => 0 <= r < a_M a /\ r mod a_nPE a = p.
Proof. destruct k; try discriminate; reflexivity. Qed.

(** The rows that a whole operation writes. *)
Definition all_rows (k : kernel) (a : plp_mat_add_stride_instance)
  : Z -> Prop :=
  match k with
  | copy_i16s_rv32im true => fun r => 0 <= r < a_M a + a_M a mod 2
  | _ => fun r => 0 <= r < a_M a
  end.

Lemma run_cores_ok k fuel a m0 :
  is_parallel k = true -> call_ok k a -> a_M a <= Z.of_nat fuel ->
  forall n : nat, Z.of_nat n <= a_nPE a ->
  exists m', run_cores (fun p => run k fuel p a) n m0 = Some m' /\
    owes k a m0 (fun r => 0 <= r < a_M a /\ r mod a_nPE a < Z.of_nat n) m'.
Proof.
  intros Hk Hok Hf.
  assert (HP : 1 <= a_nPE a).
  { pose proof (ok_team _ _ Hok) as H. unfold team in H. now rewrite Hk in H. }
  induction n as [|n IH]; intros Hn.
  - exists m0. split; [reflexivity|]. unfold owes.
    eapply eff_equiv; [|apply eff_refl].
    intros i v. split; [intros []|]. intros [r [[_ Hr] _]].
    pose proof (Z.mod_pos_bound r (a_nPE a) ltac:(lia)). lia.
  - destruct (IH ltac:(lia)) as [m1 [E1 He1]].
    cbn [run_cores]. rewrite E1.
    assert (Hp : 0 <= Z.of_nat n < team k a).
    { unfold team. rewrite Hk. lia. }
    destruct (run_ok k fuel (Z.of_nat n) a m1 Hok Hp Hf) as [m2 [E2 He2]].
    exists m2. split; [exact E2|]. unfold owes in *.
    pose proof (eff_agree _ _ _ _ _ He1 (agree_refl _ _)) as Ha.
    eapply eff_equiv; [|eapply eff_seq; [exact He1|]].
    2:{ eapply eff_equiv; [|exact He2]. apply Tmat_ext.
        apply expected_agree; [exact Ha|apply (ok_srcA _ _ Hok)|].
        intros Ho. apply (ok_srcB _ _ Hok), binary_op, Ho. }
    rewrite (parallel_rows _ _ _ Hk).
    intros i v. split.
    + intros [[r [[Hr Hm] H]]|[r [[Hr Hm] H]]]; exists r;
        (split; [split; [exact Hr|lia]|exact H]).
    + intros [r [[Hr Hm] H]].
      destruct (Z.eq_dec (r mod a_nPE a) (Z.of_nat n)) as [E|E].
      * right. exists r. split; [split; [exact Hr|exact E]|exact H].
      * left. exists r. split; [split; [exact Hr|lia]|exact H].
Qed.

Lemma run_all_ok k fuel a m0 :
  call_ok k a -> a_M a <= Z.of_nat fuel ->
  exists m', run_all k fuel a m0 = Some m' /\ owes k a m0 (all_rows k a) m'.
Proof.
  intros Hok Hf. unfold run_all. destruct (is_parallel k) eqn:Hk.
  - assert (HP : 1 <= a_nPE a).
    { pose proof (ok_team _ _ Hok) as H. unfold team in H.
      now rewrite Hk in H. }
    destruct (run_cores_ok k fuel a m0 Hk Hok Hf (Z.to_nat (a_nPE a))
                ltac:(lia)) as [m' [E He]].
    exists m'. split; [exact E|]. unfold owes in *.
    eapply eff_equiv; [|exact He]. apply Tmat_equiv. intros r.
    rewrite Z2Nat.id by lia.
    pose proof (Z.mod_pos_bound r (a_nPE a) ltac:(lia)).
    destruct k; try discriminate; simpl; lia.
  - assert (Hp : 0 <= 0 < team k a).
    { unfold team. rewrite Hk. lia. }
    destruct (run_ok k fuel 0 a m0 Hok Hp Hf) as [m' [E He]].
    exists m'. split; [exact E|].
    destruct k as [u|u|u| | |u| | |u|u|u]; try discriminate; exact He.
Qed.

(** *** What a written set of rows means for the memory *)

Lemma owes_values k a m0 R m' r c :
  owes k a m0 R m' -> a_N a <= a_strideY a -> R r -> 0 <= c < a_N a ->
  load (width_of k) m' (padd (a_pDst a) (r * a_strideY a + c))
  = expected (width_of k) (operator_of k) a m0 r c.
Proof.
  intros He HN Hr Hc. unfold load. cbn [padd pblk pofs].
  rewrite Z.add_assoc.
  rewrite (mat_values _ _ _ _ _ _ _ _ r c He HN Hr Hc).
  unfold expected. apply sext_idem.
Qed.

Lemma owes_frame k a m0 R m' b i :
  owes k a m0 R m' ->
  (b <> pblk (a_pDst a) \/
   ~ exists r c, R r /\ 0 <= c < a_N a /\
                 i = pofs (a_pDst a) + r * a_strideY a + c) ->
  cells m' b i = cells m0 b i.
Proof. intros He. now apply (mat_frame _ _ _ _ _ _ _ _ _ _ He). Qed.

Lemma owes_trace k a m0 R m' :
  owes k a m0 R m' ->
  exists evs, trace m' = evs ++ trace m0 /\
    Forall (fun e => exists r c, R r /\ 0 <= c < a_N a /\
              e = EvStore (pblk (a_pDst a))
                          (pofs (a_pDst a) + r * a_strideY a + c)) evs.
Proof. intros He. now apply (mat_trace _ _ _ _ _ _ _ _ He). Qed.

Lemma all_rows_view k a r : 0 <= r < a_M a -> all_rows k a r.
Proof.
  intros Hr. destruct k as [u|u|u| | |u| | |u|u|u]; simpl; try exact Hr.
  destruct u; simpl; [|exact Hr].
  pose proof (Z.mod_pos_bound (a_M a) 2 ltac:(lia)). lia.
Qed.

(** ** The contract of the elementwise kernels *)

Lemma expected_elem w o a m r c :
  expected w o a m r c
  = elem_op w o (load w m (padd (a_pSrcA a) (r * a_strideA a + c)))
                (load w m (padd (a_pSrcB a) (r * a_strideB a + c))).
Proof.
  unfold expected. destruct o; simpl; try reflexivity.
  unfold load. apply sext_idem.
Qed.

Lemma demo_call_ok k : call_ok k demo_call.
Proof.
  constructor; unfold fits32, team; simpl; try lia; try discriminate;
    destruct (is_parallel k); lia.
Qed.

(** The contract of an operation: the theorems below rest on it. *)
Lemma elementwise_spec :
  forall k fuel a m0,
    call_ok k a -> a_M a <= Z.of_nat fuel ->
    exists m', run_all k fuel a m0 = Some m' /\
      forall m n, 0 <= m < a_M a -> 0 <= n < a_N a ->
        load (width_of k) m' (padd (a_pDst a) (m * a_strideY a + n))
        = elem_op (width_of k) (operator_of k)
            (load (width_of k) m0 (padd (a_pSrcA a) (m * a_strideA a + n)))
            (load (width_of k) m0 (padd (a_pSrcB a) (m * a_strideB a + n))).
Proof.
  intros k fuel a m0 Hok Hf.
  destruct (run_all_ok k fuel a m0 Hok Hf) as [m' [E He]].
  exists m'. split; [exact E|]. intros m n Hm Hn.
  rewrite <- expected_elem.
  apply (owes_values k a m0 _ m' m n He (ok_strideY _ _ Hok)
           (all_rows_view k a m Hm) Hn).
Qed.










(** ** The row partition of the parallel kernels *)

Lemma log_rows_spec M nPE (fuel : nat) :
  0 < nPE -> M + nPE <= 2 ^ 32 ->
  forall r acc,
    0 <= r -> M - r <= Z.of_nat fuel ->
    exists l,
      for_pe fuel r M nPE (fun x (l : list Z) => l ++ [x]) acc
      = Some (acc ++ l) /\
      (forall x, In x l <->
                 r <= x < M /\ exists j, 0 <= j /\ x = r + j * nPE) /\
      NoDup l.
Proof.
  intros HP HW. induction fuel as [|fuel IH]; intros r acc Hr Hf.
  - exists []. simpl. destruct (Z.ltb_spec r M); [lia|].
    rewrite app_nil_r. split; [reflexivity|]. split; [|constructor].
    intros x. split; [intros []|]. intros [Hx _]. lia.
  - simpl. destruct (Z.ltb_spec r M) as [Hlt|Hge].
    + rewrite wrap32_small by lia.
      destruct (IH (r + nPE) (acc ++ [r]) ltac:(lia) ltac:(lia))
        as [l [E [Hin Hnd]]].
      exists (r :: l). split; [|split].
      * rewrite E, <- app_assoc. reflexivity.
      * intros x. simpl. rewrite Hin. split.
        -- intros [<-|[Hx [j [Hj ->]]]].
           ++ split; [lia|]. exists 0. lia.
           ++ split; [lia|]. exists (j + 1). lia.
        -- intros [Hx [j [Hj ->]]]. destruct (Z.eq_dec j 0) as [->|Hj0].
           ++ left. lia.
           ++ right. split; [nia|]. exists (j - 1). lia.
      * constructor; [|exact Hnd]. rewrite Hin. intros [Hx _]. lia.
    + exists []. rewrite app_nil_r. split; [reflexivity|].
      split; [|constructor]. intros x. split; [intros []|].
      intros [Hx _]. lia.
Qed.

(** The rows the loop of core [p] visits are those congruent to [p], each
    once. *)
Lemma pe_rows_ok fuel p M nPE :
  0 <= M -> 0 < nPE -> M + nPE <= 2 ^ 32 -> 0 <= p < nPE ->
  M <= Z.of_nat fuel ->
  exists l, pe_rows fuel p M nPE = Some l /\
    (forall r, In r l <-> 0 <= r < M /\ r mod nPE = p) /\ NoDup l.
Proof.
  intros HM HP HW Hp Hf. unfold pe_rows. rewrite wrap32_small by lia.
  destruct (log_rows_spec M nPE fuel HP HW p [] ltac:(lia) ltac:(lia))
    as [l [E [Hin Hnd]]].
  exists l. split; [exact E|]. split; [|exact Hnd].
  intros r. rewrite Hin. split.
  - intros [Hr [j [Hj ->]]]. split; [lia|].
    rewrite Z.mod_add by lia. apply Z.mod_small. lia.
  - intros [Hr Hmod]. pose proof (Z.div_mod r nPE ltac:(lia)).
    pose proof (Z.mod_pos_bound r nPE HP).
    pose proof (Z.mod_le r nPE ltac:(lia) HP). split; [lia|].
    exists (r / nPE). split; [apply Z.div_pos; lia|lia].
Qed.

(** The loop runs its body on the visited rows, in order. *)
Lemma for_pe_along {St : Type} M nPE (body : Z -> St -> St) (fuel : nat) :
  forall r acc l s,
    for_pe fuel r M nPE (fun x (l : list Z) => l ++ [x]) acc
    = Some (acc ++ l) ->
    for_pe fuel r M nPE body s
    = Some (fold_left (fun s x => body x s) l s).
Proof.
  assert (Ext : forall (fuel : nat) r acc res,
             for_pe fuel r M nPE (fun x (l : list Z) => l ++ [x]) acc
             = Some res -> exists l, res = acc ++ l).
  { clear. induction fuel as [|fuel IH]; intros r acc res; simpl;
      destruct (r <? M); try discriminate.
    - intros [= <-]. exists []. now rewrite app_nil_r.
    - intros H. destruct (IH _ _ _ H) as [l ->]. exists (r :: l).
      now rewrite <- app_assoc.
    - intros [= <-]. exists []. now rewrite app_nil_r. }
  induction fuel as [|fuel IH]; intros r acc l s; simpl;
    destruct (r <? M); try discriminate.
  - intros [= H]. rewrite <- (app_nil_r acc) in H at 1.
    apply app_inv_head in H. now subst l.
  - intros H. destruct (Ext _ _ _ _ H) as [l' El].
    rewrite <- app_assoc in El. apply app_inv_head in El. subst l.
    simpl. apply (IH _ (acc ++ [r])). now rewrite <- app_assoc.
  - intros [= H]. rewrite <- (app_nil_r acc) in H at 1.
    apply app_inv_head in H. now subst l.
Qed.

Lemma owes_writes_rows k a m0 R m' :
  a_N a <= a_strideY a -> owes k a m0 R m' -> writes_rows k a m0 R m'.
Proof.
  intros HN He. split; [|split].
  - intros r c Hr Hc. rewrite <- expected_elem.
    now apply (owes_values k a m0 R m').
  - now apply (owes_trace k a m0 R m').
  - intros b i. now apply (owes_frame k a m0 R m').
Qed.

(** C3: For every parallel elementwise kernel the call with core id p
    handles exactly the rows m < M with m mod nPE = p: its loop visits them,
    each once, it fills them and stores nowhere else. Every row below M has
    exactly one such core, so the calls of all cores cover the rows
    [0 .. M-1] once each; a core with core_id >= M (when M < nPE) visits no
    row and writes nothing. *)
Theorem round_robin_partition :
  forall k fuel a m0,
    is_parallel k = true -> call_ok k a -> a_M a <= Z.of_nat fuel ->
    (forall p, 0 <= p < a_nPE a ->
       exists l m',
         pe_rows fuel p (a_M a) (a_nPE a) = Some l /\
         (forall r, In r l <-> 0 <= r < a_M a /\ r mod a_nPE a = p) /\
         NoDup l /\
         run k fuel p a m0 = Some m' /\
         writes_rows k a m0
           (fun r => 0 <= r < a_M a /\ r mod a_nPE a = p) m') /\
    (forall r, 0 <= r < a_M a ->
       exists p, (0 <= p < a_nPE a /\ r mod a_nPE a = p) /\
                 forall q, 0 <= q < a_nPE a /\ r mod a_nPE a = q -> q = p) /\
    (forall p, 0 <= p < a_nPE a -> a_M a <= p ->
       pe_rows fuel p (a_M a) (a_nPE a) = Some [] /\
       exists m', run k fuel p a m0 = Some m' /\
                  trace m' = trace m0 /\
                  forall b i, cells m' b i = cells m0 b i).
Proof.
  intros k fuel a m0 Hk Hok Hf.
  assert (HP : 1 <= a_nPE a).
  { pose proof (ok_team _ _ Hok) as H. unfold team in H. now rewrite Hk in H. }
  assert (HW : a_M a + a_nPE a <= 2 ^ 32).
  { pose proof (ok_fitsY _ _ Hok) as H. unfold team in H. rewrite Hk in H.
    apply (fits_facts _ _ _ _ (ok_M _ _ Hok) HP
             (conj (ok_N _ _ Hok) (ok_strideY _ _ Hok)) H). }
  assert (Hrun : forall p, 0 <= p < a_nPE a ->
            exists m', run k fuel p a m0 = Some m' /\
              writes_rows k a m0
                (fun r => 0 <= r < a_M a /\ r mod a_nPE a = p) m').
  { intros p Hp.
    assert (Hp' : 0 <= p < team k a) by (unfold team; now rewrite Hk).
    destruct (run_ok k fuel p a m0 Hok Hp' Hf) as [m' [E He]].
    exists m'. split; [exact E|].
    rewrite (parallel_rows _ _ _ Hk) in He.
    apply owes_writes_rows; [apply (ok_strideY _ _ Hok)|exact He]. }
  split; [|split].
  - intros p Hp.
    destruct (pe_rows_ok fuel p (a_M a) (a_nPE a) (ok_M _ _ Hok)
                ltac:(lia) HW Hp Hf) as [l [El [Hin Hnd]]].
    destruct (Hrun p Hp) as [m' [E Hw]].
    exists l, m'. auto.
  - intros r Hr. exists (r mod a_nPE a).
    split; [split; [apply Z.mod_pos_bound; lia|reflexivity]|].
    intros q [_ Hq]. now symmetry.
  - intros p Hp HMp.
    assert (Hnone : forall r, ~ (0 <= r < a_M a /\ r mod a_nPE a = p)).
    { intros r [Hr Hm]. rewrite Z.mod_small in Hm by lia. lia. }
    split.
    + destruct (pe_rows_ok fuel p (a_M a) (a_nPE a) (ok_M _ _ Hok)
                  ltac:(lia) HW Hp Hf) as [l [El [Hin _]]].
      destruct l as [|x l]; [exact El|].
      exfalso. apply (Hnone x), Hin. now left.
    + destruct (Hrun p Hp) as [m' [E [_ [[evs [Ht Hev]] Hfr]]]].
      exists m'. split; [exact E|]. split.
      * destruct evs as [|e evs]; [exact Ht|].
        inversion Hev as [|? ? [r [c [Hr _]]] _]. now destruct (Hnone r).
      * intros b i. apply Hfr. right. intros [r [c [Hr _]]].
        now destruct (Hnone r).
Qed.

Lemma round_robin_partition_witness :
  is_parallel copy_i8p_xpulpv2 = true /\
  call_ok copy_i8p_xpulpv2 demo_call /\
  a_M demo_call <= Z.of_nat 3 /\
  exists l m',
    pe_rows 3 1 (a_M demo_call) (a_nPE demo_call) = Some l /\
    (forall r, In r l <->
               0 <= r < a_M demo_call /\ r mod a_nPE demo_call = 1) /\
    NoDup l /\
    run copy_i8p_xpulpv2 3 1 demo_call demo_mem = Some m' /\
    writes_rows copy_i8p_xpulpv2 demo_call demo_mem
      (fun r => 0 <= r < a_M demo_call /\ r mod a_nPE demo_call = 1) m'.
Proof.
  split; [reflexivity|]. split; [apply demo_call_ok|].
  split; [simpl; lia|].
  apply (proj1 (round_robin_partition copy_i8p_xpulpv2 3 demo_call demo_mem
                  eq_refl (demo_call_ok _) ltac:(simpl; lia))).
  simpl. lia.
Defined.

(** ** The transposed matrix multiplication *)

Lemma index_small r n R N : 0 <= r < R -> 0 <= n < N -> R * N <= 2 ^ 32 ->
  0 <= r * N + n < 2 ^ 32.
Proof. intros. nia. Qed.

(** The 32-bit accumulator holds the low 32 bits of the integer sum. *)
Lemma mult_acc_dot x m0 mm r o :
  mult_ok x -> agree (pblk (x_pDstC x)) m0 mm ->
  0 <= r < x_M x -> 0 <= o < x_O x ->
  sext 32 (for_idx (x_N x)
             (mult_acc (x_pSrcA x) (x_pSrcB x) (x_N x) r o mm) 0)
  = sext 32 (dot x m0 r o).
Proof.
  intros Hok Ha Hr Ho. apply sext_congr. unfold dot, for_idx.
  assert (G : forall j : nat, Z.of_nat j <= x_N x ->
    (fold_left (fun acc i =>
        mult_acc (x_pSrcA x) (x_pSrcB x) (x_N x) r o mm (Z.of_nat i) acc)
       (seq 0 j) 0) mod 2 ^ 32
    = (fold_left (fun acc i =>
        acc + load 16 m0 (padd (x_pSrcA x) (r * x_N x + Z.of_nat i))
              * load 16 m0 (padd (x_pSrcB x) (o * x_N x + Z.of_nat i)))
       (seq 0 j) 0) mod 2 ^ 32).
  { induction j as [|j IH]; intros Hj; [reflexivity|].
    rewrite seq_S, !fold_left_app. simpl fold_left. unfold mult_acc at 1.
    rewrite sext_mod_eq.
    rewrite (wrap32_small (r * x_N x + Z.of_nat j))
      by (apply (index_small _ _ (x_M x)); [lia|lia|apply (mo_A _ Hok)]).
    rewrite (wrap32_small (o * x_N x + Z.of_nat j))
      by (apply (index_small _ _ (x_O x)); [lia|lia|apply (mo_B _ Hok)]).
    rewrite !(load_agree _ _ _ _ _ Ha)
      by first [apply (mo_srcA _ Hok)|apply (mo_srcB _ Hok)].
    rewrite Zplus_mod, IH by lia. now rewrite <- Zplus_mod. }
  apply G. rewrite Z2Nat.id; [lia|apply (mo_N _ Hok)].
Qed.

(** What one call leaves behind, before the barrier. *)
Lemma mult_rows x fuel p m0 :
  mult_ok x -> 0 <= p < x_nPE x -> x_M x <= Z.of_nat fuel ->
  exists m1,
    for_pe fuel (wrap32 p) (x_M x) (x_nPE x)
      (fun r =>
         for_idx (x_O x)
           (fun o mm =>
              store 32 mm (padd (x_pDstC x) (wrap32 (r * x_O x + o)))
                (for_idx (x_N x)
                   (mult_acc (x_pSrcA x) (x_pSrcB x) (x_N x) r o mm) 0)))
      m0 = Some m1 /\
    eff (pblk (x_pDstC x))
        (Tmat (fun r o => sext 32 (dot x m0 r o)) (pofs (x_pDstC x))
              (x_O x) (x_O x) (rows_of_core x p)) m0 m1.
Proof.
  intros Hok Hp Hf.
  pose proof (mo_M _ Hok) as HM. pose proof (mo_nPE _ Hok) as HP.
  pose proof (mo_rows _ Hok) as HW.
  rewrite wrap32_small by lia.
  destruct (lines_for_pe (fun m : mem => m) (pblk (x_pDstC x)) m0
              (Tseg (fun r o => sext 32 (dot x m0 r o)) (pofs (x_pDstC x))
                    (x_O x))
              (fun r _ _ => 0 <= r) (x_O x) (x_M x) (x_nPE x)
              (fun r =>
                 for_idx (x_O x)
                   (fun o mm =>
                      store 32 mm (padd (x_pDstC x) (wrap32 (r * x_O x + o)))
                        (for_idx (x_N x)
                           (mult_acc (x_pSrcA x) (x_pSrcB x) (x_N x) r o mm)
                           0)))
              fuel ltac:(lia) HW) with (r := p) (s := m0)
    as [m1 [E He]]; try lia; try apply agree_refl.
  - intros r Hlt s Hr0 Ha. split; [lia|].
    refine (proj2 (idx_row (pblk (x_pDstC x)) m0
              (fun r o => sext 32 (dot x m0 r o)) (x_pDstC x) (x_O x) r
              (x_O x) 32 (fun o => wrap32 (r * x_O x + o))
              (fun mm o =>
                 for_idx (x_N x)
                   (mult_acc (x_pSrcA x) (x_pSrcB x) (x_N x) r o mm) 0)
              eq_refl (mo_O _ Hok) _ _ s I Ha)).
    + intros o Ho. apply wrap32_small.
      apply (index_small _ _ (x_M x)); [lia|lia|apply (mo_C _ Hok)].
    + intros mm o Ho Hmm. apply mult_acc_dot; auto; lia.
  - exists m1. split; [exact E|].
    eapply eff_equiv; [|exact He]. apply Tmat_equiv. intros r.
    unfold rows_of_core. split.
    + intros [Hr [j [Hj ->]]]. split; [lia|].
      rewrite Z.mod_add by lia. apply Z.mod_small. lia.
    + intros [Hr Hmod]. pose proof (Z.div_mod r (x_nPE x) ltac:(lia)).
      pose proof (Z.mod_pos_bound r (x_nPE x) ltac:(lia)).
      pose proof (Z.mod_le r (x_nPE x) ltac:(lia) ltac:(lia)).
      split; [lia|]. exists (r / x_nPE x).
      split; [apply Z.div_pos; lia|lia].
Qed.

(** C10: For every core id in [0, nPE), every m < M with m mod nPE =
    core_id and every o < O, the kernel stores into [pDstC[m*O + o]] the dot
    product of row m of [pSrcA] with row o of [pSrcB], kept in 32-bit two's
    complement, and it writes no other cell of [pDstC]. *)
Theorem mult_trans_rows :
  forall fuel core_id x m0,
    mult_ok x -> 0 <= core_id < x_nPE x -> x_M x <= Z.of_nat fuel ->
    exists m',
      plp_mat_mult_trans_i16vp_xpulpv2 fuel core_id x m0 = Some m' /\
      (forall m o, 0 <= m < x_M x -> m mod x_nPE x = core_id ->
                   0 <= o < x_O x ->
         load 32 m' (padd (x_pDstC x) (m * x_O x + o))
         = sext 32 (dot x m0 m o)) /\
      (forall b i,
         (b <> pblk (x_pDstC x) \/
          ~ exists m o, (0 <= m < x_M x /\ m mod x_nPE x = core_id) /\
                        0 <= o < x_O x /\
                        i = pofs (x_pDstC x) + m * x_O x + o) ->
         cells m' b i = cells m0 b i) /\
      (forall b i, In (EvStore b i) (trace m') -> In (EvStore b i) (trace m0) \/
         exists m o, (0 <= m < x_M x /\ m mod x_nPE x = core_id) /\
                     0 <= o < x_O x /\ b = pblk (x_pDstC x) /\
                     i = pofs (x_pDstC x) + m * x_O x + o).
Proof.
  intros fuel p x m0 Hok Hp Hf.
  destruct (mult_rows x fuel p m0 Hok Hp Hf) as [m1 [E He]].
  exists (rt_team_barrier m1). split; [|split; [|split]].
  - unfold plp_mat_mult_trans_i16vp_xpulpv2. cbv zeta. now rewrite E.
  - intros m o Hm Hmod Ho. unfold load. cbn [padd pblk pofs rt_team_barrier cells].
    rewrite Z.add_assoc.
    rewrite (mat_values _ _ _ _ _ _ _ _ m o He (Z.le_refl _)
               (conj Hm Hmod) Ho).
    apply sext_idem.
  - intros b i H. cbn [rt_team_barrier cells].
    now apply (mat_frame _ _ _ _ _ _ _ _ b i He).
  - intros b i Hin. cbn [rt_team_barrier trace] in Hin.
    destruct Hin as [Hin|Hin]; [discriminate|].
    destruct (mat_trace _ _ _ _ _ _ _ _ He) as [evs [Ht Hev]].
    rewrite Ht in Hin. apply in_app_or in Hin. destruct Hin as [Hin|Hin].
    + right. rewrite Forall_forall in Hev.
      destruct (Hev _ Hin) as [r [c [Hr [Hc [= -> ->]]]]].
      exists r, c. auto.
    + now left.
Qed.

Lemma demo_mult_ok : mult_ok demo_mult.
Proof. constructor; simpl; try lia; discriminate. Qed.

Lemma mult_trans_rows_witness :
  mult_ok demo_mult /\ 0 <= 1 < x_nPE demo_mult /\
  x_M demo_mult <= Z.of_nat 3 /\
  exists m',
    plp_mat_mult_trans_i16vp_xpulpv2 3 1 demo_mult demo_mem = Some m' /\
    (forall m o, 0 <= m < x_M demo_mult -> m mod x_nPE demo_mult = 1 ->
                 0 <= o < x_O demo_mult ->
       load 32 m' (padd (x_pDstC demo_mult) (m * x_O demo_mult + o))
       = sext 32 (dot demo_mult demo_mem m o)) /\
    (forall b i,
       (b <> pblk (x_pDstC demo_mult) \/
        ~ exists m o, (0 <= m < x_M demo_mult /\
                       m mod x_nPE demo_mult = 1) /\
                      0 <= o < x_O demo_mult /\
                      i = pofs (x_pDstC demo_mult) + m * x_O demo_mult + o) ->
       cells m' b i = cells demo_mem b i) /\
    (forall b i, In (EvStore b i) (trace m') ->
       In (EvStore b i) (trace demo_mem) \/
       exists m o, (0 <= m < x_M demo_mult /\ m mod x_nPE demo_mult = 1) /\
                   0 <= o < x_O demo_mult /\ b = pblk (x_pDstC demo_mult) /\
                   i = pofs (x_pDstC demo_mult) + m * x_O demo_mult + o).
Proof.
  split; [exact demo_mult_ok|]. split; [simpl; lia|]. split; [simpl; lia|].
  apply (mult_trans_rows 3%nat 1 demo_mult demo_mem demo_mult_ok).
  - simpl. lia.
  - simpl. lia.
Defined.

(** ** The barrier *)

(** *** One core alone: the steps make up the call *)

Lemma mult_steps_add n1 n2 x c mm :
  mult_steps (n1 + n2) x c mm
  = let (c', mm') := mult_steps n1 x c mm in mult_steps n2 x c' mm'.
Proof.
  revert c mm. induction n1 as [|n1 IH]; intros c mm; cbn [Nat.add mult_steps].
  - reflexivity.
  - destruct (mult_step x c mm) as [c' mm']. apply IH.
Qed.

(** The [o] loop of row [r], from column [o] on. *)
Lemma row_steps x r mm :
  r < x_M x -> x_O x < 2 ^ 32 ->
  forall (k : nat) (o : nat),
    Z.of_nat o + Z.of_nat k <= x_O x ->
    mult_steps k x (Running r (Z.of_nat o)) mm
    = (Running r (Z.of_nat (o + k)),
       fold_left
         (fun acc i =>
            store 32 acc (padd (x_pDstC x) (wrap32 (r * x_O x + Z.of_nat i)))
              (for_idx (x_N x)
                 (mult_acc (x_pSrcA x) (x_pSrcB x) (x_N x) r (Z.of_nat i) acc)
                 0))
         (seq o k) mm).
Proof.
  intros Hr HO k. revert mm. induction k as [|k IH]; intros mm o Hk.
  - cbn [mult_steps seq fold_left]. now rewrite Nat.add_0_r.
  - cbn [mult_steps mult_step seq fold_left].
    destruct (Z.ltb_spec r (x_M x)); [|lia].
    destruct (Z.ltb_spec (Z.of_nat o) (x_O x)); [|lia].
    rewrite wrap32_small by lia.
    replace (Z.of_nat o + 1) with (Z.of_nat (S o)) by lia.
    rewrite IH by lia. f_equal. f_equal. lia.
Qed.

(** The loops of a call are the steps of the core up to the barrier. *)
Lemma loops_are_steps x (fuel : nat) :
  0 <= x_O x < 2 ^ 32 ->
  forall r mm m1,
    for_pe fuel r (x_M x) (x_nPE x)
      (fun r =>
         for_idx (x_O x)
           (fun o mm =>
              store 32 mm (padd (x_pDstC x) (wrap32 (r * x_O x + o)))
                (for_idx (x_N x)
                   (mult_acc (x_pSrcA x) (x_pSrcB x) (x_N x) r o mm) 0)))
      mm = Some m1 ->
    exists n, mult_steps n x (Running r 0) mm = (AtBarrier, rt_team_barrier m1).
Proof.
  intros HO. induction fuel as [|fuel IH]; intros r mm m1; cbn [for_pe];
    destruct (Z.ltb_spec r (x_M x)) as [Hlt|Hge]; try discriminate.
  - intros [= <-]. exists 1%nat. cbn [mult_steps mult_step].
    destruct (Z.ltb_spec r (x_M x)); [lia|reflexivity].
  - intros H. destruct (IH _ _ _ H) as [n En].
    exists (Z.to_nat (x_O x) + (1 + n))%nat.
    rewrite mult_steps_add.
    pose proof (row_steps x r mm Hlt (proj2 HO) (Z.to_nat (x_O x)) 0%nat
                  ltac:(lia)) as Hrow.
    cbn [Z.of_nat Nat.add] in Hrow. rewrite Hrow.
    cbn [Nat.add mult_steps mult_step].
    destruct (Z.ltb_spec r (x_M x)); [|lia].
    rewrite Z2Nat.id by lia.
    destruct (Z.ltb_spec (x_O x) (x_O x)); [lia|]. exact En.
  - intros [= <-]. exists 1%nat. cbn [mult_steps mult_step].
    destruct (Z.ltb_spec r (x_M x)); [lia|reflexivity].
Qed.

(** *** The team: what holds whatever the schedule *)

(** The elements core [p] has stored when it is at [c]. *)
Definition done_by (x : plp_mat_mult_instance_i16) (p : Z) (c : pc)
  (r o : Z) : Prop :=
  0 <= r < x_M x /\ r mod x_nPE x = p /\ 0 <= o < x_O x /\
  match c with
  | Running r0 o0 => r < r0 \/ (r = r0 /\ o < o0)
  | _ => True
  end.

(** The counters of core [p] stay on its rows and within 32 bits. *)
Definition core_wf (x : plp_mat_mult_instance_i16) (p : Z) (c : pc) : Prop :=
  match c with
  | Running r o =>
      (exists j, 0 <= j /\ r = p + j * x_nPE x) /\
      r < x_M x + x_nPE x /\ 0 <= o /\ (r < x_M x -> o <= x_O x)
  | _ => True
  end.

Record team_inv (x : plp_mat_mult_instance_i16) (m0 : mem) (s : team_state)
  : Prop := {
  inv_wf : forall p, 0 <= p < x_nPE x -> core_wf x p (pcs s p);
  inv_src : agree (pblk (x_pDstC x)) m0 (tmem s);
  inv_done : forall p r o,
      0 <= p < x_nPE x -> done_by x p (pcs s p) r o ->
      cells (tmem s) (pblk (x_pDstC x)) (pofs (x_pDstC x) + r * x_O x + o)
      = sext 32 (dot x m0 r o);
  inv_barrier : forall p,
      0 <= p < x_nPE x -> pcs s p = Returned ->
      forall q, 0 <= q < x_nPE x -> arrived (pcs s q) = true }.

Lemma set_pc_same f p c : set_pc f p c p = c.
Proof. unfold set_pc. now rewrite Z.eqb_refl. Qed.

Lemma set_pc_other f p c q : q <> p -> set_pc f p c q = f q.
Proof. unfold set_pc. now destruct (Z.eqb_spec q p). Qed.

Lemma team_init_inv x m0 : mult_ok x -> team_inv x m0 (team_init m0).
Proof.
  intros Hok. pose proof (mo_M _ Hok). pose proof (mo_nPE _ Hok).
  pose proof (mo_rows _ Hok). pose proof (mo_O _ Hok).
  constructor; cbn [team_init pcs tmem].
  - intros p Hp. rewrite wrap32_small by lia. cbn [core_wf].
    split; [exists 0; lia|lia].
  - apply agree_refl.
  - intros p r o Hp [Hr [Hm [Ho Hd]]]. exfalso.
    rewrite wrap32_small in Hd by lia.
    rewrite Z.mod_small in Hm by lia. lia.
  - intros p _ Hr. discriminate Hr.
Qed.

(** While a core is in its loops nobody is back from the barrier. *)
Lemma nobody_back x m0 s p r o :
  team_inv x m0 s -> 0 <= p < x_nPE x -> pcs s p = Running r o ->
  forall q, 0 <= q < x_nPE x -> pcs s q <> Returned.
Proof.
  intros Hi Hp E q Hq Hr.
  pose proof (inv_barrier _ _ _ Hi q Hq Hr p Hp) as H.
  rewrite E in H. discriminate H.
Qed.

Lemma team_do_inv x m0 a s s' :
  mult_ok x -> x_O x < 2 ^ 32 ->
  team_inv x m0 s -> team_do x a s = Some s' -> team_inv x m0 s'.
Proof.
  intros Hok HO Hi.
  pose proof (mo_M _ Hok) as HM. pose proof (mo_nPE _ Hok) as HP.
  pose proof (mo_rows _ Hok) as HW. pose proof (mo_O _ Hok) as HO0.
  destruct a as [p|p]; cbn [team_do];
    (destruct ((0 <=? p) && (p <? x_nPE x)) eqn:Ep; [|discriminate]);
    apply andb_prop in Ep; destruct Ep as [Ep1 Ep2];
    apply Z.leb_le in Ep1; apply Z.ltb_lt in Ep2;
    assert (Hp : 0 <= p < x_nPE x) by lia.
  - destruct (pcs s p) as [r o| |] eqn:Ec; try discriminate.
    pose proof (inv_wf _ _ _ Hi p Hp) as Hwf. rewrite Ec in Hwf.
    destruct Hwf as [[j [Hj Er]] [Hr [Ho0 Ho]]].
    pose proof (nobody_back x m0 s p r o Hi Hp Ec) as Hnb.
    cbn [mult_step].
    destruct (Z.ltb_spec r (x_M x)) as [Hlt|Hge];
      [destruct (Z.ltb_spec o (x_O x)) as [Hol|Hog]|]; intros [= <-].
    + (* the store of an element *)
      assert (Hr0 : 0 <= r) by nia.
      rewrite wrap32_small by lia.
      rewrite wrap32_small
        by (apply (index_small _ _ (x_M x)); [lia|lia|apply (mo_C _ Hok)]).
      constructor; cbn [pcs tmem].
      * intros q Hq. destruct (Z.eq_dec q p) as [->|Hn].
        -- rewrite set_pc_same. cbn [core_wf].
           split; [exists j; lia|lia].
        -- rewrite set_pc_other by exact Hn. apply (inv_wf _ _ _ Hi q Hq).
      * intros b i Hb. cbn [store cells padd pblk pofs].
        destruct (Pos.eqb_spec b (pblk (x_pDstC x))); [contradiction|].
        cbn [andb]. apply (inv_src _ _ _ Hi b i Hb).
      * intros q r' o' Hq Hd. cbn [store cells padd pblk pofs].
        rewrite Pos.eqb_refl. cbn [andb].
        destruct (Z.eqb_spec (pofs (x_pDstC x) + r' * x_O x + o')
                             (pofs (x_pDstC x) + (r * x_O x + o))) as [Ei|Ei].
        -- destruct Hd as [Hr' [_ [Ho' _]]].
           assert (r' = r) by nia. subst r'. assert (o' = o) by lia. subst o'.
           apply mult_acc_dot; [exact Hok|apply (inv_src _ _ _ Hi)|lia|lia].
        -- apply (inv_done _ _ _ Hi q r' o' Hq).
           destruct (Z.eq_dec q p) as [->|Hn].
           ++ rewrite set_pc_same in Hd. rewrite Ec.
              destruct Hd as [Hr' [Hm' [Ho' Hd]]].
              repeat (split; [assumption|]).
              destruct Hd as [Hd|[-> Hd]]; [now left|right].
              split; [reflexivity|].
              assert (o' <> o) by (intros ->; apply Ei; lia). lia.
           ++ now rewrite set_pc_other in Hd by exact Hn.
      * intros q Hq Eq. exfalso. destruct (Z.eq_dec q p) as [->|Hn].
        -- rewrite set_pc_same in Eq. discriminate Eq.
        -- rewrite set_pc_other in Eq by exact Hn. now apply (Hnb q Hq).
    + (* the next row *)
      assert (Hr0 : 0 <= r) by nia.
      rewrite wrap32_small by lia.
      assert (Eo : o = x_O x) by lia. subst o.
      constructor; cbn [pcs tmem].
      * intros q Hq. destruct (Z.eq_dec q p) as [->|Hn].
        -- rewrite set_pc_same. cbn [core_wf].
           split; [exists (j + 1); lia|lia].
        -- rewrite set_pc_other by exact Hn. apply (inv_wf _ _ _ Hi q Hq).
      * apply (inv_src _ _ _ Hi).
      * intros q r' o' Hq Hd. apply (inv_done _ _ _ Hi q r' o' Hq).
        destruct (Z.eq_dec q p) as [->|Hn].
        -- rewrite set_pc_same in Hd. rewrite Ec.
           destruct Hd as [Hr' [Hm' [Ho' Hd]]].
           repeat (split; [assumption|]).
           destruct Hd as [Hd|[_ Hd]]; [|lia].
           assert (r' <= r); [|lia].
           destruct (Z_le_gt_dec r' r) as [Hle|Hgt]; [exact Hle|exfalso].
           pose proof (Z.div_mod r' (x_nPE x) ltac:(lia)) as Hdm.
           rewrite Hm' in Hdm.
           assert (j < r' / x_nPE x) by nia.
           assert (r' / x_nPE x < j + 1) by nia. lia.
        -- now rewrite set_pc_other in Hd by exact Hn.
      * intros q Hq Eq. exfalso. destruct (Z.eq_dec q p) as [->|Hn].
        -- rewrite set_pc_same in Eq. discriminate Eq.
        -- rewrite set_pc_other in Eq by exact Hn. now apply (Hnb q Hq).
    + (* the call of the barrier *)
      constructor; cbn [pcs tmem rt_team_barrier cells].
      * intros q Hq. destruct (Z.eq_dec q p) as [->|Hn].
        -- now rewrite set_pc_same.
        -- rewrite set_pc_other by exact Hn. apply (inv_wf _ _ _ Hi q Hq).
      * intros b i Hb. cbn [cells]. apply (inv_src _ _ _ Hi b i Hb).
      * intros q r' o' Hq Hd. apply (inv_done _ _ _ Hi q r' o' Hq).
        destruct (Z.eq_dec q p) as [->|Hn].
        -- rewrite Ec. destruct Hd as [Hr' [Hm' [Ho' _]]].
           repeat (split; [assumption|]). left. lia.
        -- now rewrite set_pc_other in Hd by exact Hn.
      * intros q Hq Eq. exfalso. destruct (Z.eq_dec q p) as [->|Hn].
        -- rewrite set_pc_same in Eq. discriminate Eq.
        -- rewrite set_pc_other in Eq by exact Hn. now apply (Hnb q Hq).
  - destruct (pcs s p) as [r o| |] eqn:Ec; try discriminate.
    destruct (forallb _ _) eqn:Ef; [|discriminate]. intros [= <-].
    assert (Hall : forall q, 0 <= q < x_nPE x -> arrived (pcs s q) = true).
    { intros q Hq. rewrite forallb_forall in Ef.
      specialize (Ef (Z.to_nat q)). rewrite Z2Nat.id in Ef by lia.
      apply Ef, in_seq. lia. }
    constructor; cbn [pcs tmem].
    + intros q Hq. destruct (Z.eq_dec q p) as [->|Hn].
      * now rewrite set_pc_same.
      * rewrite set_pc_other by exact Hn. apply (inv_wf _ _ _ Hi q Hq).
    + apply (inv_src _ _ _ Hi).
    + intros q r' o' Hq Hd. apply (inv_done _ _ _ Hi q r' o' Hq).
      destruct (Z.eq_dec q p) as [->|Hn].
      * rewrite Ec. destruct Hd as [Hr' [Hm' [Ho' _]]]. now repeat split.
      * now rewrite set_pc_other in Hd by exact Hn.
    + intros q Hq _ q' Hq'. destruct (Z.eq_dec q' p) as [->|Hn].
      * now rewrite set_pc_same.
      * rewrite set_pc_other by exact Hn. apply Hall, Hq'.
Qed.

Lemma team_run_inv x m0 l :
  mult_ok x -> x_O x < 2 ^ 32 ->
  forall s s', team_inv x m0 s -> team_run x l s = Some s' -> team_inv x m0 s'.
Proof.
  intros Hok HO. induction l as [|a l IH]; intros s s' Hi; cbn [team_run].
  - now intros [= <-].
  - destruct (team_do x a s) as [s1|] eqn:E; [|discriminate].
    apply IH. exact (team_do_inv x m0 a s s1 Hok HO Hi E).
Qed.

(** Once a core is back, every core has called the barrier and the whole
    product is in [pDstC]. *)
Lemma back_means_complete x m0 s p :
  mult_ok x -> team_inv x m0 s -> 0 <= p < x_nPE x -> pcs s p = Returned ->
  (forall q, 0 <= q < x_nPE x -> arrived (pcs s q) = true) /\
  (forall m o, 0 <= m < x_M x -> 0 <= o < x_O x ->
     load 32 (tmem s) (padd (x_pDstC x) (m * x_O x + o))
     = sext 32 (dot x m0 m o)).
Proof.
  intros Hok Hi Hp Er. pose proof (mo_nPE _ Hok) as HP.
  pose proof (inv_barrier _ _ _ Hi p Hp Er) as Hall.
  split; [exact Hall|]. intros m o Hm Ho.
  pose proof (Z.mod_pos_bound m (x_nPE x) ltac:(lia)) as Hq.
  unfold load. cbn [padd pblk pofs]. rewrite Z.add_assoc.
  rewrite (inv_done _ _ _ Hi (m mod x_nPE x) m o Hq).
  - apply sext_idem.
  - repeat (split; [lia|]). specialize (Hall _ Hq).
    destruct (pcs s (m mod x_nPE x)); [discriminate Hall|exact I|exact I].
Qed.

(** *** The team does come back *)

Lemma team_run_app x l1 l2 s :
  team_run x (l1 ++ l2) s
  = match team_run x l1 s with
    | Some s1 => team_run x l2 s1
    | None => None
    end.
Proof.
  revert s. induction l1 as [|a l1 IH]; intros s; cbn [app team_run].
  - reflexivity.
  - destruct (team_do x a s); [apply IH|reflexivity].
Qed.

Lemma mult_steps_waiting n x mm : mult_steps n x AtBarrier mm = (AtBarrier, mm).
Proof. induction n as [|n IH]; [reflexivity|exact IH]. Qed.

(** The steps of one core up to the barrier, as a schedule of the team. *)
Lemma core_to_barrier x p :
  0 <= p < x_nPE x ->
  forall (n : nat) c mm mm' s,
    pcs s p = c -> tmem s = mm -> c <> Returned ->
    mult_steps n x c mm = (AtBarrier, mm') ->
    exists l s',
      team_run x l s = Some s' /\ pcs s' p = AtBarrier /\
      (forall q, q <> p -> pcs s' q = pcs s q) /\ tmem s' = mm'.
Proof.
  intros Hp. induction n as [|n IH]; intros c mm mm' s Ec Em Hc.
  - cbn [mult_steps]. intros [= -> ->]. exists [], s. now repeat split.
  - destruct c as [r o| |]; [| |contradiction].
    + cbn [mult_steps]. destruct (mult_step x (Running r o) mm) as [c1 mm1] eqn:E1.
      intros Hn.
      assert (Hc1 : c1 <> Returned).
      { cbn [mult_step] in E1.
        destruct (r <? x_M x); [destruct (o <? x_O x)|];
          injection E1 as <- _; discriminate. }
      destruct (IH c1 mm1 mm' (mk_team (set_pc (pcs s) p c1) mm1))
        as [l [s' [El [Eb [Eo Et]]]]];
        [apply set_pc_same|reflexivity|exact Hc1|exact Hn|].
      exists (Step p :: l), s'. split; [|split; [exact Eb|split; [|exact Et]]].
      * cbn [team_run team_do].
        destruct (Z.leb_spec 0 p); [|lia]. destruct (Z.ltb_spec p (x_nPE x)); [|lia].
        cbn [andb]. rewrite Ec, Em, E1. exact El.
      * intros q Hq. rewrite (Eo q Hq). cbn [pcs]. now apply set_pc_other.
    + rewrite mult_steps_waiting. intros [= <-].
      exists [], s. now repeat split.
Qed.

(** All cores, one after the other, up to the barrier. *)
Lemma all_to_barrier x m0 :
  mult_ok x -> x_O x < 2 ^ 32 ->
  forall k : nat, Z.of_nat k <= x_nPE x ->
  exists l s,
    team_run x l (team_init m0) = Some s /\
    (forall q, 0 <= q < Z.of_nat k -> pcs s q = AtBarrier) /\
    (forall q, Z.of_nat k <= q -> pcs s q = Running (wrap32 q) 0).
Proof.
  intros Hok HO. induction k as [|k IH]; intros Hk.
  - exists [], (team_init m0). split; [reflexivity|]. split; [lia|].
    intros q _. reflexivity.
  - destruct (IH ltac:(lia)) as [l [s [El [Hb Hr]]]].
    assert (Hp : 0 <= Z.of_nat k < x_nPE x) by lia.
    destruct (mult_rows x (Z.to_nat (x_M x)) (Z.of_nat k) (tmem s) Hok Hp)
      as [m1 [E1 _]]; [pose proof (mo_M _ Hok); lia|].
    destruct (loops_are_steps x _ (conj (mo_O _ Hok) HO) _ _ _ E1) as [n En].
    destruct (core_to_barrier x (Z.of_nat k) Hp n _ _ _ s
                (Hr _ (Z.le_refl _)) eq_refl ltac:(discriminate) En)
      as [l' [s' [El' [Eb [Eo _]]]]].
    exists (l ++ l'), s'. split; [|split].
    + now rewrite team_run_app, El.
    + intros q Hq. destruct (Z.eq_dec q (Z.of_nat k)) as [->|Hn];
        [exact Eb|]. rewrite (Eo q Hn). apply Hb. lia.
    + intros q Hq. rewrite (Eo q ltac:(lia)). apply Hr. lia.
Qed.

(** Once all cores are in the barrier they come back, one after the
    other. *)
Lemma release_all x s :
  (forall q, 0 <= q < x_nPE x -> pcs s q = AtBarrier) ->
  forall k : nat, Z.of_nat k <= x_nPE x ->
  exists l s',
    team_run x l s = Some s' /\
    (forall q, 0 <= q < Z.of_nat k -> pcs s' q = Returned) /\
    (forall q, Z.of_nat k <= q < x_nPE x -> pcs s' q = AtBarrier).
Proof.
  intros Hall. induction k as [|k IH]; intros Hk.
  - exists [], s. split; [reflexivity|]. split; [lia|].
    intros q Hq. apply Hall. lia.
  - destruct (IH ltac:(lia)) as [l [s1 [El [Hr Hb]]]].
    exists (l ++ [Release (Z.of_nat k)]),
           (mk_team (set_pc (pcs s1) (Z.of_nat k) Returned) (tmem s1)).
    split; [|split].
    + rewrite team_run_app, El. cbn [team_run team_do].
      destruct (Z.leb_spec 0 (Z.of_nat k)); [|lia].
      destruct (Z.ltb_spec (Z.of_nat k) (x_nPE x)); [|lia]. cbn [andb].
      rewrite (Hb (Z.of_nat k)) by lia.
      replace (forallb _ _) with true; [reflexivity|].
      symmetry. apply forallb_forall. intros q Hq. apply in_seq in Hq.
      destruct (Z_lt_ge_dec (Z.of_nat q) (Z.of_nat k)).
      * now rewrite Hr by lia.
      * now rewrite Hb by lia.
    + intros q Hq. cbn [pcs]. destruct (Z.eq_dec q (Z.of_nat k)) as [->|Hn].
      * apply set_pc_same.
      * rewrite set_pc_other by exact Hn. apply Hr. lia.
    + intros q Hq. cbn [pcs]. rewrite set_pc_other by lia. apply Hb. lia.
Qed.

Lemma team_comes_back x m0 :
  mult_ok x -> x_O x < 2 ^ 32 ->
  exists l s,
    team_run x l (team_init m0) = Some s /\
    forall q, 0 <= q < x_nPE x -> pcs s q = Returned.
Proof.
  intros Hok HO. pose proof (mo_nPE _ Hok) as HP.
  destruct (all_to_barrier x m0 Hok HO (Z.to_nat (x_nPE x)) ltac:(lia))
    as [l1 [s1 [E1 [Hb _]]]].
  destruct (release_all x s1) with (k := Z.to_nat (x_nPE x))
    as [l2 [s2 [E2 [Hr _]]]]; [intros q Hq; apply Hb; lia|lia|].
  exists (l1 ++ l2), s2. split.
  - now rewrite team_run_app, E1.
  - intros q Hq. apply Hr. lia.
Qed.

(** C9: A call of the parallel transposed matrix multiplication performs
    exactly one barrier rendezvous, after all the stores of the call, so no
    core comes back from the kernel before all rows are complete; a call of
    a parallel elementwise add / sub / copy kernel performs stores only, no
    barrier. In the order of the conjuncts: the events of one call of the
    multiplication are its stores and then one barrier; those of an
    elementwise call are stores; a call is the steps of its core up to the
    barrier; whatever the schedule of the team, once a core is back from the
    barrier every core has called it and [pDstC] holds the whole product;
    and the team can come back. *)
Theorem barrier_placement :
  (forall fuel core_id x m0,
     mult_ok x -> 0 <= core_id < x_nPE x -> x_M x <= Z.of_nat fuel ->
     exists m' evs,
       plp_mat_mult_trans_i16vp_xpulpv2 fuel core_id x m0 = Some m' /\
       trace m' = EvBarrier :: evs ++ trace m0 /\ Forall is_store evs) /\
  (forall k fuel core_id a m0,
     is_parallel k = true -> call_ok k a -> 0 <= core_id < a_nPE a ->
     a_M a <= Z.of_nat fuel ->
     exists m' evs,
       run k fuel core_id a m0 = Some m' /\
       trace m' = evs ++ trace m0 /\ Forall is_store evs) /\
  (forall fuel core_id x m0 m',
     0 <= x_O x < 2 ^ 32 ->
     plp_mat_mult_trans_i16vp_xpulpv2 fuel core_id x m0 = Some m' ->
     exists n,
       mult_steps n x (Running (wrap32 core_id) 0) m0 = (AtBarrier, m')) /\
  (forall x m0 l s core_id,
     mult_ok x -> x_O x < 2 ^ 32 ->
     team_run x l (team_init m0) = Some s ->
     0 <= core_id < x_nPE x -> pcs s core_id = Returned ->
     (forall q, 0 <= q < x_nPE x -> arrived (pcs s q) = true) /\
     (forall m o, 0 <= m < x_M x -> 0 <= o < x_O x ->
        load 32 (tmem s) (padd (x_pDstC x) (m * x_O x + o))
        = sext 32 (dot x m0 m o))) /\
  (forall x m0,
     mult_ok x -> x_O x < 2 ^ 32 ->
     exists l s,
       team_run x l (team_init m0) = Some s /\
       forall q, 0 <= q < x_nPE x -> pcs s q = Returned).
Proof.
  split; [|split; [|split; [|split]]].
  - intros fuel p x m0 Hok Hp Hf.
    destruct (mult_rows x fuel p m0 Hok Hp Hf) as [m1 [E He]].
    destruct (mat_trace _ _ _ _ _ _ _ _ He) as [evs [Ht Hev]].
    exists (rt_team_barrier m1), evs. split; [|split].
    + unfold plp_mat_mult_trans_i16vp_xpulpv2. cbv zeta. now rewrite E.
    + cbn [rt_team_barrier trace]. now rewrite Ht.
    + eapply Forall_impl; [|exact Hev]. now intros e [r [c [_ [_ ->]]]].
  - intros k fuel p a m0 Hk Hok Hp Hf.
    assert (Hp' : 0 <= p < team k a) by (unfold team; now rewrite Hk).
    destruct (run_ok k fuel p a m0 Hok Hp' Hf) as [m' [E He]].
    destruct (owes_trace k a m0 _ m' He) as [evs [Ht Hev]].
    exists m', evs. split; [exact E|]. split; [exact Ht|].
    eapply Forall_impl; [|exact Hev]. now intros e [r [c [_ [_ ->]]]].
  - intros fuel p x m0 m' HO. unfold plp_mat_mult_trans_i16vp_xpulpv2.
    cbv zeta.
    destruct (for_pe fuel (wrap32 p) (x_M x) (x_nPE x) _ m0) as [m1|] eqn:E;
      [|discriminate].
    intros [= <-]. exact (loops_are_steps x fuel HO _ _ _ E).
  - intros x m0 l s p Hok HO El Hp Er.
    apply (back_means_complete x m0 s p Hok); [|exact Hp|exact Er].
    exact (team_run_inv x m0 l Hok HO _ _ (team_init_inv x m0 Hok) El).
  - intros x m0 Hok HO. exact (team_comes_back x m0 Hok HO).
Qed.

Lemma barrier_placement_witness :
  (exists m' evs,
     plp_mat_mult_trans_i16vp_xpulpv2 3 0 demo_mult demo_mem = Some m' /\
     trace m' = EvBarrier :: evs ++ trace demo_mem /\ Forall is_store evs) /\
  (exists m' evs,
     run add_i16p_xpulpv2 3 1 demo_call demo_mem = Some m' /\
     trace m' = evs ++ trace demo_mem /\ Forall is_store evs) /\
  (exists s,
     team_run demo_mult demo_schedule (team_init demo_mem) = Some s /\
     pcs s 0 = Returned /\
     (forall q, 0 <= q < x_nPE demo_mult -> arrived (pcs s q) = true) /\
     (forall m o, 0 <= m < x_M demo_mult -> 0 <= o < x_O demo_mult ->
        load 32 (tmem s) (padd (x_pDstC demo_mult) (m * x_O demo_mult + o))
        = sext 32 (dot demo_mult demo_mem m o))).
Proof.
  split; [|split].
  - apply (proj1 barrier_placement 3%nat 0 demo_mult demo_mem demo_mult_ok);
      simpl; lia.
  - apply (proj1 (proj2 barrier_placement) add_i16p_xpulpv2 3%nat 1 demo_call
             demo_mem eq_refl (demo_call_ok _)); simpl; lia.
  - destruct (team_run demo_mult demo_schedule (team_init demo_mem))
      as [s|] eqn:E; [|discriminate E].
    assert (Er : pcs s 0 = Returned).
    { cbn in E. injection E as <-. reflexivity. }
    exists s. split; [reflexivity|]. split; [exact Er|].
    apply (proj1 (proj2 (proj2 (proj2 barrier_placement))) demo_mult demo_mem
             demo_schedule s 0 demo_mult_ok); [simpl; lia|exact E|simpl; lia
                                              |exact Er].
Defined.

(** ** Packed arithmetic *)

(** C5: In the SIMD-packed add and subtract kernels every output element is
    the sum or difference of its two input elements modulo 2^w (w = 8 or 16
    the lane width), as native scalar arithmetic at that width gives it:
    each lane of the packed primitive is computed from the same lane of its
    operands alone, it wraps and does not saturate, and nothing is carried
    into the next lane. *)
Theorem packed_wraparound :
  (forall k fuel a m0,
     is_simd k = true -> call_ok k a -> a_M a <= Z.of_nat fuel ->
     exists m', run_all k fuel a m0 = Some m' /\
       forall m n, 0 <= m < a_M a -> 0 <= n < a_N a ->
         let x := load (width_of k) m0
                       (padd (a_pSrcA a) (m * a_strideA a + n)) in
         let y := load (width_of k) m0
                       (padd (a_pSrcB a) (m * a_strideB a + n)) in
         load (width_of k) m' (padd (a_pDst a) (m * a_strideY a + n))
         = match operator_of k with
           | OpSub => sext (width_of k) (x - y)
           | _ => sext (width_of k) (x + y)
           end) /\
  (forall x y i, i = 0 \/ i = 1 ->
     lane 16 i (ADD2 x y) = (lane 16 i x + lane 16 i y) mod 2 ^ 16 /\
     lane 16 i (SUB2 x y) = (lane 16 i x - lane 16 i y) mod 2 ^ 16) /\
  (forall x y i, i = 0 \/ i = 1 \/ i = 2 \/ i = 3 ->
     lane 8 i (ADD4 x y) = (lane 8 i x + lane 8 i y) mod 2 ^ 8) /\
  sext 16 (lane 16 0 (ADD2 (pack2 32767 0) (pack2 1 0))) = - 32768 /\
  lane 16 1 (ADD2 (pack2 65535 0) (pack2 1 0)) = 0.
Proof.
  split; [|split; [|split; [|split]]].
  - intros k fuel a m0 Hs Hok Hf.
    destruct (elementwise_spec k fuel a m0 Hok Hf) as [m' [E H]].
    exists m'. split; [exact E|]. intros m n Hm Hn. cbv zeta.
    rewrite (H m n Hm Hn). destruct k; try discriminate; reflexivity.
  - intros x y i [-> | ->]; unfold ADD2, SUB2;
      now rewrite ?lane2_0_pack, ?lane2_1_pack.
  - intros x y i Hi. unfold ADD4.
    match goal with |- context [pack4 ?a ?b ?c ?d] =>
      pose proof (lane4_pack a b c d) as [H0 [H1 [H2 H3]]] end.
    destruct Hi as [-> |[-> |[-> | ->]]]; assumption.
  - reflexivity.
  - reflexivity.
Qed.

Lemma packed_wraparound_witness :
  is_simd (sub_i16s_xpulpv2 false) = true /\
  call_ok (sub_i16s_xpulpv2 false) demo_call /\
  a_M demo_call <= Z.of_nat 3 /\
  exists m', run_all (sub_i16s_xpulpv2 false) 3 demo_call demo_mem
             = Some m' /\
    forall m n, 0 <= m < a_M demo_call -> 0 <= n < a_N demo_call ->
      let x := load 16 demo_mem
                 (padd (a_pSrcA demo_call) (m * a_strideA demo_call + n)) in
      let y := load 16 demo_mem
                 (padd (a_pSrcB demo_call) (m * a_strideB demo_call + n)) in
      load 16 m' (padd (a_pDst demo_call) (m * a_strideY demo_call + n))
      = sext 16 (x - y).
Proof.
  split; [reflexivity|]. split; [apply demo_call_ok|].
  split; [simpl; lia|].
  apply (proj1 packed_wraparound (sub_i16s_xpulpv2 false) 3%nat demo_call
           demo_mem eq_refl (demo_call_ok _)).
  simpl. lia.
Defined.

(** ** The frame of a call *)

(** Every kernel but the unrolled 16-bit RV32IM copy leaves all memory
    outside the destination view as it was and stores nowhere else; so does
    that copy when M is even. *)
Lemma frame_ok k fuel a m0 :
  call_ok k a -> a_M a <= Z.of_nat fuel ->
  (k = copy_i16s_rv32im true -> a_M a mod 2 = 0) ->
  exists m', run_all k fuel a m0 = Some m' /\
    (forall b i,
       (b <> pblk (a_pDst a) \/
        ~ exists r c, 0 <= r < a_M a /\ 0 <= c < a_N a /\
                      i = pofs (a_pDst a) + r * a_strideY a + c) ->
       cells m' b i = cells m0 b i) /\
    (exists evs, trace m' = evs ++ trace m0 /\
       Forall (fun e => exists r c, 0 <= r < a_M a /\ 0 <= c < a_N a /\
                 e = EvStore (pblk (a_pDst a))
                             (pofs (a_pDst a) + r * a_strideY a + c)) evs).
Proof.
  intros Hok Hf Hk.
  destruct (run_all_ok k fuel a m0 Hok Hf) as [m' [E He]].
  assert (HR : forall r, all_rows k a r -> 0 <= r < a_M a).
  { intros r. destruct k as [u|u|u| | |u| | |u|u|u]; simpl; auto.
    destruct u; simpl; auto. rewrite (Hk eq_refl). lia. }
  exists m'. split; [exact E|]. split.
  - intros b i H. apply (owes_frame k a m0 _ m' b i He).
    destruct H as [H|H]; [now left|right].
    intros [r [c [Hr Hc]]]. apply H. exists r, c. split; [now apply HR|exact Hc].
  - destruct (owes_trace k a m0 _ m' He) as [evs [Ht Hev]].
    exists evs. split; [exact Ht|]. eapply Forall_impl; [|exact Hev].
    intros e [r [c [Hr Hc]]]. exists r, c. split; [now apply HR|exact Hc].
Qed.

(** C4: Every kernel call leaves all memory outside the logical M x N
    destination view unchanged. Not so the unrolled 16-bit RV32IM copy: with
    M = N = 1 and strides 1 it also stores [pSrc[1]] to [pDst[1]], an
    element of row 1 = M; its plain build and the unrolled 8-bit copy leave
    that element alone. *)
Theorem frame_violation :
  let m' := plp_mat_copy_stride_i16s_rv32im true (mkptr 1%positive 0) 1 1 1 1
                                            (mkptr 3%positive 0) one_by_one in
  cells one_by_one 3%positive 1 = 0 /\ cells m' 3%positive 1 = 20 /\
  trace m' = [EvStore 3%positive 1; EvStore 3%positive 0] /\
  cells (plp_mat_copy_stride_i16s_rv32im false (mkptr 1%positive 0) 1 1 1 1
           (mkptr 3%positive 0) one_by_one) 3%positive 1 = 0 /\
  cells (plp_mat_copy_stride_i8s_rv32im true (mkptr 1%positive 0) 1 1 1 1
           (mkptr 3%positive 0) one_by_one) 3%positive 1 = 0.
Proof. repeat split. Qed.

(** ** The square root *)

Lemma rounded_negative_not_positive m e l :
  SFltb f32_zero (binary_round_aux 24 128 true m e l) = false.
Proof.
  unfold binary_round_aux.
  destruct (shr_fexp 24 128 m e l) as [mrs e'].
  destruct (shr_fexp 24 128 _ e' loc_Exact) as [mrs' e''].
  destruct (shr_m mrs') as [|q|q]; try reflexivity.
  destruct (e'' <=? 128 - 24); reflexivity.
Qed.

Lemma half_of_nonpositive x :
  SFleb x f32_zero = true -> SFltb f32_zero (f32_div x f32_two) = false.
Proof.
  destruct x as [s|s| |s m e]; try discriminate.
  - now destruct s.
  - now destruct s.
  - destruct s; [|discriminate]. intros _.
    unfold f32_div, f32_two, SFdiv.
    destruct (SFdiv_core_binary 24 128 (Z.pos m) e 8388608 (-22))
      as [[mz ez] lz].
    apply rounded_negative_not_positive.
Qed.

(** C6: For every input <= 0, zero and negative alike, the kernel writes
    exactly 0.0; the kernel is a total function, so it returns for every
    input, and what it returns here is not a NaN. *)
Theorem sqrt_nonpositive :
  forall x, SFleb x f32_zero = true ->
            plp_sqrt_f32s_xpulpv2 x = S754_zero false.
Proof.
  intros x Hx. unfold plp_sqrt_f32s_xpulpv2. cbv zeta.
  now rewrite (half_of_nonpositive x Hx).
Qed.

Lemma sqrt_nonpositive_witness :
  SFleb f32_minus_four f32_zero = true /\
  plp_sqrt_f32s_xpulpv2 f32_minus_four = S754_zero false.
Proof.
  split; [reflexivity|].
  apply (sqrt_nonpositive f32_minus_four). reflexivity.
Defined.


(** C7: For every positive x the kernel returns x times the result of 15
    Newton-Raphson steps from the seed 1/(2x), and this is within a small
    tolerance of sqrt(x) for x from 1e-6 to 1e6. The first half is what the
    code does at x = 1e6 and x = 1/16; the second fails there: the square
    root of 1e6 is 1000 and the kernel returns less than 217, the square
    root of 1/16 is 1/4 and the kernel returns -1/4. *)
Theorem sqrt_out_of_tolerance :
  SFsqrt 24 128 f32_million = f32_thousand /\
  plp_sqrt_f32s_xpulpv2 f32_million
  = f32_mul (for_n 15 (newton_step (f32_div f32_million f32_two))
                   (f32_div f32_one (f32_mul f32_two f32_million)))
            f32_million /\
  plp_sqrt_f32s_xpulpv2 f32_million = S754_finite false 14167626 (-16) /\
  SFltb (plp_sqrt_f32s_xpulpv2 f32_million) f32_217 = true /\
  plp_sqrt_f32s_xpulpv2 f32_sixteenth = f32_minus_quarter.
Proof. repeat split; vm_compute; reflexivity. Qed.

(** * Further properties of the kernels *)

(** ** The memory after a call is determined *)

(** A target that gives every offset at most one value. *)
Definition functional (T : target) : Prop :=
  forall i v v', T i v -> T i v' -> v = v'.

Lemma Tmat_functional rv D sY N R : N <= sY -> functional (Tmat rv D sY N R).
Proof.
  intros HN i v v' [r [_ [c [Hc [Hi Hv]]]]] [r' [_ [c' [Hc' [Hi' Hv']]]]].
  assert (r = r') by nia. subst r'. assert (c = c') by lia. subst c'.
  congruence.
Qed.

(** Two runs from the same memory with the same functional target end in
    the same cells. *)
Lemma eff_cells_eq bD T T' m m1 m2 :
  t_eq T T' -> functional T -> eff bD T m m1 -> eff bD T' m m2 ->
  forall b i, cells m1 b i = cells m2 b i.
Proof.
  intros E F [H1 _] [H2 _] b i.
  destruct (H1 b i) as [[Hb V1]|[N1 E1]]; destruct (H2 b i) as [[Hb' V2]|[N2 E2]].
  - apply (F i); [exact V1|now apply E].
  - exfalso. apply N2. split; [exact Hb|]. exists (cells m1 b i).
    now apply E.
  - exfalso. apply N1. split; [exact Hb'|]. exists (cells m2 b i).
    now apply E.
  - congruence.
Qed.

Lemma owes_cells_eq k1 k2 a m0 R1 R2 m1 m2 :
  operator_of k1 = operator_of k2 -> width_of k1 = width_of k2 ->
  a_N a <= a_strideY a -> (forall r, R1 r <-> R2 r) ->
  owes k1 a m0 R1 m1 -> owes k2 a m0 R2 m2 ->
  forall b i, cells m1 b i = cells m2 b i.
Proof.
  unfold owes. intros Eo Ew HN ER H1 H2. rewrite Eo, Ew in H1.
  eapply eff_cells_eq; [|apply Tmat_functional; exact HN|exact H1|exact H2].
  apply Tmat_equiv, ER.
Qed.

(** X1: Two kernels with the same operator and element width -- the two
    builds of one kernel, its RV32IM and XPULPV2 versions, the scalar kernel
    and the parallel one run by its whole team -- leave the same memory,
    cell for cell, when given the same call; the build of the 16-bit RV32IM
    copy with [PLP_MATH_LOOPUNROLL] is among them for an even [M] only. *)
Theorem variants_agree :
  forall k1 k2 fuel a m0,
    operator_of k1 = operator_of k2 -> width_of k1 = width_of k2 ->
    call_ok k1 a -> call_ok k2 a -> a_M a <= Z.of_nat fuel ->
    (k1 = copy_i16s_rv32im true \/ k2 = copy_i16s_rv32im true ->
     a_M a mod 2 = 0) ->
    exists m1 m2,
      run_all k1 fuel a m0 = Some m1 /\ run_all k2 fuel a m0 = Some m2 /\
      forall b i, cells m1 b i = cells m2 b i.
Proof.
  intros k1 k2 fuel a m0 Eo Ew Hok1 Hok2 Hf Hev.
  destruct (run_all_ok k1 fuel a m0 Hok1 Hf) as [m1 [E1 He1]].
  destruct (run_all_ok k2 fuel a m0 Hok2 Hf) as [m2 [E2 He2]].
  exists m1, m2. split; [exact E1|]. split; [exact E2|].
  apply (owes_cells_eq k1 k2 a m0 (all_rows k1 a) (all_rows k2 a) m1 m2 Eo Ew
           (ok_strideY _ _ Hok1)); [|exact He1|exact He2].
  assert (HR : forall k, (k = copy_i16s_rv32im true -> a_M a mod 2 = 0) ->
             forall r, all_rows k a r <-> 0 <= r < a_M a).
  { intros k Hk r. destruct k as [u|u|u| | |u| | |u|u|u]; simpl; try reflexivity.
    destruct u; simpl; try reflexivity. rewrite (Hk eq_refl). lia. }
  intros r. rewrite (HR k1), (HR k2); [reflexivity|auto|auto].
Qed.

Lemma variants_agree_witness :
  exists m1 m2,
    run_all copy_i16p_xpulpv2 3 demo_call demo_mem = Some m1 /\
    run_all (copy_i16s_rv32im false) 3 demo_call demo_mem = Some m2 /\
    forall b i, cells m1 b i = cells m2 b i.
Proof.
  apply (variants_agree copy_i16p_xpulpv2 (copy_i16s_rv32im false) 3%nat
           demo_call demo_mem eq_refl eq_refl (demo_call_ok _)
           (demo_call_ok _)).
  - simpl. lia.
  - intros [H|H]; discriminate H.
Defined.

(** ** What a call leaves alone *)

(** X2: One call of a kernel (of one core, for a parallel kernel) stores
    only to elements of the M x N destination view and leaves every other
    cell of the memory as it was; this holds for every kernel and build but
    the 16-bit RV32IM copy with [PLP_MATH_LOOPUNROLL] on an odd [M]. *)
Theorem call_frame :
  forall k fuel p a m0,
    call_ok k a -> 0 <= p < team k a -> a_M a <= Z.of_nat fuel ->
    (k = copy_i16s_rv32im true -> a_M a mod 2 = 0) ->
    exists m', run k fuel p a m0 = Some m' /\
      (forall b i,
         (b <> pblk (a_pDst a) \/
          ~ exists r c, 0 <= r < a_M a /\ 0 <= c < a_N a /\
                        i = pofs (a_pDst a) + r * a_strideY a + c) ->
         cells m' b i = cells m0 b i) /\
      (exists evs, trace m' = evs ++ trace m0 /\
         Forall (fun e => exists r c, 0 <= r < a_M a /\ 0 <= c < a_N a /\
                   e = EvStore (pblk (a_pDst a))
                               (pofs (a_pDst a) + r * a_strideY a + c)) evs).
Proof.
  intros k fuel p a m0 Hok Hp Hf Hk.
  destruct (run_ok k fuel p a m0 Hok Hp Hf) as [m' [E He]].
  assert (HR : forall r, written_rows k a p r -> 0 <= r < a_M a).
  { intros r. destruct k as [u|u|u| | |u| | |u|u|u]; simpl; try tauto.
    destruct u; simpl; auto. rewrite (Hk eq_refl). lia. }
  exists m'. split; [exact E|]. split.
  - intros b i H. apply (owes_frame k a m0 _ m' b i He).
    destruct H as [H|H]; [now left|right].
    intros [r [c [Hr Hc]]]. apply H. exists r, c. split; [now apply HR|exact Hc].
  - destruct (owes_trace k a m0 _ m' He) as [evs [Ht Hev]].
    exists evs. split; [exact Ht|]. eapply Forall_impl; [|exact Hev].
    intros e [r [c [Hr Hc]]]. exists r, c. split; [now apply HR|exact Hc].
Qed.

Lemma call_frame_witness :
  exists m', run (copy_i8s_rv32im true) 3 0 demo_call demo_mem = Some m' /\
    (forall b i,
       (b <> pblk (a_pDst demo_call) \/
        ~ exists r c, 0 <= r < a_M demo_call /\ 0 <= c < a_N demo_call /\
            i = pofs (a_pDst demo_call) + r * a_strideY demo_call + c) ->
       cells m' b i = cells demo_mem b i) /\
    (exists evs, trace m' = evs ++ trace demo_mem /\
       Forall (fun e => exists r c,
                 0 <= r < a_M demo_call /\ 0 <= c < a_N demo_call /\
                 e = EvStore (pblk (a_pDst demo_call))
                       (pofs (a_pDst demo_call) + r * a_strideY demo_call + c))
              evs).
Proof.
  apply (call_frame (copy_i8s_rv32im true) 3%nat 0 demo_call demo_mem
           (demo_call_ok _)).
  - unfold team. simpl. lia.
  - simpl. lia.
  - discriminate.
Defined.

(** The rows of a call lie between 0 and [M]. *)
Lemma written_rows_bound k a p r : written_rows k a p r -> 0 <= r <= a_M a.
Proof.
  pose proof (Z.mod_pos_bound (a_M a) 2 ltac:(lia)).
  destruct k as [u|u|u| | |u| | |u|u|u]; cbn [written_rows]; try lia.
  destruct u; lia.
Qed.

(** X3: Whatever the kernel and the build, every store of a call goes to a
    column below [N] of one of the rows [0 .. M] of the destination. So no
    store hits a padding column [N .. strideY-1] of any row, a cell before
    [pDst], or a cell from row [M + 1] on, and those cells keep their
    values. *)
Theorem padding_untouched :
  forall k fuel p a m0,
    call_ok k a -> 0 <= p < team k a -> a_M a <= Z.of_nat fuel ->
    exists m' evs, run k fuel p a m0 = Some m' /\
      trace m' = evs ++ trace m0 /\
      Forall (fun e => exists r c, 0 <= r <= a_M a /\ 0 <= c < a_N a /\
                e = EvStore (pblk (a_pDst a))
                            (pofs (a_pDst a) + r * a_strideY a + c)) evs /\
      (forall r c, a_N a <= c < a_strideY a ->
         ~ In (EvStore (pblk (a_pDst a))
                       (pofs (a_pDst a) + r * a_strideY a + c)) evs /\
         cells m' (pblk (a_pDst a)) (pofs (a_pDst a) + r * a_strideY a + c)
         = cells m0 (pblk (a_pDst a))
                 (pofs (a_pDst a) + r * a_strideY a + c)) /\
      (forall i, i < pofs (a_pDst a) \/
                 pofs (a_pDst a) + (a_M a + 1) * a_strideY a <= i ->
         ~ In (EvStore (pblk (a_pDst a)) i) evs /\
         cells m' (pblk (a_pDst a)) i = cells m0 (pblk (a_pDst a)) i).
Proof.
  intros k fuel p a m0 Hok Hp Hf.
  destruct (run_ok k fuel p a m0 Hok Hp Hf) as [m' [E He]].
  pose proof (ok_N _ _ Hok) as HN. pose proof (ok_strideY _ _ Hok) as HsY.
  destruct (owes_trace k a m0 _ m' He) as [evs [Ht Hev]].
  assert (Hst : Forall (fun e => exists r c,
                     0 <= r <= a_M a /\ 0 <= c < a_N a /\
                     e = EvStore (pblk (a_pDst a))
                           (pofs (a_pDst a) + r * a_strideY a + c)) evs).
  { eapply Forall_impl; [|exact Hev]. intros e [r [c [Hr Hc]]].
    exists r, c. split; [exact (written_rows_bound _ _ _ _ Hr)|exact Hc]. }
  exists m', evs. split; [exact E|]. split; [exact Ht|].
  split; [exact Hst|]. rewrite Forall_forall in Hst. split.
  - intros r c Hc. split.
    + intros Hin. destruct (Hst _ Hin) as [r' [c' [_ [Hc' [= Hi]]]]].
      assert (r = r' \/ r < r' \/ r' < r) as [->|[Hlt|Hlt]] by lia; nia.
    + apply (owes_frame k a m0 _ m' _ _ He). right.
      intros [r' [c' [_ [Hc' Hi]]]].
      assert (r = r' \/ r < r' \/ r' < r) as [->|[Hlt|Hlt]] by lia; nia.
  - intros i Hi. split.
    + intros Hin. destruct (Hst _ Hin) as [r [c [Hr [Hc [= ->]]]]].
      destruct Hi as [Hi|Hi]; nia.
    + apply (owes_frame k a m0 _ m' _ _ He). right.
      intros [r [c [Hr [Hc ->]]]]. apply written_rows_bound in Hr.
      destruct Hi as [Hi|Hi]; nia.
Qed.

Lemma padding_untouched_witness :
  exists m' evs,
    run (copy_i16s_rv32im true) 3 0 demo_call demo_mem = Some m' /\
    trace m' = evs ++ trace demo_mem /\
    Forall (fun e => exists r c,
              0 <= r <= a_M demo_call /\ 0 <= c < a_N demo_call /\
              e = EvStore (pblk (a_pDst demo_call))
                    (pofs (a_pDst demo_call) + r * a_strideY demo_call + c))
           evs /\
    (forall r c, a_N demo_call <= c < a_strideY demo_call ->
       ~ In (EvStore (pblk (a_pDst demo_call))
               (pofs (a_pDst demo_call) + r * a_strideY demo_call + c)) evs /\
       cells m' (pblk (a_pDst demo_call))
             (pofs (a_pDst demo_call) + r * a_strideY demo_call + c)
       = cells demo_mem (pblk (a_pDst demo_call))
               (pofs (a_pDst demo_call) + r * a_strideY demo_call + c)) /\
    (forall i, i < pofs (a_pDst demo_call) \/
               pofs (a_pDst demo_call)
               + (a_M demo_call + 1) * a_strideY demo_call <= i ->
       ~ In (EvStore (pblk (a_pDst demo_call)) i) evs /\
       cells m' (pblk (a_pDst demo_call)) i
       = cells demo_mem (pblk (a_pDst demo_call)) i).
Proof.
  apply (padding_untouched (copy_i16s_rv32im true) 3%nat 0 demo_call demo_mem
           (demo_call_ok _)).
  - unfold team. simpl. lia.
  - simpl. lia.
Defined.

(** X4: With [PLP_MATH_LOOPUNROLL] and an odd [M], the 16-bit RV32IM copy
    copies the rows [0 .. M]: besides the M rows of the view it copies row
    [M] of the source to row [M] of the destination, and it changes nothing
    outside these M + 1 rows. *)
Theorem unrolled_copy_i16s_odd_rows :
  forall pSrc M N strideSrc strideDst pDst m0,
    0 <= M -> M mod 2 = 1 -> 0 <= N -> N <= strideSrc -> N <= strideDst ->
    fits32 M 1 strideSrc -> fits32 M 1 strideDst ->
    pblk pSrc <> pblk pDst ->
    let m' := plp_mat_copy_stride_i16s_rv32im true pSrc M N strideSrc
                strideDst pDst m0 in
    (forall n, 0 <= n < N ->
       load 16 m' (padd pDst (M * strideDst + n))
       = load 16 m0 (padd pSrc (M * strideSrc + n))) /\
    (forall r n, 0 <= r < M -> 0 <= n < N ->
       load 16 m' (padd pDst (r * strideDst + n))
       = load 16 m0 (padd pSrc (r * strideSrc + n))) /\
    (forall b i,
       (b <> pblk pDst \/
        ~ exists r c, 0 <= r <= M /\ 0 <= c < N /\
                      i = pofs pDst + r * strideDst + c) ->
       cells m' b i = cells m0 b i).
Proof.
  intros pSrc M N sS sD pDst m0 HM Hodd HN HsS HsD HfS HfD Hb m'.
  set (a := mk_add_instance pSrc pSrc M N sS sS sD 1 pDst).
  assert (Hok : call_ok (copy_i16s_rv32im true) a).
  { constructor; unfold binary, team; simpl; try assumption; try lia;
      intros []. }
  destruct (run_ok (copy_i16s_rv32im true) (Z.to_nat M) 0 a m0 Hok)
    as [m1 [E He]]; [unfold team; simpl; lia|simpl; lia|].
  assert (Em : m1 = m') by (cbn in E; now injection E as <-).
  rewrite Em in He. clear E Em.
  assert (HR : forall r, written_rows (copy_i16s_rv32im true) a 0 r
                         <-> 0 <= r <= M).
  { intros r. cbn [written_rows a_M a]. rewrite Hodd. lia. }
  assert (HV : forall r n, 0 <= r <= M -> 0 <= n < N ->
            load 16 m' (padd pDst (r * sD + n))
            = load 16 m0 (padd pSrc (r * sS + n))).
  { intros r n Hr Hn.
    transitivity (expected 16 OpCopy a m0 r n).
    - exact (owes_values (copy_i16s_rv32im true) a m0 _ m' r n He HsD
               (proj2 (HR r) Hr) Hn).
    - unfold expected, load. cbn [apply_op a_pSrcA a_strideA a].
      apply sext_idem. }
  split; [|split].
  - intros n Hn. apply HV; lia.
  - intros r n Hr Hn. apply HV; lia.
  - intros b i H. apply (owes_frame (copy_i16s_rv32im true) a m0 _ m' b i He).
    destruct H as [H|H]; [now left|right].
    intros [r [c [Hr Hc]]]. apply H. exists r, c. split; [now apply HR|exact Hc].
Qed.

Lemma unrolled_copy_i16s_odd_rows_witness :
  let m' := plp_mat_copy_stride_i16s_rv32im true (mkptr 1%positive 0) 3 5 7 8
              (mkptr 3%positive 0) demo_mem in
  (forall n, 0 <= n < 5 ->
     load 16 m' (padd (mkptr 3%positive 0) (3 * 8 + n))
     = load 16 demo_mem (padd (mkptr 1%positive 0) (3 * 7 + n))) /\
  (forall r n, 0 <= r < 3 -> 0 <= n < 5 ->
     load 16 m' (padd (mkptr 3%positive 0) (r * 8 + n))
     = load 16 demo_mem (padd (mkptr 1%positive 0) (r * 7 + n))) /\
  (forall b i,
     (b <> pblk (mkptr 3%positive 0) \/
      ~ exists r c, 0 <= r <= 3 /\ 0 <= c < 5 /\
                    i = pofs (mkptr 3%positive 0) + r * 8 + c) ->
     cells m' b i = cells demo_mem b i).
Proof.
  apply (unrolled_copy_i16s_odd_rows (mkptr 1%positive 0) 3 5 7 8
           (mkptr 3%positive 0) demo_mem); unfold fits32; simpl;
    try lia; try reflexivity; discriminate.
Defined.

(** ** Running an operation again, and with its sources exchanged *)



Lemma swap_sources_ok k a :
  operator_of k = OpAdd -> call_ok k a -> call_ok k (swap_sources a).
Proof.
  intros Ho [HM HN HT HsA HsB HsY HfA HfB HfY HbA HbB].
  assert (Hb : binary k) by (unfold binary; now rewrite Ho).
  destruct a as [A0 B0 M N sA sB sY nPE D0].
  constructor; unfold team, swap_sources in *; simpl in *; auto.
Qed.

(** X6: Exchanging the two sources of an add kernel (pointers and
    strides) gives the same memory, cell for cell. *)
Theorem add_sources_commute :
  forall k fuel a m0,
    operator_of k = OpAdd -> call_ok k a -> a_M a <= Z.of_nat fuel ->
    exists m1 m2,
      run_all k fuel a m0 = Some m1 /\
      run_all k fuel (swap_sources a) m0 = Some m2 /\
      forall b i, cells m1 b i = cells m2 b i.
Proof.
  intros k fuel a m0 Ho Hok Hf.
  pose proof (swap_sources_ok k a Ho Hok) as Hok'.
  destruct (run_all_ok k fuel a m0 Hok Hf) as [m1 [E1 He1]].
  destruct (run_all_ok k fuel (swap_sources a) m0 Hok') as [m2 [E2 He2]];
    [destruct a; exact Hf|].
  exists m1, m2. split; [exact E1|]. split; [exact E2|].
  unfold owes in He1, He2.
  eapply eff_cells_eq;
    [|apply Tmat_functional, (ok_strideY _ _ Hok)|exact He1|exact He2].
  destruct a as [A0 B0 M N sA sB sY nPE D0].
  cbn [swap_sources a_pSrcA a_pSrcB a_M a_N a_strideA a_strideB a_strideY a_nPE
       a_pDst].
  intros i v.
  assert (HR : forall a1 a2 : plp_mat_add_stride_instance,
            a_M a1 = a_M a2 -> forall r, all_rows k a1 r <-> all_rows k a2 r).
  { intros a1 a2 EM r.
    destruct k as [u|u|u| | |u| | |u|u|u]; cbn [all_rows]; rewrite ?EM;
      reflexivity. }
  split; intros [r [Hr [c [Hc [Hi Hv]]]]]; exists r;
    (split; [revert Hr; apply HR; reflexivity|]);
    exists c; (split; [exact Hc|]); (split; [exact Hi|]);
    rewrite Hv; unfold expected; rewrite Ho; cbn; f_equal; lia.
Qed.

Lemma add_sources_commute_witness :
  exists m1 m2,
    run_all add_i8p_xpulpv2 3 demo_call demo_mem = Some m1 /\
    run_all add_i8p_xpulpv2 3 (swap_sources demo_call) demo_mem = Some m2 /\
    forall b i, cells m1 b i = cells m2 b i.
Proof.
  apply (add_sources_commute add_i8p_xpulpv2 3%nat demo_call demo_mem eq_refl
           (demo_call_ok _)).
  simpl. lia.
Defined.

(** X7: On a matrix without rows or without columns ([M = 0] or [N = 0])
    a call of any kernel, in either build and on any core of the team,
    returns without a single store. *)
Theorem empty_matrix_is_noop :
  forall k fuel p a m0,
    call_ok k a -> 0 <= p < team k a -> a_M a <= Z.of_nat fuel ->
    a_M a = 0 \/ a_N a = 0 ->
    exists m', run k fuel p a m0 = Some m' /\ trace m' = trace m0 /\
               forall b i, cells m' b i = cells m0 b i.
Proof.
  intros k fuel p a m0 Hok Hp Hf Hz.
  destruct (run_ok k fuel p a m0 Hok Hp Hf) as [m' [E He]].
  assert (Hnone : forall r c,
            ~ (written_rows k a p r /\ 0 <= c < a_N a)).
  { intros r c [Hr Hc]. destruct Hz as [Hz|Hz]; [|lia].
    revert Hr.
    destruct k as [u|u|u| | |u| | |u|u|u]; cbn [written_rows];
      try destruct u; rewrite ?Hz; change (0 mod 2) with 0; lia. }
  exists m'. split; [exact E|]. split.
  - destruct (owes_trace k a m0 _ m' He) as [evs [Ht Hev]].
    destruct evs as [|e evs]; [exact Ht|].
    inversion Hev as [|? ? [r [c [Hr [Hc _]]]] _]. now destruct (Hnone r c).
  - intros b i. apply (owes_frame k a m0 _ m' b i He). right.
    intros [r [c [Hr [Hc _]]]]. now destruct (Hnone r c).
Qed.

Lemma empty_matrix_is_noop_witness :
  exists m', run (copy_i16s_rv32im true) 0 0 empty_call demo_mem = Some m' /\
             trace m' = trace demo_mem /\
             forall b i, cells m' b i = cells demo_mem b i.
Proof.
  apply (empty_matrix_is_noop (copy_i16s_rv32im true) 0%nat 0 empty_call
           demo_mem).
  - constructor; unfold fits32, team, binary; simpl; try lia; try discriminate;
      intros [].
  - unfold team. simpl. lia.
  - simpl. lia.
  - left. reflexivity.
Defined.

(** ** One operation after the other *)

Lemma sext_add_sub w x y : sext w (sext w (x + y) - y) = sext w x.
Proof.
  apply sext_congr.
  rewrite Zminus_mod, sext_mod_eq, <- Zminus_mod. f_equal. lia.
Qed.

(** The view that the second of two chained operations leaves. *)
Lemma chain_values k1 k2 fuel a pZ strideZ m0 :
  call_ok k1 a -> call_ok k2 (chain a pZ strideZ) ->
  width_of k1 = width_of k2 ->
  (binary k2 -> pblk (a_pSrcB a) <> pblk (a_pDst a)) ->
  a_M a <= Z.of_nat fuel ->
  exists m1 m2,
    run_all k1 fuel a m0 = Some m1 /\
    run_all k2 fuel (chain a pZ strideZ) m1 = Some m2 /\
    forall m n, 0 <= m < a_M a -> 0 <= n < a_N a ->
      load (width_of k2) m2 (padd pZ (m * strideZ + n))
      = elem_op (width_of k2) (operator_of k2)
          (elem_op (width_of k2) (operator_of k1)
             (load (width_of k2) m0 (padd (a_pSrcA a) (m * a_strideA a + n)))
             (load (width_of k2) m0 (padd (a_pSrcB a) (m * a_strideB a + n))))
          (load (width_of k2) m0 (padd (a_pSrcB a) (m * a_strideB a + n))).
Proof.
  intros Hok1 Hok2 Ew HB Hf.
  destruct (run_all_ok k1 fuel a m0 Hok1 Hf) as [m1 [E1 He1]].
  destruct (run_all_ok k2 fuel (chain a pZ strideZ) m1 Hok2) as [m2 [E2 He2]];
    [exact Hf|].
  exists m1, m2. split; [exact E1|]. split; [exact E2|].
  intros m n Hm Hn.
  pose proof (eff_agree _ _ _ _ _ He1 (agree_refl _ _)) as Ha.
  pose proof (owes_values k2 (chain a pZ strideZ) m1 _ m2 m n He2
                (ok_strideY _ _ Hok2)
                (all_rows_view k2 (chain a pZ strideZ) m Hm) Hn) as V2.
  cbn [chain a_pDst a_strideY] in V2. rewrite V2, expected_elem.
  cbn [chain a_pSrcA a_pSrcB a_strideA a_strideB].
  rewrite <- Ew.
  rewrite (owes_values k1 a m0 _ m1 m n He1 (ok_strideY _ _ Hok1)
             (all_rows_view k1 a m Hm) Hn), expected_elem.
  destruct (operator_of k2) eqn:Eo; cbn [elem_op]; try reflexivity;
    rewrite (load_agree _ _ _ _ (padd (a_pSrcB a) _) Ha); try reflexivity;
    apply HB; unfold binary; now rewrite Eo.
Qed.

(** X8: Subtracting [B] again from the result of an addition [A + B]
    gives back the view of [A] exactly, also where the addition wrapped
    around: an add kernel followed by a subtract kernel of the same width on
    its destination and the same [B]. *)
Theorem sub_undoes_add :
  forall ka ks fuel a pZ strideZ m0,
    operator_of ka = OpAdd -> operator_of ks = OpSub ->
    width_of ka = width_of ks ->
    call_ok ka a -> call_ok ks (chain a pZ strideZ) ->
    a_M a <= Z.of_nat fuel ->
    exists m1 m2,
      run_all ka fuel a m0 = Some m1 /\
      run_all ks fuel (chain a pZ strideZ) m1 = Some m2 /\
      forall m n, 0 <= m < a_M a -> 0 <= n < a_N a ->
        load (width_of ks) m2 (padd pZ (m * strideZ + n))
        = load (width_of ks) m0 (padd (a_pSrcA a) (m * a_strideA a + n)).
Proof.
  intros ka ks fuel a pZ strideZ m0 Oa Os Ew Hok1 Hok2 Hf.
  destruct (chain_values ka ks fuel a pZ strideZ m0 Hok1 Hok2 Ew) as
    [m1 [m2 [E1 [E2 H]]]]; [|exact Hf|].
  { intros _. apply (ok_srcB _ _ Hok1). unfold binary. now rewrite Oa. }
  exists m1, m2. split; [exact E1|]. split; [exact E2|].
  intros m n Hm Hn. rewrite (H m n Hm Hn), Oa, Os. cbn [elem_op].
  rewrite sext_add_sub. unfold load. apply sext_idem.
Qed.

Lemma sub_undoes_add_witness :
  exists m1 m2,
    run_all add_i16p_xpulpv2 3 demo_call demo_mem = Some m1 /\
    run_all (sub_i16s_xpulpv2 true) 3
            (chain demo_call (mkptr 4%positive 0) 5) m1 = Some m2 /\
    forall m n, 0 <= m < a_M demo_call -> 0 <= n < a_N demo_call ->
      load 16 m2 (padd (mkptr 4%positive 0) (m * 5 + n))
      = load 16 demo_mem
             (padd (a_pSrcA demo_call) (m * a_strideA demo_call + n)).
Proof.
  apply (sub_undoes_add add_i16p_xpulpv2 (sub_i16s_xpulpv2 true) 3%nat
           demo_call (mkptr 4%positive 0) 5 demo_mem eq_refl eq_refl eq_refl
           (demo_call_ok _)).
  - constructor; unfold fits32, team, binary; simpl; try lia;
      try discriminate.
  - simpl. lia.
Defined.



(** ** Two tiles of one matrix *)



(** ** The cores of a team *)

Lemma Tmat_or rv D sY N (R1 R2 : Z -> Prop) :
  t_eq (t_or (Tmat rv D sY N R1) (Tmat rv D sY N R2))
       (Tmat rv D sY N (fun r => R1 r \/ R2 r)).
Proof.
  intros i v. split.
  - intros [[r [Hr H]]|[r [Hr H]]]; exists r; (split; [auto|exact H]).
  - intros [r [[Hr|Hr] H]]; [left|right]; exists r; (split; [exact Hr|exact H]).
Qed.

(** Two calls of a parallel kernel, one after the other. *)
Lemma two_cores k fuel p q a m0 :
  is_parallel k = true -> call_ok k a -> a_M a <= Z.of_nat fuel ->
  0 <= p < a_nPE a -> 0 <= q < a_nPE a ->
  exists m1 m2,
    run k fuel p a m0 = Some m1 /\ run k fuel q a m1 = Some m2 /\
    owes k a m0 (fun r => 0 <= r < a_M a /\ r mod a_nPE a = p) m1 /\
    owes k a m0 (fun r => (0 <= r < a_M a /\ r mod a_nPE a = p) \/
                          (0 <= r < a_M a /\ r mod a_nPE a = q)) m2.
Proof.
  intros Hk Hok Hf Hp Hq.
  assert (Hp' : 0 <= p < team k a) by (unfold team; now rewrite Hk).
  assert (Hq' : 0 <= q < team k a) by (unfold team; now rewrite Hk).
  destruct (run_ok k fuel p a m0 Hok Hp' Hf) as [m1 [E1 He1]].
  destruct (run_ok k fuel q a m1 Hok Hq' Hf) as [m2 [E2 He2]].
  rewrite (parallel_rows _ _ _ Hk) in He1. rewrite (parallel_rows _ _ _ Hk) in He2.
  exists m1, m2. split; [exact E1|]. split; [exact E2|]. split; [exact He1|].
  unfold owes in *.
  pose proof (eff_agree _ _ _ _ _ He1 (agree_refl _ _)) as Ha.
  eapply eff_equiv; [apply Tmat_or|]. eapply eff_seq; [exact He1|].
  eapply eff_equiv; [|exact He2]. apply Tmat_ext.
  apply expected_agree; [exact Ha|apply (ok_srcA _ _ Hok)|].
  intros Ho. apply (ok_srcB _ _ Hok), binary_op, Ho.
Qed.

(** X10: The calls of two different cores of a parallel kernel store to
    disjoint cells, and running them in either order ends in the same
    memory: the rows of a core do not depend on what another core wrote. *)
Theorem cores_commute :
  forall k fuel p q a m0,
    is_parallel k = true -> call_ok k a -> a_M a <= Z.of_nat fuel ->
    0 <= p < a_nPE a -> 0 <= q < a_nPE a -> p <> q ->
    exists mp mpq mq mqp evp evq,
      run k fuel p a m0 = Some mp /\ run k fuel q a mp = Some mpq /\
      run k fuel q a m0 = Some mq /\ run k fuel p a mq = Some mqp /\
      (forall b i, cells mpq b i = cells mqp b i) /\
      trace mp = evp ++ trace m0 /\ trace mq = evq ++ trace m0 /\
      (forall e, In e evp -> ~ In e evq).
Proof.
  intros k fuel p q a m0 Hk Hok Hf Hp Hq Hpq.
  destruct (two_cores k fuel p q a m0 Hk Hok Hf Hp Hq)
    as [mp [mpq [E1 [E2 [Hep Hepq]]]]].
  destruct (two_cores k fuel q p a m0 Hk Hok Hf Hq Hp)
    as [mq [mqp [E3 [E4 [Heq Heqp]]]]].
  destruct (owes_trace k a m0 _ mp Hep) as [evp [Htp Hevp]].
  destruct (owes_trace k a m0 _ mq Heq) as [evq [Htq Hevq]].
  exists mp, mpq, mq, mqp, evp, evq.
  repeat (split; [assumption|]).
  pose proof (ok_strideY _ _ Hok) as HsY.
  split; [|split; [exact Htp|split; [exact Htq|]]].
  - refine (owes_cells_eq k k a m0 _ _ mpq mqp eq_refl eq_refl HsY _
              Hepq Heqp).
    intros r. tauto.
  - intros e Hin Hin'. rewrite Forall_forall in Hevp, Hevq.
    destruct (Hevp e Hin) as [r [c [[Hr Hm] [Hc ->]]]].
    destruct (Hevq _ Hin') as [r' [c' [[Hr' Hm'] [Hc' [= Hi]]]]].
    assert (r = r') by nia. subst r'. congruence.
Qed.

Lemma cores_commute_witness :
  exists mp mpq mq mqp evp evq,
    run copy_i16p_xpulpv2 3 0 demo_call demo_mem = Some mp /\
    run copy_i16p_xpulpv2 3 1 demo_call mp = Some mpq /\
    run copy_i16p_xpulpv2 3 1 demo_call demo_mem = Some mq /\
    run copy_i16p_xpulpv2 3 0 demo_call mq = Some mqp /\
    (forall b i, cells mpq b i = cells mqp b i) /\
    trace mp = evp ++ trace demo_mem /\ trace mq = evq ++ trace demo_mem /\
    (forall e, In e evp -> ~ In e evq).
Proof.
  apply (cores_commute copy_i16p_xpulpv2 3%nat 0 1 demo_call demo_mem eq_refl
           (demo_call_ok _)); simpl; lia.
Defined.

(** The rows of a core, in the order of the loop. *)
Lemma log_rows_list M nPE (fuel : nat) :
  0 < nPE -> M + nPE <= 2 ^ 32 ->
  forall r acc,
    0 <= r -> M - r <= Z.of_nat fuel ->
    for_pe fuel r M nPE (fun x (l : list Z) => l ++ [x]) acc
    = Some (acc ++ map (fun j => r + Z.of_nat j * nPE)
                       (seq 0 (Z.to_nat ((M - r + nPE - 1) / nPE)))).
Proof.
  intros HP HW. induction fuel as [|fuel IH]; intros r acc Hr Hf.
  - simpl. destruct (Z.ltb_spec r M); [lia|].
    assert (Hz : (M - r + nPE - 1) / nPE < 1)
      by (apply Z.div_lt_upper_bound; lia).
    replace (Z.to_nat ((M - r + nPE - 1) / nPE)) with 0%nat by lia.
    simpl. now rewrite app_nil_r.
  - cbn [for_pe]. destruct (Z.ltb_spec r M) as [Hlt|Hge].
    + rewrite wrap32_small by lia.
      rewrite (IH (r + nPE) (acc ++ [r])) by lia.
      replace (M - (r + nPE) + nPE - 1) with (M - r - 1) by lia.
      replace (M - r + nPE - 1) with (M - r - 1 + 1 * nPE) by lia.
      rewrite Z.div_add by lia.
      assert (Hd : 0 <= (M - r - 1) / nPE) by (apply Z.div_pos; lia).
      replace (Z.to_nat ((M - r - 1) / nPE + 1))
        with (S (Z.to_nat ((M - r - 1) / nPE))) by lia.
      rewrite <- app_assoc. f_equal. f_equal.
      cbn [seq map app]. f_equal; [lia|].
      rewrite <- seq_shift, map_map. apply map_ext. intros j. lia.
    + assert (Hz : (M - r + nPE - 1) / nPE < 1)
        by (apply Z.div_lt_upper_bound; lia).
      replace (Z.to_nat ((M - r + nPE - 1) / nPE)) with 0%nat by lia.
      simpl. now rewrite app_nil_r.
Qed.

(** X11: The loop [for (m = core_id; m < M; m += nPE)] runs its body on
    the rows [core_id, core_id + nPE, core_id + 2 nPE, ...] in increasing
    order, [ceil((M - core_id) / nPE)] of them; so every core of the team
    gets [M / nPE] rows or one more. *)
Theorem rows_in_order_and_balanced :
  forall fuel M nPE core_id,
    0 <= M -> 0 < nPE -> M + nPE <= 2 ^ 32 -> 0 <= core_id < nPE ->
    M <= Z.of_nat fuel ->
    let count := (M - core_id + nPE - 1) / nPE in
    let rows := map (fun j => core_id + Z.of_nat j * nPE)
                    (seq 0 (Z.to_nat count)) in
    pe_rows fuel core_id M nPE = Some rows /\
    (forall (St : Type) (body : Z -> St -> St) (s : St),
       for_pe fuel (wrap32 core_id) M nPE body s
       = Some (fold_left (fun s r => body r s) rows s)) /\
    M / nPE <= count <= M / nPE + 1.
Proof.
  intros fuel M nPE p HM HP HW Hp Hf count rows.
  assert (E : pe_rows fuel p M nPE = Some rows).
  { unfold pe_rows. rewrite wrap32_small by lia.
    now rewrite (log_rows_list M nPE fuel HP HW p []) by lia. }
  split; [exact E|]. split.
  - intros St body s. apply (for_pe_along M nPE body fuel _ []). exact E.
  - subst count. split.
    + apply Z.div_le_mono; lia.
    + replace (M / nPE + 1) with ((M + 1 * nPE) / nPE)
        by (rewrite Z.div_add by lia; reflexivity).
      apply Z.div_le_mono; lia.
Qed.

Lemma rows_in_order_and_balanced_witness :
  let count := (7 - 1 + 3 - 1) / 3 in
  let rows := map (fun j => 1 + Z.of_nat j * 3) (seq 0 (Z.to_nat count)) in
  pe_rows 7 1 7 3 = Some rows /\
  (forall (St : Type) (body : Z -> St -> St) (s : St),
     for_pe 7 (wrap32 1) 7 3 body s
     = Some (fold_left (fun s r => body r s) rows s)) /\
  7 / 3 <= count <= 7 / 3 + 1.
Proof.
  apply (rows_in_order_and_balanced 7%nat 7 3 1); lia.
Defined.

(** A row counter that wraps before it reaches [M] starts over. *)
Lemma for_pe_wraps {St : Type} M nPE p (body : Z -> St -> St) :
  0 < nPE -> 2 ^ 32 mod nPE = 0 -> 0 <= p < nPE -> 2 ^ 32 - nPE + p < M ->
  forall (fuel : nat) j s,
    0 <= j -> p + j * nPE < 2 ^ 32 ->
    for_pe fuel (p + j * nPE) M nPE body s = None.
Proof.
  intros HP Hd Hp HM.
  assert (Ht : 2 ^ 32 = nPE * (2 ^ 32 / nPE)).
  { pose proof (Z.div_mod (2 ^ 32) nPE ltac:(lia)). lia. }
  set (t := 2 ^ 32 / nPE) in *.
  assert (Hb : forall j, 0 <= j -> p + j * nPE < 2 ^ 32 -> p + j * nPE < M).
  { intros j Hj Hlt. assert (j < t) by nia.
    assert (j * nPE <= (t - 1) * nPE) by nia. lia. }
  induction fuel as [|fuel IH]; intros j s Hj Hlt; pose proof (Hb j Hj Hlt).
  - cbn [for_pe]. destruct (Z.ltb_spec (p + j * nPE) M); [reflexivity|lia].
  - cbn [for_pe]. destruct (Z.ltb_spec (p + j * nPE) M); [|lia].
    destruct (Z_lt_ge_dec (p + (j + 1) * nPE) (2 ^ 32)) as [Hs|Hs].
    + replace (wrap32 (p + j * nPE + nPE)) with (p + (j + 1) * nPE)
        by (rewrite wrap32_small; lia).
      apply IH; lia.
    + assert (j + 1 = t) by nia.
      replace (wrap32 (p + j * nPE + nPE)) with (p + 0 * nPE).
      * apply IH; lia.
      * unfold wrap32.
        replace (p + j * nPE + nPE) with (p + 1 * 2 ^ 32) by nia.
        rewrite Z.mod_add by lia. rewrite Z.mod_small; lia.
Qed.

Lemma for_pe_never {St : Type} fuel M nPE p (body : Z -> St -> St) s :
  0 < nPE -> 2 ^ 32 mod nPE = 0 -> 0 <= p < nPE -> 2 ^ 32 - nPE + p < M ->
  for_pe fuel (wrap32 p) M nPE body s = None.
Proof.
  intros HP Hd Hp HM.
  assert (nPE <= 2 ^ 32).
  { pose proof (Z.div_mod (2 ^ 32) nPE ltac:(lia)).
    assert (0 < 2 ^ 32 / nPE) by nia. nia. }
  rewrite wrap32_small by lia.
  replace p with (p + 0 * nPE) at 1 by lia.
  apply for_pe_wraps; try assumption; lia.
Qed.

(** X12: The row counter is a [uint32_t]: when the number of cores
    divides [2^32] and [M] exceeds [2^32 - nPE + core_id], the counter wraps
    around before it reaches [M] and the call never returns, whatever the
    loop body; so it is for the matrix multiplication and for the parallel
    add and copy kernels (the 8-bit copy with [N = 0] has no loop). *)
Theorem row_counter_wraps :
  forall fuel core_id M nPE,
    0 < nPE -> 2 ^ 32 mod nPE = 0 -> 0 <= core_id < nPE ->
    2 ^ 32 - nPE + core_id < M -> M < 2 ^ 32 ->
    (forall x m, x_M x = M -> x_nPE x = nPE ->
       plp_mat_mult_trans_i16vp_xpulpv2 fuel core_id x m = None) /\
    (forall k a m, is_parallel k = true -> a_M a = M -> a_nPE a = nPE ->
       (k = copy_i8p_xpulpv2 -> 0 < a_N a) ->
       run k fuel core_id a m = None).
Proof.
  intros fuel p M nPE HP Hd Hp HM _. split.
  - intros x m EM EP. unfold plp_mat_mult_trans_i16vp_xpulpv2. cbv zeta.
    rewrite EM, EP. now rewrite for_pe_never.
  - intros k a m Hk EM EP HN.
    destruct k; try discriminate; cbn [run];
      [unfold plp_mat_add_stride_i16p_xpulpv2
      |unfold plp_mat_add_stride_i8p_xpulpv2
      |unfold plp_mat_copy_stride_i16p_xpulpv2
      |unfold plp_mat_copy_stride_i8p_xpulpv2]; cbv zeta;
      cbn [copy_instance c_M c_N c_nPE c_pSrc c_pDst c_strideSrc c_strideDst];
      rewrite ?EM, ?EP;
      repeat match goal with
             | |- context [if ?c then _ else _] => destruct c eqn:?
             end;
      rewrite ?for_pe_never by assumption; try reflexivity.
    exfalso. specialize (HN eq_refl). arith.
Qed.

Lemma row_counter_wraps_witness :
  (forall x m, x_M x = 2 ^ 32 - 1 -> x_nPE x = 2 ->
     plp_mat_mult_trans_i16vp_xpulpv2 5 0 x m = None) /\
  (forall k a m, is_parallel k = true -> a_M a = 2 ^ 32 - 1 -> a_nPE a = 2 ->
     (k = copy_i8p_xpulpv2 -> 0 < a_N a) ->
     run k 5 0 a m = None).
Proof.
  apply (row_counter_wraps 5%nat 0 (2 ^ 32 - 1) 2); try lia. reflexivity.
Defined.

(** ** The size of the team *)

(** X19: The result of a parallel kernel does not depend on the number of
    cores: the teams of [nPE] and of [n] cores, each running all its cores
    on the same matrices, leave the same memory, cell for cell. *)
Theorem team_size_is_irrelevant :
  forall k fuel a n m0,
    is_parallel k = true -> call_ok k a -> call_ok k (with_team a n) ->
    a_M a <= Z.of_nat fuel ->
    exists m1 m2,
      run_all k fuel a m0 = Some m1 /\
      run_all k fuel (with_team a n) m0 = Some m2 /\
      forall b i, cells m1 b i = cells m2 b i.
Proof.
  intros k fuel a n m0 Hk Hok Hok' Hf.
  destruct (run_all_ok k fuel a m0 Hok Hf) as [m1 [E1 He1]].
  destruct (run_all_ok k fuel (with_team a n) m0 Hok') as [m2 [E2 He2]];
    [destruct a; exact Hf|].
  exists m1, m2. split; [exact E1|]. split; [exact E2|].
  unfold owes in He1, He2.
  eapply eff_cells_eq;
    [|apply Tmat_functional, (ok_strideY _ _ Hok)|exact He1|exact He2].
  destruct a as [A0 B0 M N sA sB sY nPE D0].
  destruct k; try discriminate; intros i v; reflexivity.
Qed.

Lemma team_size_is_irrelevant_witness :
  exists m1 m2,
    run_all add_i8p_xpulpv2 3 demo_call demo_mem = Some m1 /\
    run_all add_i8p_xpulpv2 3 (with_team demo_call 8) demo_mem = Some m2 /\
    forall b i, cells m1 b i = cells m2 b i.
Proof.
  apply (team_size_is_irrelevant add_i8p_xpulpv2 3%nat demo_call 8 demo_mem
           eq_refl (demo_call_ok _)).
  - constructor; unfold fits32, team, binary; simpl; try lia;
      try discriminate.
  - simpl. lia.
Defined.

(** ** The whole matrix product *)

(** The cells part of an effect: what is left of it across a barrier. *)
Definition ceff (bD : block) (T : target) (m m' : mem) : Prop :=
  forall b i,
    (b = bD /\ T i (cells m' b i)) \/
    (~ (b = bD /\ exists v, T i v) /\ cells m' b i = cells m b i).

Lemma ceff_barrier bD T m m' : eff bD T m m' -> ceff bD T m (rt_team_barrier m').
Proof. intros [Hc _]. exact Hc. Qed.

Lemma ceff_equiv bD T T' m m' : t_eq T T' -> ceff bD T m m' -> ceff bD T' m m'.
Proof.
  intros E Hc b i. destruct (Hc b i) as [[-> H]|[Hn He]].
  - left. split; [reflexivity|]. now apply E.
  - right. split; [|exact He]. intros [-> [v Hv]]. apply Hn.
    split; [reflexivity|]. exists v. now apply E.
Qed.

Lemma ceff_seq bD T1 T2 m m1 m2 :
  ceff bD T1 m m1 -> ceff bD T2 m1 m2 -> ceff bD (t_or T1 T2) m m2.
Proof.
  intros Hc1 Hc2 b i. destruct (Hc2 b i) as [[-> H]|[Hn He]].
  - left. split; [reflexivity|now right].
  - destruct (Hc1 b i) as [[-> H]|[Hn1 He1]].
    + left. split; [reflexivity|]. left. now rewrite He.
    + right. split; [|congruence].
      intros [-> [v [Hv|Hv]]]; [apply Hn1|apply Hn]; eauto.
Qed.

Lemma ceff_agree bD T m m' : ceff bD T m m' -> agree bD m m'.
Proof.
  intros Hc b i Hb. destruct (Hc b i) as [[-> _]|[_ He]];
    [now destruct Hb|exact He].
Qed.

Lemma dot_agree x m0 m r o :
  agree (pblk (x_pDstC x)) m0 m ->
  pblk (x_pSrcA x) <> pblk (x_pDstC x) ->
  pblk (x_pSrcB x) <> pblk (x_pDstC x) ->
  dot x m r o = dot x m0 r o.
Proof.
  intros Ha HA HB. unfold dot, for_idx.
  generalize (seq 0 (Z.to_nat (x_N x))) 0.
  induction l as [|j l IH]; intros acc; [reflexivity|].
  simpl. rewrite IH. now rewrite !(load_agree _ _ _ _ _ Ha) by assumption.
Qed.

(** What the calls of the first [n] cores leave. *)
Lemma mult_cores x fuel m0 :
  mult_ok x -> x_M x <= Z.of_nat fuel ->
  forall n : nat, Z.of_nat n <= x_nPE x ->
  exists m',
    run_cores (fun p => plp_mat_mult_trans_i16vp_xpulpv2 fuel p x) n m0
    = Some m' /\
    ceff (pblk (x_pDstC x))
         (Tmat (fun r o => sext 32 (dot x m0 r o)) (pofs (x_pDstC x))
               (x_O x) (x_O x)
               (fun r => 0 <= r < x_M x /\ r mod x_nPE x < Z.of_nat n))
         m0 m'.
Proof.
  intros Hok Hf. pose proof (mo_nPE _ Hok) as HP.
  induction n as [|n IH]; intros Hn.
  - exists m0. split; [reflexivity|]. intros b i. right.
    split; [|reflexivity]. intros [_ [v [r [[_ Hr] _]]]].
    pose proof (Z.mod_pos_bound r (x_nPE x) ltac:(lia)). lia.
  - destruct (IH ltac:(lia)) as [m1 [E1 He1]].
    cbn [run_cores]. rewrite E1.
    destruct (mult_rows x fuel (Z.of_nat n) m1 Hok ltac:(lia) Hf)
      as [m2 [E2 He2]].
    exists (rt_team_barrier m2). split.
    + unfold plp_mat_mult_trans_i16vp_xpulpv2. cbv zeta. now rewrite E2.
    + pose proof (ceff_agree _ _ _ _ He1) as Ha.
      eapply ceff_equiv;
        [|eapply (ceff_seq _ _
                    (Tmat (fun r o => sext 32 (dot x m0 r o))
                          (pofs (x_pDstC x)) (x_O x) (x_O x)
                          (rows_of_core x (Z.of_nat n)))); [exact He1|]].
      2:{ apply ceff_barrier. eapply eff_equiv; [|exact He2].
          apply Tmat_ext. intros r o. cbv beta. f_equal.
          apply dot_agree; [exact Ha|apply (mo_srcA _ Hok)
                           |apply (mo_srcB _ Hok)]. }
      intros i v. unfold rows_of_core. split.
      * intros [[r [[Hr Hm] H]]|[r [[Hr Hm] H]]]; exists r;
          (split; [split; [exact Hr|lia]|exact H]).
      * intros [r [[Hr Hm] H]].
        destruct (Z.eq_dec (r mod x_nPE x) (Z.of_nat n)) as [E|E].
        -- right. exists r. split; [split; [exact Hr|exact E]|exact H].
        -- left. exists r. split; [split; [exact Hr|lia]|exact H].
Qed.

Lemma cmat_values bD rv D sY N R m m' r c :
  ceff bD (Tmat rv D sY N R) m m' -> N <= sY -> R r -> 0 <= c < N ->
  cells m' bD (D + r * sY + c) = rv r c.
Proof.
  intros Hc HN Hr Hcn.
  destruct (Hc bD (D + r * sY + c)) as [[_ [r' [_ [c' [H1 [H2 H3]]]]]]|[Hn _]].
  - assert (r = r') by nia. subst r'. assert (c = c') by lia. now subst c'.
  - exfalso. apply Hn. split; [reflexivity|]. exists (rv r c), r.
    split; [exact Hr|]. exists c. split; [lia|auto].
Qed.

Lemma cmat_frame bD rv D sY N R m m' b i :
  ceff bD (Tmat rv D sY N R) m m' ->
  (b <> bD \/ ~ exists r c, R r /\ 0 <= c < N /\ i = D + r * sY + c) ->
  cells m' b i = cells m b i.
Proof.
  intros Hc H. destruct (Hc b i) as [[-> [r [Hr [c [H1 [H2 _]]]]]]|[_ He]].
  - destruct H as [H|H]; [now destruct H|]. exfalso. apply H.
    exists r, c. split; [exact Hr|]. split; [lia|exact H2].
  - exact He.
Qed.

Lemma mult_team_ok x fuel m0 :
  mult_ok x -> x_M x <= Z.of_nat fuel ->
  exists m', mult_team fuel x m0 = Some m' /\
    ceff (pblk (x_pDstC x))
         (Tmat (fun r o => sext 32 (dot x m0 r o)) (pofs (x_pDstC x))
               (x_O x) (x_O x) (fun r => 0 <= r < x_M x))
         m0 m'.
Proof.
  intros Hok Hf. pose proof (mo_nPE _ Hok) as HP.
  destruct (mult_cores x fuel m0 Hok Hf (Z.to_nat (x_nPE x)) ltac:(lia))
    as [m' [E He]].
  exists m'. split; [exact E|].
  eapply ceff_equiv; [|exact He]. apply Tmat_equiv. intros r.
  rewrite Z2Nat.id by lia.
  pose proof (Z.mod_pos_bound r (x_nPE x) ltac:(lia)). lia.
Qed.

Lemma mult_team_values x fuel m0 :
  mult_ok x -> x_M x <= Z.of_nat fuel ->
  exists m', mult_team fuel x m0 = Some m' /\
    forall m o, 0 <= m < x_M x -> 0 <= o < x_O x ->
      load 32 m' (padd (x_pDstC x) (m * x_O x + o)) = sext 32 (dot x m0 m o).
Proof.
  intros Hok Hf. destruct (mult_team_ok x fuel m0 Hok Hf) as [m' [E He]].
  exists m'. split; [exact E|]. intros m o Hm Ho.
  unfold load. cbn [padd pblk pofs]. rewrite Z.add_assoc.
  rewrite (cmat_values _ _ _ _ _ _ _ _ m o He (Z.le_refl _) Hm Ho).
  apply sext_idem.
Qed.

(** X13: Once all [nPE] cores have run the transposed matrix
    multiplication, [pDstC] holds the whole M x O product: every
    [pDstC[m*O + o]] is the dot product of row m of [pSrcA] with row o of
    [pSrcB] in 32-bit two's complement, and no cell outside
    [pDstC[0 .. M*O-1]] has changed. *)
Theorem mult_team_product :
  forall fuel x m0,
    mult_ok x -> x_M x <= Z.of_nat fuel ->
    exists m', mult_team fuel x m0 = Some m' /\
      (forall m o, 0 <= m < x_M x -> 0 <= o < x_O x ->
         load 32 m' (padd (x_pDstC x) (m * x_O x + o))
         = sext 32 (dot x m0 m o)) /\
      (forall b i,
         b <> pblk (x_pDstC x) \/
         ~ (pofs (x_pDstC x) <= i < pofs (x_pDstC x) + x_M x * x_O x) ->
         cells m' b i = cells m0 b i).
Proof.
  intros fuel x m0 Hok Hf.
  destruct (mult_team_ok x fuel m0 Hok Hf) as [m' [E He]].
  exists m'. split; [exact E|]. split.
  - intros m o Hm Ho. unfold load. cbn [padd pblk pofs].
    rewrite Z.add_assoc.
    rewrite (cmat_values _ _ _ _ _ _ _ _ m o He (Z.le_refl _) Hm Ho).
    apply sext_idem.
  - intros b i H. apply (cmat_frame _ _ _ _ _ _ _ _ b i He).
    destruct H as [H|H]; [now left|right].
    intros [r [c [Hr [Hc Hi]]]]. apply H. nia.
Qed.

Lemma mult_team_product_witness :
  exists m', mult_team 3 demo_mult demo_mem = Some m' /\
    (forall m o, 0 <= m < x_M demo_mult -> 0 <= o < x_O demo_mult ->
       load 32 m' (padd (x_pDstC demo_mult) (m * x_O demo_mult + o))
       = sext 32 (dot demo_mult demo_mem m o)) /\
    (forall b i,
       b <> pblk (x_pDstC demo_mult) \/
       ~ (pofs (x_pDstC demo_mult) <= i
          < pofs (x_pDstC demo_mult) + x_M demo_mult * x_O demo_mult) ->
       cells m' b i = cells demo_mem b i).
Proof.
  apply (mult_team_product 3%nat demo_mult demo_mem demo_mult_ok).
  simpl. lia.
Defined.

(** X14: Degenerate sizes of the matrix multiplication: a core without
    rows ([M <= core_id]) or a product without columns ([O = 0]) stores
    nothing and only meets the barrier; with [N = 0] every element the core
    writes is 0, the empty sum. *)
Theorem mult_degenerate :
  forall fuel core_id x m0,
    mult_ok x -> 0 <= core_id < x_nPE x -> x_M x <= Z.of_nat fuel ->
    exists m',
      plp_mat_mult_trans_i16vp_xpulpv2 fuel core_id x m0 = Some m' /\
      (x_M x <= core_id \/ x_O x = 0 ->
         trace m' = EvBarrier :: trace m0 /\
         forall b i, cells m' b i = cells m0 b i) /\
      (x_N x = 0 ->
         forall m o, 0 <= m < x_M x -> m mod x_nPE x = core_id ->
                     0 <= o < x_O x ->
           load 32 m' (padd (x_pDstC x) (m * x_O x + o)) = 0).
Proof.
  intros fuel p x m0 Hok Hp Hf.
  destruct (mult_rows x fuel p m0 Hok Hp Hf) as [m1 [E He]].
  exists (rt_team_barrier m1). split; [|split].
  - unfold plp_mat_mult_trans_i16vp_xpulpv2. cbv zeta. now rewrite E.
  - intros Hz.
    assert (Hnone : forall r c, ~ (rows_of_core x p r /\ 0 <= c < x_O x)).
    { intros r c [[Hr Hm] Hc]. destruct Hz as [Hz|Hz]; [|lia].
      rewrite Z.mod_small in Hm by lia. lia. }
    split.
    + cbn [rt_team_barrier trace]. f_equal.
      destruct (mat_trace _ _ _ _ _ _ _ _ He) as [evs [Ht Hev]].
      destruct evs as [|e evs]; [exact Ht|].
      inversion Hev as [|? ? [r [c [Hr [Hc _]]]] _].
      now destruct (Hnone r c).
    + intros b i. cbn [rt_team_barrier cells].
      apply (mat_frame _ _ _ _ _ _ _ _ b i He). right.
      intros [r [c [Hr [Hc _]]]]. now destruct (Hnone r c).
  - intros HN m o Hm Hmod Ho. unfold load.
    cbn [padd pblk pofs rt_team_barrier cells]. rewrite Z.add_assoc.
    rewrite (mat_values _ _ _ _ _ _ _ _ m o He (Z.le_refl _)
               (conj Hm Hmod) Ho).
    unfold dot. rewrite HN. reflexivity.
Qed.

Lemma mult_degenerate_witness :
  (exists m',
     plp_mat_mult_trans_i16vp_xpulpv2 3 1 short_mult demo_mem = Some m' /\
     trace m' = EvBarrier :: trace demo_mem /\
     forall b i, cells m' b i = cells demo_mem b i) /\
  (exists m',
     plp_mat_mult_trans_i16vp_xpulpv2 3 0 flat_mult demo_mem = Some m' /\
     trace m' = EvBarrier :: trace demo_mem /\
     forall b i, cells m' b i = cells demo_mem b i) /\
  (exists m',
     plp_mat_mult_trans_i16vp_xpulpv2 3 1 thin_mult demo_mem = Some m' /\
     forall m o, 0 <= m < x_M thin_mult -> m mod x_nPE thin_mult = 1 ->
                 0 <= o < x_O thin_mult ->
       load 32 m' (padd (x_pDstC thin_mult) (m * x_O thin_mult + o)) = 0).
Proof.
  split; [|split].
  - destruct (mult_degenerate 3%nat 1 short_mult demo_mem)
      as [m' [E [H _]]];
      [constructor; simpl; try lia; discriminate|simpl; lia|simpl; lia|].
    exists m'. split; [exact E|]. apply H. left. simpl. lia.
  - destruct (mult_degenerate 3%nat 0 flat_mult demo_mem)
      as [m' [E [H _]]];
      [constructor; simpl; try lia; discriminate|simpl; lia|simpl; lia|].
    exists m'. split; [exact E|]. apply H. right. reflexivity.
  - destruct (mult_degenerate 3%nat 1 thin_mult demo_mem)
      as [m' [E [_ H]]];
      [constructor; simpl; try lia; discriminate|simpl; lia|simpl; lia|].
    exists m'. split; [exact E|]. apply H. reflexivity.
Defined.

Lemma dot_exchanged x pDstC' m r o :
  dot (exchanged x pDstC') m o r = dot x m r o.
Proof.
  unfold dot, for_idx, exchanged. cbn [x_N x_pSrcA x_pSrcB].
  generalize (seq 0 (Z.to_nat (x_N x))) 0.
  induction l as [|j l IH]; intros acc; [reflexivity|].
  simpl. rewrite IH. f_equal. lia.
Qed.

(** X15: Exchanging the operands of the transposed multiplication
    transposes its result: the product of [pSrcB] (O x N) with [pSrcA]
    (M x N) has at [o*M + m] what the product of [pSrcA] with [pSrcB] has
    at [m*O + o]. *)
Theorem mult_exchange_transposes :
  forall fuel x pDstC' m0,
    mult_ok x -> mult_ok (exchanged x pDstC') ->
    x_M x <= Z.of_nat fuel -> x_O x <= Z.of_nat fuel ->
    exists m1 m2,
      mult_team fuel x m0 = Some m1 /\
      mult_team fuel (exchanged x pDstC') m0 = Some m2 /\
      forall m o, 0 <= m < x_M x -> 0 <= o < x_O x ->
        load 32 m2 (padd pDstC' (o * x_M x + m))
        = load 32 m1 (padd (x_pDstC x) (m * x_O x + o)).
Proof.
  intros fuel x pC m0 Hok Hok' HfM HfO.
  destruct (mult_team_values x fuel m0 Hok HfM) as [m1 [E1 H1]].
  destruct (mult_team_values (exchanged x pC) fuel m0 Hok' HfO)
    as [m2 [E2 H2]].
  exists m1, m2. split; [exact E1|]. split; [exact E2|].
  intros m o Hm Ho. rewrite (H1 m o Hm Ho).
  pose proof (H2 o m Ho Hm) as V. cbn [exchanged x_pDstC x_O x_M] in V.
  rewrite V. now rewrite dot_exchanged.
Qed.

Lemma mult_exchange_transposes_witness :
  exists m1 m2,
    mult_team 3 demo_mult demo_mem = Some m1 /\
    mult_team 3 (exchanged demo_mult (mkptr 4%positive 0)) demo_mem
    = Some m2 /\
    forall m o, 0 <= m < x_M demo_mult -> 0 <= o < x_O demo_mult ->
      load 32 m2 (padd (mkptr 4%positive 0) (o * x_M demo_mult + m))
      = load 32 m1 (padd (x_pDstC demo_mult) (m * x_O demo_mult + o)).
Proof.
  apply (mult_exchange_transposes 3%nat demo_mult (mkptr 4%positive 0)
           demo_mem demo_mult_ok).
  - constructor; simpl; try lia; discriminate.
  - simpl. lia.
  - simpl. lia.
Defined.

(** ** Multiplying by the identity *)

Lemma sext_small w x :
  0 < w -> - 2 ^ (w - 1) <= x < 2 ^ (w - 1) -> sext w x = x.
Proof.
  intros Hw Hx. unfold sext.
  assert (H : 2 ^ w = 2 * 2 ^ (w - 1)).
  { rewrite <- Z.pow_succ_r by lia. f_equal. lia. }
  rewrite Z.mod_small by lia. lia.
Qed.

Lemma sext_32_of_16 x : sext 32 (sext 16 x) = sext 16 x.
Proof.
  apply sext_small; [lia|]. pose proof (sext_range 16 x ltac:(lia)).
  change (2 ^ (16 - 1)) with 32768 in *. change (2 ^ (32 - 1)) with 2147483648.
  lia.
Qed.

(** A sum whose terms vanish except the one of index [o]. *)
Lemma pick_one (f g : Z -> Z) o K :
  0 <= o ->
  (forall n, 0 <= n < K -> g n = if o =? n then 1 else 0) ->
  forall k : nat, Z.of_nat k <= K ->
    fold_left (fun acc i => acc + f (Z.of_nat i) * g (Z.of_nat i)) (seq 0 k) 0
    = if o <? Z.of_nat k then f o else 0.
Proof.
  intros Ho Hg. induction k as [|k IH]; intros Hk.
  - simpl. destruct (Z.ltb_spec o 0); [lia|reflexivity].
  - rewrite seq_S, fold_left_app. cbn [fold_left Nat.add]. rewrite IH by lia.
    rewrite (Hg (Z.of_nat k)) by lia.
    destruct (Z.ltb_spec o (Z.of_nat k)), (Z.eqb_spec o (Z.of_nat k)),
      (Z.ltb_spec o (Z.of_nat (S k))); subst; try lia.
Qed.

(** X17: Multiplying by the identity: when [pSrcB] holds the N x N
    identity matrix, the team leaves in [pDstC] the matrix [pSrcA], each
    16-bit element widened to 32 bits. *)
Theorem mult_by_identity :
  forall fuel x m0,
    mult_ok x -> x_M x <= Z.of_nat fuel -> x_O x = x_N x ->
    (forall o n, 0 <= o < x_N x -> 0 <= n < x_N x ->
       load 16 m0 (padd (x_pSrcB x) (o * x_N x + n))
       = if o =? n then 1 else 0) ->
    exists m', mult_team fuel x m0 = Some m' /\
      forall m o, 0 <= m < x_M x -> 0 <= o < x_N x ->
        load 32 m' (padd (x_pDstC x) (m * x_N x + o))
        = load 16 m0 (padd (x_pSrcA x) (m * x_N x + o)).
Proof.
  intros fuel x m0 Hok Hf EO HI.
  destruct (mult_team_values x fuel m0 Hok Hf) as [m' [E H]].
  exists m'. split; [exact E|]. intros m o Hm Ho.
  rewrite <- EO at 1. rewrite (H m o Hm ltac:(lia)).
  unfold dot, for_idx.
  rewrite (pick_one
             (fun n => load 16 m0 (padd (x_pSrcA x) (m * x_N x + n)))
             (fun n => load 16 m0 (padd (x_pSrcB x) (o * x_N x + n)))
             o (x_N x)); [|lia| |lia].
  - rewrite Z2Nat.id by lia. destruct (Z.ltb_spec o (x_N x)); [|lia].
    unfold load. apply sext_32_of_16.
  - intros n Hn. apply HI; lia.
Qed.

Lemma mult_by_identity_witness :
  exists m', mult_team 3 identity_mult identity_mem = Some m' /\
    forall m o, 0 <= m < x_M identity_mult -> 0 <= o < x_N identity_mult ->
      load 32 m' (padd (x_pDstC identity_mult) (m * x_N identity_mult + o))
      = load 16 identity_mem
             (padd (x_pSrcA identity_mult) (m * x_N identity_mult + o)).
Proof.
  apply (mult_by_identity 3%nat identity_mult identity_mem).
  - constructor; simpl; try lia; discriminate.
  - simpl. lia.
  - reflexivity.
  - intros o n Ho Hn. cbn [identity_mult x_pSrcB x_N] in *.
    assert (Hr : o = 0 \/ o = 1) by lia.
    assert (Hc : n = 0 \/ n = 1) by lia.
    destruct Hr as [-> | ->]; destruct Hc as [-> | ->]; reflexivity.
Defined.

(** ** The size of the team of the product *)

Lemma ceff_cells_eq bD T m m1 m2 :
  functional T -> ceff bD T m m1 -> ceff bD T m m2 ->
  forall b i, cells m1 b i = cells m2 b i.
Proof.
  intros F H1 H2 b i.
  destruct (H1 b i) as [[Hb V1]|[N1 E1]]; destruct (H2 b i) as [[Hb' V2]|[N2 E2]].
  - apply (F i); assumption.
  - exfalso. apply N2. split; [exact Hb|]. now exists (cells m1 b i).
  - exfalso. apply N1. split; [exact Hb'|]. now exists (cells m2 b i).
  - congruence.
Qed.

(** X20: The product does not depend on the number of cores either: the
    teams of [nPE] and of [n] cores leave the same memory, cell for cell. *)
Theorem mult_team_size_is_irrelevant :
  forall fuel x n m0,
    mult_ok x -> mult_ok (mult_with_team x n) -> x_M x <= Z.of_nat fuel ->
    exists m1 m2,
      mult_team fuel x m0 = Some m1 /\
      mult_team fuel (mult_with_team x n) m0 = Some m2 /\
      forall b i, cells m1 b i = cells m2 b i.
Proof.
  intros fuel x n m0 Hok Hok' Hf.
  destruct (mult_team_ok x fuel m0 Hok Hf) as [m1 [E1 He1]].
  destruct (mult_team_ok (mult_with_team x n) fuel m0 Hok')
    as [m2 [E2 He2]]; [destruct x; exact Hf|].
  exists m1, m2. split; [exact E1|]. split; [exact E2|].
  eapply ceff_cells_eq; [|exact He1|destruct x; exact He2].
  apply Tmat_functional. lia.
Qed.

Lemma mult_team_size_is_irrelevant_witness :
  exists m1 m2,
    mult_team 3 demo_mult demo_mem = Some m1 /\
    mult_team 3 (mult_with_team demo_mult 5) demo_mem = Some m2 /\
    forall b i, cells m1 b i = cells m2 b i.
Proof.
  apply (mult_team_size_is_irrelevant 3%nat demo_mult 5 demo_mem
           demo_mult_ok).
  - constructor; simpl; try lia; discriminate.
  - simpl. lia.
Defined.

(** ** The square root of a huge number *)

Lemma div_eucl_pair a b : Z.div_eucl a b = (a / b, a mod b).
Proof. unfold Z.div, Z.modulo. now destruct (Z.div_eucl a b). Qed.

(** A number with exponent 104 has a mantissa of 24 bits. *)
Lemma top_binade_digits m :
  bounded 24 128 m 104 = true -> digits2_pos m = 24%positive.
Proof.
  unfold bounded, canonical_mantissa, fexp, emin. intros H.
  apply andb_prop in H. destruct H as [H _]. apply Z.eqb_eq in H. lia.
Qed.

Lemma twice_overflows m :
  bounded 24 128 m 104 = true ->
  f32_mul f32_two (S754_finite false m 104) = S754_infinity false.
Proof.
  intros H. pose proof (top_binade_digits m H) as Hd.
  unfold f32_mul, f32_two, SFmul, binary_round_aux, shr_fexp, Zdigits2.
  cbn [Pos.mul digits2_pos xorb]. rewrite Hd.
  match goal with
  | |- (let '(mrs', e') := ?s in _) = _ =>
      replace s with (Build_shr_record (Z.pos m) false false, 105)
        by (vm_compute; reflexivity)
  end.
  cbn [shr_m loc_of_shr_record round_nearest_even shr_record_of_loc
       digits2_pos].
  rewrite Hd. reflexivity.
Qed.

Lemma shift_div m : Z.shiftl (Z.pos m) 24 / 8388608 = Z.pos m~0.
Proof.
  rewrite Z.shiftl_mul_pow2 by lia. change (2 ^ 24) with (2 * 8388608).
  rewrite Z.mul_assoc, Z.div_mul by lia. lia.
Qed.

Lemma shift_mod m : Z.shiftl (Z.pos m) 24 mod 8388608 = 0.
Proof.
  rewrite Z.shiftl_mul_pow2 by lia. change (2 ^ 24) with (2 * 8388608).
  rewrite Z.mul_assoc. apply Z.mod_mul. lia.
Qed.

Lemma half_of_huge m :
  bounded 24 128 m 104 = true ->
  f32_div (S754_finite false m 104) f32_two = S754_finite false m 103.
Proof.
  intros H. pose proof (top_binade_digits m H) as Hd.
  unfold f32_div, f32_two, SFdiv, SFdiv_core_binary, Zdigits2.
  rewrite Hd, div_eucl_pair.
  cbv -[Z.shiftl Z.div Z.modulo binary_round_aux new_location].
  rewrite shift_div, shift_mod.
  change (new_location 8388608 0) with loc_Exact.
  unfold binary_round_aux, shr_fexp, Zdigits2.
  cbn [digits2_pos]. rewrite Hd.
  match goal with
  | |- (let '(mrs', e') := ?s in _) = _ =>
      replace s with (Build_shr_record (Z.pos m) false false, 103)
        by (vm_compute; reflexivity)
  end.
  cbn [shr_m loc_of_shr_record round_nearest_even shr_record_of_loc
       digits2_pos].
  rewrite Hd. reflexivity.
Qed.

(** X16: For every finite input of at least [2^127] (the numbers with
    exponent 104) the seed [1 / (2 x)] is [1 / infinity = 0], the iteration
    stays at 0 and the kernel returns 0.0. *)
Theorem sqrt_of_huge_is_zero :
  forall m, bounded 24 128 m 104 = true ->
    plp_sqrt_f32s_xpulpv2 (S754_finite false m 104) = S754_zero false.
Proof.
  intros m H. unfold plp_sqrt_f32s_xpulpv2. cbv zeta.
  rewrite (twice_overflows m H), (half_of_huge m H). reflexivity.
Qed.

Lemma sqrt_of_huge_is_zero_witness :
  bounded 24 128 8388608 104 = true /\
  plp_sqrt_f32s_xpulpv2 (S754_finite false 8388608 104) = S754_zero false.
Proof.
  split; [reflexivity|]. apply (sqrt_of_huge_is_zero 8388608). reflexivity.
Defined.
